(** * A sequential model of the lockless binary search tree (package bst)

    The Go package keeps a tree of [Node] objects linked by raw pointers;
    every [Node] points to a [Key] object that holds the sort key [K] and the
    list [Values].  [Put] links freshly allocated nodes with compare-and-swap,
    [Delete] rewrites child pointers and key pointers in place, [Remove] and
    the equal-key path of [Put] rewrite [Values] in place.

    The embedding keeps that memory explicit: a store of [Node] objects, a
    store of [Key] objects and the [Root] cell of the [BST] struct.  Every
    function of the package is a computation in a small state-and-error monad
    over this store and follows the statements of the Go function it embeds.
    Execution is sequential: the per-key mutex is always free when it is
    taken, and a compare-and-swap sees the value that was just loaded. *)

From Stdlib Require Import ZArith NArith Lia.
From Stdlib.Strings Require Import Byte String.
From stdpp Require Import base option list gmap.

Local Open Scope Z_scope.

(** ** Byte strings and [bytes.Compare] *)

Abbreviation bytes := (list Byte.byte) (only parsing).

(** [bytes.Compare a b]: lexicographic comparison of two byte slices, the
    bytes read as unsigned numbers; the result is -1, 0 or +1. *)
Fixpoint Compare (a b : bytes) : Z :=
  match a, b with
  | [], [] => 0
  | [], _ :: _ => -1
  | _ :: _, [] => 1
  | x :: a', y :: b' =>
      match N.compare (Byte.to_N x) (Byte.to_N y) with
      | Lt => -1
      | Gt => 1
      | Eq => Compare a' b'
      end
  end.

#[global] Instance byte_eq_decision : EqDecision Byte.byte := Byte.byte_eq_dec.

(** [[]byte("...")] *)
Definition bytes_of (s : string) : bytes := list_byte_of_string s.

(** ** Memory *)

(** A Go pointer: [nil] or the address of an object. *)
Abbreviation ptr := (option positive) (only parsing).

(** [type Key struct { K []byte; Values [][]byte; Latch *sync.Mutex }].
    The latch is only ever locked and unlocked around one statement and
    carries no data; sequentially it is always free. *)
Record Key : Type := mkKey {
  K : bytes;
  Values : list bytes
}.

(** [type Node struct { Key *Key; Left, Right unsafe.Pointer }] *)
Record Node : Type := mkNode {
  Node_Key : ptr;
  Left : ptr;
  Right : ptr
}.

(** The memory one [*BST] reaches: the [Root] cell of the [BST] struct, the
    allocated [Node] objects and the allocated [Key] objects. *)
Record State : Type := mkState {
  Root : ptr;
  node_at : gmap positive Node;
  key_at : gmap positive Key
}.

(** [New()]: a [BST] whose root is nil, nothing allocated. *)
Definition New : State := mkState None ∅ ∅.

(** ** The monad of the embedding

    A computation either returns a value and a new memory, panics (a nil or
    dangling pointer is dereferenced, an index is out of range), or runs out
    of the recursion budget that stands for Go's unbounded call stack. *)

Inductive result (A : Type) : Type :=
| Ret (a : A) (s : State)
| Panic
| Timeout.
Arguments Ret {A} a s.
Arguments Panic {A}.
Arguments Timeout {A}.

Definition M (A : Type) : Type := State → result A.

Definition ret {A} (a : A) : M A := λ s, Ret a s.
Definition panic {A} : M A := λ _, Panic.
Definition timeout {A} : M A := λ _, Timeout.

Definition bind {A B} (m : M A) (k : A → M B) : M B :=
  λ s, match m s with
       | Ret a s' => k a s'
       | Panic => Panic
       | Timeout => Timeout
       end.

#[global] Instance M_ret : MRet M := @ret.
#[global] Instance M_bind : MBind M := λ A B k m, bind m k.

(** The recursion budget of a call: one more than the number of allocated
    nodes, which no path of an acyclic linked structure can exceed. *)
Definition budget (s : State) : nat := S (size (node_at s)).
Definition with_budget {A} (f : nat → M A) : M A := λ s, f (budget s) s.

(** *** Loads, stores and allocation *)

(** A node pointer is dereferenced for a field access: panics on nil. *)
Definition loadNode (p : ptr) : M Node :=
  λ s, match p with
       | None => Panic
       | Some a => match node_at s !! a with
                   | Some n => Ret n s
                   | None => Panic
                   end
       end.

Definition loadKey (p : ptr) : M Key :=
  λ s, match p with
       | None => Panic
       | Some a => match key_at s !! a with
                   | Some k => Ret k s
                   | None => Panic
                   end
       end.

Definition storeNode (p : ptr) (f : Node → Node) : M unit :=
  λ s, match p with
       | None => Panic
       | Some a =>
           match node_at s !! a with
           | Some n => Ret tt (mkState (Root s) (<[a := f n]> (node_at s)) (key_at s))
           | None => Panic
           end
       end.

Definition storeKey (p : ptr) (f : Key → Key) : M unit :=
  λ s, match p with
       | None => Panic
       | Some a =>
           match key_at s !! a with
           | Some k => Ret tt (mkState (Root s) (node_at s) (<[a := f k]> (key_at s)))
           | None => Panic
           end
       end.

(** [p.Left = v], [p.Right = v], [p.Key = v] *)
Definition setLeft (p v : ptr) : M unit :=
  storeNode p (λ n, mkNode (Node_Key n) v (Right n)).
Definition setRight (p v : ptr) : M unit :=
  storeNode p (λ n, mkNode (Node_Key n) (Left n) v).
Definition setKey (p v : ptr) : M unit :=
  storeNode p (λ n, mkNode v (Left n) (Right n)).

(** [p.Values = vs] *)
Definition setValues (p : ptr) (vs : list bytes) : M unit :=
  storeKey p (λ k, mkKey (K k) vs).

(** [atomic.LoadPointer(&bst.Root)] and [atomic.StorePointer(&bst.Root, v)] *)
Definition loadRoot : M ptr := λ s, Ret (Root s) s.
Definition storeRoot (v : ptr) : M unit :=
  λ s, Ret tt (mkState v (node_at s) (key_at s)).

(** [atomic.CompareAndSwapPointer(addr, old, new)] on the three kinds of
    cell the package swaps. *)
Definition casRoot (old new : ptr) : M bool :=
  cur ← loadRoot;
  if decide (cur = old) then storeRoot new ;; ret true else ret false.

Definition casLeft (p old new : ptr) : M bool :=
  n ← loadNode p;
  if decide (Left n = old) then setLeft p new ;; ret true else ret false.

Definition casRight (p old new : ptr) : M bool :=
  n ← loadNode p;
  if decide (Right n = old) then setRight p new ;; ret true else ret false.

(** [&Key{K: key, Values: [][]byte{value}, Latch: &sync.Mutex{}}] *)
Definition allocKey (key value : bytes) : M ptr :=
  λ s, let a := fresh (dom (key_at s)) in
       Ret (Some a) (mkState (Root s) (node_at s) (<[a := mkKey key [value]]> (key_at s))).

(** [&Node{Key: k}] *)
Definition allocNode (k : ptr) : M ptr :=
  λ s, let a := fresh (dom (node_at s)) in
       Ret (Some a) (mkState (Root s) (<[a := mkNode k None None]> (node_at s)) (key_at s)).

(** ** The package *)

(** [func (bst *BST) put(rootPointer unsafe.Pointer, newNode *Node) bool].
    [newKey] and [rootKey] are the records [newNode.Key] and [root.Key] as
    read for the comparison; nothing is written before the append reads
    them again. *)
Fixpoint put (fuel : nat) (rootPointer newNode : ptr) : M bool :=
  match fuel with
  | O => timeout
  | S fuel =>
      root ← loadNode rootPointer;
      new ← loadNode newNode;
      newKey ← loadKey (Node_Key new);
      rootKey ← loadKey (Node_Key root);
      if Compare (K newKey) (K rootKey) <? 0 then
        match Left root with
        | None =>
            swapped ← casLeft rootPointer None newNode;
            if swapped : bool then ret true else ret false
        | Some _ => put fuel (Left root) newNode
        end
      else if Compare (K newKey) (K rootKey) >? 0 then
        match Right root with
        | None =>
            swapped ← casRight rootPointer None newNode;
            if swapped : bool then ret true else ret false
        | Some _ => put fuel (Right root) newNode
        end
      else
        match Values newKey with
        | [] => panic
        | v0 :: _ =>
            setValues (Node_Key root) (Values rootKey ++ [v0]);;
            ret true
        end
  end.

(** The [for] loop of [Put]. *)
Fixpoint Put_loop (fuel : nat) (newNode : ptr) : M unit :=
  match fuel with
  | O => timeout
  | S fuel =>
      root ← loadRoot;
      match root with
      | None =>
          swapped ← casRoot None newNode;
          if swapped : bool then ret tt else Put_loop fuel newNode
      | Some _ =>
          done ← with_budget (λ n, put n root newNode);
          if done : bool then ret tt else Put_loop fuel newNode
      end
  end.

(** [func (bst *BST) Put(key, value []byte)] *)
Definition Put (key value : bytes) : M unit :=
  k ← allocKey key value;
  newNode ← allocNode k;
  with_budget (λ n, Put_loop n newNode).

(** [func (bst *BST) get(node *Node, key []byte) *Key] *)
Fixpoint get (fuel : nat) (node : ptr) (key : bytes) : M ptr :=
  match fuel with
  | O => timeout
  | S fuel =>
      match node with
      | None => ret None
      | Some _ =>
          n ← loadNode node;
          k ← loadKey (Node_Key n);
          if Compare key (K k) <? 0 then get fuel (Left n) key
          else if Compare key (K k) >? 0 then get fuel (Right n) key
          else ret (Node_Key n)
      end
  end.

(** [func (bst *BST) Get(key []byte) *Key] *)
Definition Get (key : bytes) : M ptr :=
  root ← loadRoot;
  with_budget (λ n, get n root key).

(** The [for i, v := range node.Key.Values] loop of [remove]: at the first
    index [i] whose element compares equal to [value] the new slice is
    [append(Values[:i], Values[i+1:]...)] and the loop breaks; [None] when
    the loop ends without a match (nothing is assigned). *)
Fixpoint remove_loop (values rest : list bytes) (i : nat) (value : bytes)
  : option (list bytes) :=
  match rest with
  | [] => None
  | v :: rest' =>
      if Compare v value =? 0 then Some (take i values ++ drop (S i) values)
      else remove_loop values rest' (S i) value
  end.

(** [func (bst *BST) remove(node *Node, key, value []byte)] *)
Fixpoint remove (fuel : nat) (node : ptr) (key value : bytes) : M unit :=
  match fuel with
  | O => timeout
  | S fuel =>
      match node with
      | None => ret tt
      | Some _ =>
          n ← loadNode node;
          k ← loadKey (Node_Key n);
          if Compare key (K k) <? 0 then remove fuel (Left n) key value
          else if Compare key (K k) >? 0 then remove fuel (Right n) key value
          else
            match remove_loop (Values k) (Values k) 0 value with
            | Some values => setValues (Node_Key n) values
            | None => ret tt
            end
      end
  end.

(** [func (bst *BST) Remove(key, value []byte)] *)
Definition Remove (key value : bytes) : M unit :=
  root ← loadRoot;
  with_budget (λ n, remove n root key value).

(** [func (bst *BST) minValueNode(node *Node) *Node]: the loop runs while
    [current.Left] is not nil. *)
Fixpoint minValueNode (fuel : nat) (node : ptr) : M ptr :=
  match fuel with
  | O => timeout
  | S fuel =>
      current ← loadNode node;
      match Left current with
      | None => ret node
      | Some _ => minValueNode fuel (Left current)
      end
  end.

(** [func (bst *BST) delete(node *Node, key []byte) *Node] *)
Fixpoint delete (fuel : nat) (node : ptr) (key : bytes) : M ptr :=
  match fuel with
  | O => timeout
  | S fuel =>
      match node with
      | None => ret None
      | Some _ =>
          n ← loadNode node;
          k ← loadKey (Node_Key n);
          if Compare key (K k) <? 0 then
            l ← delete fuel (Left n) key;
            setLeft node l;;
            ret node
          else if Compare key (K k) >? 0 then
            r ← delete fuel (Right n) key;
            setRight node r;;
            ret node
          else
            match Left n, Right n with
            | None, _ => ret (Right n)
            | Some _, None => ret (Left n)
            | Some _, Some _ =>
                minNode ← minValueNode fuel (Right n);
                m ← loadNode minNode;
                setKey node (Node_Key m);;
                n' ← loadNode node;
                m' ← loadNode minNode;
                mk ← loadKey (Node_Key m');
                r ← delete fuel (Right n') (K mk);
                setRight node r;;
                ret node
            end
      end
  end.

(** [func (bst *BST) Delete(key []byte)] *)
Definition Delete (key : bytes) : M unit :=
  root ← loadRoot;
  newRoot ← with_budget (λ n, delete n root key);
  storeRoot newRoot.

(** The scans append [*Key] pointers to the slice [keys] they are handed;
    the helpers return the slice as it is when they return. *)

(** [func (bst *BST) rangeKeys(node *Node, start, end []byte, keys *[]*Key)] *)
Fixpoint rangeKeys (fuel : nat) (node : ptr) (start end_ : bytes)
    (keys : list ptr) : M (list ptr) :=
  match fuel with
  | O => timeout
  | S fuel =>
      match node with
      | None => ret keys
      | Some _ =>
          n ← loadNode node;
          k ← loadKey (Node_Key n);
          keys ← (if Compare (K k) start >? 0
                  then rangeKeys fuel (Left n) start end_ keys
                  else ret keys);
          keys ← ret (if (Compare (K k) start >=? 0) && (Compare (K k) end_ <=? 0)
                      then keys ++ [Node_Key n]
                      else keys);
          if Compare (K k) end_ <? 0
          then rangeKeys fuel (Right n) start end_ keys
          else ret keys
      end
  end.

(** [func (bst *BST) Range(start, end []byte) []*Key] *)
Definition Range (start end_ : bytes) : M (list ptr) :=
  root ← loadRoot;
  with_budget (λ n, rangeKeys n root start end_ []).

(** [func (bst *BST) greaterThan(node *Node, key []byte, keys *[]*Key)] *)
Fixpoint greaterThan (fuel : nat) (node : ptr) (key : bytes)
    (keys : list ptr) : M (list ptr) :=
  match fuel with
  | O => timeout
  | S fuel =>
      match node with
      | None => ret keys
      | Some _ =>
          n ← loadNode node;
          k ← loadKey (Node_Key n);
          if Compare (K k) key >? 0 then
            keys ← greaterThan fuel (Left n) key keys;
            keys ← ret (keys ++ [Node_Key n]);
            greaterThan fuel (Right n) key keys
          else
            greaterThan fuel (Right n) key keys
      end
  end.

(** [func (bst *BST) GreaterThan(key []byte) []*Key] *)
Definition GreaterThan (key : bytes) : M (list ptr) :=
  root ← loadRoot;
  with_budget (λ n, greaterThan n root key []).

(** [func (bst *BST) greaterThanEq(node *Node, key []byte, keys *[]*Key)] *)
Fixpoint greaterThanEq (fuel : nat) (node : ptr) (key : bytes)
    (keys : list ptr) : M (list ptr) :=
  match fuel with
  | O => timeout
  | S fuel =>
      match node with
      | None => ret keys
      | Some _ =>
          n ← loadNode node;
          k ← loadKey (Node_Key n);
          if Compare (K k) key >=? 0 then
            keys ← ret (keys ++ [Node_Key n]);
            keys ← greaterThanEq fuel (Left n) key keys;
            greaterThanEq fuel (Right n) key keys
          else
            greaterThanEq fuel (Right n) key keys
      end
  end.

(** [func (bst *BST) GreaterThanEq(key []byte) []*Key] *)
Definition GreaterThanEq (key : bytes) : M (list ptr) :=
  root ← loadRoot;
  with_budget (λ n, greaterThanEq n root key []).

(** [func (bst *BST) lessThan(node *Node, key []byte, keys *[]*Key)] *)
Fixpoint lessThan (fuel : nat) (node : ptr) (key : bytes)
    (keys : list ptr) : M (list ptr) :=
  match fuel with
  | O => timeout
  | S fuel =>
      match node with
      | None => ret keys
      | Some _ =>
          n ← loadNode node;
          k ← loadKey (Node_Key n);
          if Compare (K k) key <? 0 then
            keys ← ret (keys ++ [Node_Key n]);
            keys ← lessThan fuel (Left n) key keys;
            lessThan fuel (Right n) key keys
          else
            lessThan fuel (Left n) key keys
      end
  end.

(** [func (bst *BST) LessThan(key []byte) []*Key] *)
Definition LessThan (key : bytes) : M (list ptr) :=
  root ← loadRoot;
  with_budget (λ n, lessThan n root key []).

(** [func (bst *BST) lessThanEq(node *Node, key []byte, keys *[]*Key)] *)
Fixpoint lessThanEq (fuel : nat) (node : ptr) (key : bytes)
    (keys : list ptr) : M (list ptr) :=
  match fuel with
  | O => timeout
  | S fuel =>
      match node with
      | None => ret keys
      | Some _ =>
          n ← loadNode node;
          k ← loadKey (Node_Key n);
          if Compare (K k) key <=? 0 then
            keys ← ret (keys ++ [Node_Key n]);
            keys ← lessThanEq fuel (Left n) key keys;
            lessThanEq fuel (Right n) key keys
          else
            lessThanEq fuel (Left n) key keys
      end
  end.

(** [func (bst *BST) LessThanEq(key []byte) []*Key] *)
Definition LessThanEq (key : bytes) : M (list ptr) :=
  root ← loadRoot;
  with_budget (λ n, lessThanEq n root key []).

(** [func (bst *BST) nGet(node *Node, key []byte, keys *[]*Key)] *)
Fixpoint nGet (fuel : nat) (node : ptr) (key : bytes)
    (keys : list ptr) : M (list ptr) :=
  match fuel with
  | O => timeout
  | S fuel =>
      match node with
      | None => ret keys
      | Some _ =>
          n ← loadNode node;
          k ← loadKey (Node_Key n);
          keys ← nGet fuel (Left n) key keys;
          keys ← ret (if negb (Compare (K k) key =? 0)
                      then keys ++ [Node_Key n]
                      else keys);
          nGet fuel (Right n) key keys
      end
  end.

(** [func (bst *BST) NGet(key []byte) []*Key] *)
Definition NGet (key : bytes) : M (list ptr) :=
  root ← loadRoot;
  with_budget (λ n, nGet n root key []).

(** A client that calls the three mutating operations one after another. *)
Inductive op : Type :=
| OpPut (key value : bytes)
| OpDelete (key : bytes)
| OpRemove (key value : bytes).

Definition step (o : op) : M unit :=
  match o with
  | OpPut key value => Put key value
  | OpDelete key => Delete key
  | OpRemove key value => Remove key value
  end.

Fixpoint run (ops : list op) : M unit :=
  match ops with
  | [] => ret tt
  | o :: ops => step o;; run ops
  end.

(** ** The tree that the memory holds

    The linked structure below a pointer, read as a value: for every node its
    address [a], the address [q] of its [Key] object and the contents [k] of
    that object.  Addresses are kept so that the identity of nodes and of key
    records can be stated. *)

Inductive tree : Type :=
| Leaf
| Br (l : tree) (a q : positive) (k : Key) (r : tree).

(** [rep s p t]: in memory [s], pointer [p] is the root of the (finite,
    hence acyclic) linked structure [t]. *)
Inductive rep (s : State) : ptr → tree → Prop :=
| rep_nil : rep s None Leaf
| rep_node a n q k l r :
    node_at s !! a = Some n →
    Node_Key n = Some q →
    key_at s !! q = Some k →
    rep s (Left n) l →
    rep s (Right n) r →
    rep s (Some a) (Br l a q k r).

(** The pointer that leads to a tree. *)
Definition root_of (t : tree) : ptr :=
  match t with
  | Leaf => None
  | Br _ a _ _ _ => Some a
  end.

Fixpoint height (t : tree) : nat :=
  match t with
  | Leaf => O
  | Br l _ _ _ r => S (Nat.max (height l) (height r))
  end.

(** Node addresses, left to right. *)
Fixpoint nlocs (t : tree) : list positive :=
  match t with
  | Leaf => []
  | Br l a _ _ r => nlocs l ++ a :: nlocs r
  end.

(** The key records (address and contents) in in-order: left, self, right. *)
Fixpoint entries (t : tree) : list (positive * Key) :=
  match t with
  | Leaf => []
  | Br l _ q k r => entries l ++ (q, k) :: entries r
  end.

(** The key records in pre-order: self, left, right. *)
Fixpoint preorder (t : tree) : list (positive * Key) :=
  match t with
  | Leaf => []
  | Br l _ q k r => (q, k) :: preorder l ++ preorder r
  end.

Definition klocs (t : tree) : list positive := (entries t).*1.

(** The sort keys, left to right. *)
Definition tkeys (t : tree) : list bytes := (λ e : positive * Key, K e.2) <$> entries t.

(** The slice of [*Key] pointers for a list of key records. *)
Definition kptrs (es : list (positive * Key)) : list ptr :=
  (λ e : positive * Key, Some e.1) <$> es.

(** The BST property: at every node, every key of the left subtree compares
    less than the node's key and every key of the right subtree compares
    greater. *)
Fixpoint bst (t : tree) : Prop :=
  match t with
  | Leaf => True
  | Br l _ _ k r =>
      Forall (λ x, Compare x (K k) < 0) (tkeys l) ∧
      Forall (λ x, Compare x (K k) > 0) (tkeys r) ∧
      bst l ∧ bst r
  end.

(** A list of sort keys is strictly ascending. *)
Fixpoint ascending (ks : list bytes) : Prop :=
  match ks with
  | [] => True
  | x :: ks' => Forall (λ y, Compare x y < 0) ks' ∧ ascending ks'
  end.

(** [subtree t' t]: [t'] sits somewhere in [t]. *)
Inductive subtree (t' : tree) : tree → Prop :=
| subtree_here : subtree t' t'
| subtree_left l a q k r : subtree t' l → subtree t' (Br l a q k r)
| subtree_right l a q k r : subtree t' r → subtree t' (Br l a q k r).

(** The tree after a successful [put] of a new node [a] whose key record
    [q] holds [key] and the single value [value]. *)
Fixpoint tree_put (t : tree) (a q : positive) (key value : bytes) : tree :=
  match t with
  | Leaf => Br Leaf a q (mkKey key [value]) Leaf
  | Br l b qb k r =>
      if Compare key (K k) <? 0 then Br (tree_put l a q key value) b qb k r
      else if Compare key (K k) >? 0 then Br l b qb k (tree_put r a q key value)
      else Br l b qb (mkKey (K k) (Values k ++ [value])) r
  end.

(** The node [minValueNode] stops at: the last one on the left spine. *)
Fixpoint leftmost (t : tree) : option (positive * positive * Key) :=
  match t with
  | Leaf => None
  | Br l a q k _ =>
      match l with
      | Leaf => Some (a, q, k)
      | Br _ _ _ _ _ => leftmost l
      end
  end.

(** The tree [delete] returns. *)
Fixpoint tree_delete (t : tree) (key : bytes) : tree :=
  match t with
  | Leaf => Leaf
  | Br l a q k r =>
      if Compare key (K k) <? 0 then Br (tree_delete l key) a q k r
      else if Compare key (K k) >? 0 then Br l a q k (tree_delete r key)
      else
        match l, r with
        | Leaf, _ => r
        | Br _ _ _ _ _, Leaf => l
        | Br _ _ _ _ _, Br _ _ _ _ _ =>
            match leftmost r with
            | Some (_, qm, km) => Br l a qm km (tree_delete r (K km))
            | None => t
            end
        end
  end.

(** The tree after the key record at address [q] has been overwritten. *)
Fixpoint tree_store (t : tree) (q : positive) (k' : Key) : tree :=
  match t with
  | Leaf => Leaf
  | Br l a q0 k r =>
      Br (tree_store l q k') a q0 (if decide (q0 = q) then k' else k)
         (tree_store r q k')
  end.

(** Shape, node addresses, key addresses and sort keys; the values are left
    out. *)
Fixpoint links (t : tree) : list (option (positive * positive * bytes)) :=
  match t with
  | Leaf => [None]
  | Br l a q k r => Some (a, q, K k) :: links l ++ links r
  end.

(** What the contract of [Remove] says: drop the first element equal to
    [value], keep the rest in order. *)
Fixpoint remove_first (value : bytes) (values : list bytes) : list bytes :=
  match values with
  | [] => []
  | v :: values' =>
      if decide (v = value) then values' else v :: remove_first value values'
  end.

(** [Get(key).Values], when [Get] finds the key. *)
Definition values_of (key : bytes) (s : State) : option (list bytes) :=
  match Get key s with
  | Ret (Some q) _ => Values <$> key_at s !! q
  | _ => None
  end.

(** The predicates of the scans, on a key record. *)
Definition in_range (lo hi : bytes) (e : positive * Key) : Prop :=
  0 ≤ Compare (K e.2) lo ∧ Compare (K e.2) hi ≤ 0.
Definition gt_key (x : bytes) (e : positive * Key) : Prop := 0 < Compare (K e.2) x.
Definition ge_key (x : bytes) (e : positive * Key) : Prop := 0 ≤ Compare (K e.2) x.
Definition lt_key (x : bytes) (e : positive * Key) : Prop := Compare (K e.2) x < 0.
Definition le_key (x : bytes) (e : positive * Key) : Prop := Compare (K e.2) x ≤ 0.
Definition ne_key (x : bytes) (e : positive * Key) : Prop := K e.2 ≠ x.

#[global] Instance in_range_dec lo hi e : Decision (in_range lo hi e).
Proof. unfold in_range. apply _. Defined.
#[global] Instance gt_key_dec x e : Decision (gt_key x e).
Proof. unfold gt_key. apply _. Defined.
#[global] Instance ge_key_dec x e : Decision (ge_key x e).
Proof. unfold ge_key. apply _. Defined.
#[global] Instance lt_key_dec x e : Decision (lt_key x e).
Proof. unfold lt_key. apply _. Defined.
#[global] Instance le_key_dec x e : Decision (le_key x e).
Proof. unfold le_key. apply _. Defined.
#[global] Instance ne_key_dec x e : Decision (ne_key x e).
Proof. unfold ne_key. apply _. Defined.

(** [holds s t]: the memory reachable from the root of the [BST] is the
    tree [t], and [t] has the BST property. *)
Definition holds (s : State) (t : tree) : Prop := rep s (Root s) t ∧ bst t.

(** The key record and the node that [Put] allocates before it searches. *)
Definition new_key_addr (s : State) : positive := fresh (dom (key_at s)).
Definition new_node_addr (s : State) : positive := fresh (dom (node_at s)).
Definition with_new_node (key value : bytes) (s : State) : State :=
  mkState (Root s)
    (<[new_node_addr s := mkNode (Some (new_key_addr s)) None None]> (node_at s))
    (<[new_key_addr s := mkKey key [value]]> (key_at s)).

(** The sort keys of the key records a scan returned, in the order of the
    returned slice. *)
Definition scan_keys (r : result (list ptr)) : list bytes :=
  match r with
  | Ret ps s => omap (λ p : ptr, p ≫= λ q, K <$> key_at s !! q) ps
  | _ => []
  end.

(** ** Example memories, built by the package itself *)

Definition state_after (ops : list op) : State :=
  match run ops New with
  | Ret _ s => s
  | _ => New
  end.

(** "b" is put first and becomes the root, "a" its left child. *)
Definition ops_ba : list op :=
  [OpPut (bytes_of "b") (bytes_of "1"); OpPut (bytes_of "a") (bytes_of "2")].
Definition mem_ba : State := state_after ops_ba.
Definition tree_ba : tree :=
  Br (Br Leaf 2 2 (mkKey (bytes_of "a") [bytes_of "2"]) Leaf)
     1 1 (mkKey (bytes_of "b") [bytes_of "1"])
     Leaf.

(** The root "b" has two children, "a" and "d"; "c" is the left child of
    "d" and so the in-order successor of "b". *)
Definition ops_badc : list op :=
  [OpPut (bytes_of "b") (bytes_of "1"); OpPut (bytes_of "a") (bytes_of "2");
   OpPut (bytes_of "d") (bytes_of "3"); OpPut (bytes_of "c") (bytes_of "4")].
Definition mem_badc : State := state_after ops_badc.
Definition tree_badc : tree :=
  Br (Br Leaf 2 2 (mkKey (bytes_of "a") [bytes_of "2"]) Leaf)
     1 1 (mkKey (bytes_of "b") [bytes_of "1"])
     (Br (Br Leaf 4 4 (mkKey (bytes_of "c") [bytes_of "4"]) Leaf)
         3 3 (mkKey (bytes_of "d") [bytes_of "3"])
         Leaf).

(** The key "k" already has the value "a". *)
Definition ops_k : list op := [OpPut (bytes_of "k") (bytes_of "a")].
Definition mem_k : State := state_after ops_k.

(** ** The debug dump *)

(** [type NodePos int] with the constants [Left = iota], [Right], [Root]. *)
Definition NodePos : Type := Z.
Definition Pos_Left : NodePos := 0.
Definition Pos_Right : NodePos := 1.
Definition Pos_Root : NodePos := 2.

(** The builtin [println(a, b)] for two strings: the operands separated by
    a space, then a newline.  The bytes of one call are one element of the
    output stream. *)
Definition println (a b : bytes) : bytes := a ++ [" "%byte] ++ b ++ [x0a].

(** [func (bst *BST) print(node *Node, pos NodePos)]; [out] is what has been
    written so far. [node.Key.K] is read inside the case that prints it. *)
Fixpoint print (fuel : nat) (node : ptr) (pos : NodePos) (out : list bytes)
  : M (list bytes) :=
  match fuel with
  | O => timeout
  | S fuel =>
      match node with
      | None => ret out
      | Some _ =>
          n ← loadNode node;
          out ← print fuel (Left n) Pos_Left out;
          out ← (if pos =? Pos_Left then
                   k ← loadKey (Node_Key n);
                   ret (out ++ [println (bytes_of "L: ") (K k)])
                 else if pos =? Pos_Right then
                   k ← loadKey (Node_Key n);
                   ret (out ++ [println (bytes_of "R: ") (K k)])
                 else if pos =? Pos_Root then
                   k ← loadKey (Node_Key n);
                   ret (out ++ [println (bytes_of "ROOT: ") (K k)])
                 else ret out);
          print fuel (Right n) Pos_Right out
      end
  end.

(** [func (bst *BST) Print()] *)
Definition Print : M (list bytes) :=
  root ← loadRoot;
  with_budget (λ n, print n root Pos_Root []).

(** The tags of the lines of a dump, left to right: a node is tagged by the
    slot it hangs in. *)
Fixpoint print_tags (t : tree) (tag : bytes) : list bytes :=
  match t with
  | Leaf => []
  | Br l _ _ _ r =>
      print_tags l (bytes_of "L: ") ++ tag :: print_tags r (bytes_of "R: ")
  end.

(** ** Further vocabulary for the properties below *)

(** What a call returned, the memory left aside. *)
Definition returned {A} (r : result A) : option A :=
  match r with
  | Ret a _ => Some a
  | _ => None
  end.

(** No node has a left child: the tree is a list hanging to the right. *)
Fixpoint right_spine (t : tree) : Prop :=
  match t with
  | Leaf => True
  | Br l _ _ _ r => l = Leaf ∧ right_spine r
  end.

(** [Put] of each pair, in order. *)
Definition puts (kvs : list (bytes * bytes)) : list op :=
  (λ kv : bytes * bytes, OpPut kv.1 kv.2) <$> kvs.

(** [Delete] of each key, in order. *)
Definition deletes (ks : list bytes) : list op := OpDelete <$> ks.

(** The answers of every read operation, the memory left aside: [Get] of
    every key and every scan for every argument. *)
Definition same_answers (s s' : State) : Prop :=
  (∀ x, returned (Get x s') = returned (Get x s)) ∧
  (∀ lo hi, returned (Range lo hi s') = returned (Range lo hi s)) ∧
  (∀ x, returned (GreaterThan x s') = returned (GreaterThan x s)) ∧
  (∀ x, returned (GreaterThanEq x s') = returned (GreaterThanEq x s)) ∧
  (∀ x, returned (LessThan x s') = returned (LessThan x s)) ∧
  (∀ x, returned (LessThanEq x s') = returned (LessThanEq x s)) ∧
  (∀ x, returned (NGet x s') = returned (NGet x s)).

(** "a", "b", "c" put in ascending order: every node hangs to the right. *)
Definition ops_abc : list op :=
  puts [(bytes_of "a", bytes_of "1"); (bytes_of "b", bytes_of "2");
        (bytes_of "c", bytes_of "3")].
Definition mem_abc : State := state_after ops_abc.
Definition tree_abc : tree :=
  Br Leaf 1 1 (mkKey (bytes_of "a") [bytes_of "1"])
     (Br Leaf 2 2 (mkKey (bytes_of "b") [bytes_of "2"])
         (Br Leaf 3 3 (mkKey (bytes_of "c") [bytes_of "3"]) Leaf)).

(** * Proofs *)

(** ** [bytes.Compare] is a strict total order *)

Lemma Compare_range a b : Compare a b = -1 ∨ Compare a b = 0 ∨ Compare a b = 1.
Proof.
  revert b; induction a as [|x a IH]; intros [|y b]; simpl; auto.
  destruct (N.compare _ _); auto.
Qed.

Lemma Compare_refl a : Compare a a = 0.
Proof. induction a as [|x a IH]; simpl; [done|]. by rewrite N.compare_refl. Qed.

Lemma Compare_eq a b : Compare a b = 0 → a = b.
Proof.
  revert b; induction a as [|x a IH]; intros [|y b]; simpl; try done.
  destruct (N.compare _ _) eqn:E; try done.
  intros H. apply N.compare_eq in E.
  assert (x = y) as ->.
  { pose proof (Byte.of_to_N x) as Hx. rewrite E, Byte.of_to_N in Hx. congruence. }
  f_equal; auto.
Qed.

Lemma Compare_antisym a b : Compare b a = - Compare a b.
Proof.
  revert b; induction a as [|x a IH]; intros [|y b]; simpl; try done.
  rewrite (N.compare_antisym (Byte.to_N x)).
  destruct (N.compare (Byte.to_N x) (Byte.to_N y)); simpl; auto.
Qed.

Lemma Compare_lt_trans a b c :
  Compare a b < 0 → Compare b c < 0 → Compare a c < 0.
Proof.
  revert b c; induction a as [|x a IH]; intros [|y b] [|z c]; simpl; try lia.
  destruct (N.compare (Byte.to_N x) (Byte.to_N y)) eqn:E1;
    destruct (N.compare (Byte.to_N y) (Byte.to_N z)) eqn:E2; try lia.
  - apply N.compare_eq in E1, E2. rewrite E1, E2, N.compare_refl. eauto.
  - apply N.compare_eq in E1. rewrite E1, E2. lia.
  - apply N.compare_eq in E2. rewrite <- E2, E1. lia.
  - rewrite N.compare_lt_iff in E1, E2.
    assert (Byte.to_N x < Byte.to_N z)%N as H by lia.
    rewrite <- N.compare_lt_iff in H. rewrite H. lia.
Qed.

Lemma Compare_gt_lt a b : Compare a b > 0 ↔ Compare b a < 0.
Proof. rewrite (Compare_antisym a b). lia. Qed.

Lemma Compare_lt_irrefl a : ¬ Compare a a < 0.
Proof. rewrite Compare_refl. lia. Qed.

(** ** Running the monad *)

Lemma bind_run {A B} (m : M A) (k : A → M B) s :
  (m ≫= k) s = match m s with
               | Ret a s' => k a s'
               | Panic => Panic
               | Timeout => Timeout
               end.
Proof. reflexivity. Qed.

Lemma ret_run {A} (a : A) s : ret a s = Ret a s.
Proof. reflexivity. Qed.

Lemma loadNode_run s a n :
  node_at s !! a = Some n → loadNode (Some a) s = Ret n s.
Proof. intros H. unfold loadNode. by rewrite H. Qed.

Lemma loadKey_run s q k :
  key_at s !! q = Some k → loadKey (Some q) s = Ret k s.
Proof. intros H. unfold loadKey. by rewrite H. Qed.

Lemma storeNode_run s a n f :
  node_at s !! a = Some n →
  storeNode (Some a) f s = Ret tt (mkState (Root s) (<[a := f n]> (node_at s)) (key_at s)).
Proof. intros H. unfold storeNode. by rewrite H. Qed.

Lemma storeKey_run s q k f :
  key_at s !! q = Some k →
  storeKey (Some q) f s = Ret tt (mkState (Root s) (node_at s) (<[q := f k]> (key_at s))).
Proof. intros H. unfold storeKey. by rewrite H. Qed.

Lemma State_eta s : mkState (Root s) (node_at s) (key_at s) = s.
Proof. by destruct s. Qed.

Lemma Node_eta n : mkNode (Node_Key n) (Left n) (Right n) = n.
Proof. by destruct n. Qed.

Lemma Key_eta k : mkKey (K k) (Values k) = k.
Proof. by destruct k. Qed.

(** ** The tree in memory *)

Lemma tkeys_Br l a q k r : tkeys (Br l a q k r) = tkeys l ++ K k :: tkeys r.
Proof. unfold tkeys. simpl. by rewrite fmap_app. Qed.

Lemma klocs_Br l a q k r : klocs (Br l a q k r) = klocs l ++ q :: klocs r.
Proof. unfold klocs. simpl. by rewrite fmap_app. Qed.

Lemma elem_of_tkeys t x : x ∈ tkeys t ↔ ∃ q k, (q, k) ∈ entries t ∧ K k = x.
Proof.
  unfold tkeys. rewrite list_elem_of_fmap. split.
  - intros [[q k] [-> H]]. eauto.
  - intros (q & k & H & <-). by exists (q, k).
Qed.

Lemma elem_of_klocs t q : q ∈ klocs t ↔ ∃ k, (q, k) ∈ entries t.
Proof.
  unfold klocs. rewrite list_elem_of_fmap. split.
  - intros [[q' k] [-> H]]. eauto.
  - intros [k H]. by exists (q, k).
Qed.

(** Memory that agrees on the nodes and key records of [t] holds [t] too. *)
Lemma rep_frame s s' p t :
  rep s p t →
  (∀ a, a ∈ nlocs t → node_at s' !! a = node_at s !! a) →
  (∀ q, q ∈ klocs t → key_at s' !! q = key_at s !! q) →
  rep s' p t.
Proof.
  induction 1 as [|a n q k l r Hn Hq Hk Hl IHl Hr IHr]; intros HN HK.
  - constructor.
  - simpl in HN. rewrite klocs_Br in HK.
    econstructor; eauto.
    + rewrite HN; [done|]. set_solver.
    + rewrite HK; [done|]. set_solver.
    + apply IHl; intros; [apply HN | apply HK]; set_solver.
    + apply IHr; intros; [apply HN | apply HK]; set_solver.
Qed.

(** The memory determines the tree. *)
Lemma rep_inj s p t t' : rep s p t → rep s p t' → t = t'.
Proof.
  intros H; revert t'.
  induction H as [|a n q k l r Hn Hq Hk Hl IHl Hr IHr]; intros t' H'.
  - by inversion H'.
  - inversion H' as [|a' n' q' k' l' r' Hn' Hq' Hk' Hl' Hr']; subst.
    rewrite Hn in Hn'. injection Hn' as <-.
    rewrite Hq in Hq'. injection Hq' as <-.
    rewrite Hk in Hk'. injection Hk' as <-.
    f_equal; eauto.
Qed.

Lemma rep_node_lookup s p t a :
  rep s p t → a ∈ nlocs t →
  ∃ n q k, node_at s !! a = Some n ∧ Node_Key n = Some q ∧
           key_at s !! q = Some k ∧ (q, k) ∈ entries t.
Proof.
  induction 1 as [|b n q k l r Hn Hq Hk Hl IHl Hr IHr]; simpl; intros Ha.
  - by apply elem_of_nil in Ha.
  - apply elem_of_app in Ha as [Ha|Ha].
    + destruct (IHl Ha) as (n' & q' & k' & ? & ? & ? & ?).
      exists n', q', k'. repeat split; auto. set_solver.
    + apply elem_of_cons in Ha as [->|Ha].
      * exists n, q, k. repeat split; auto. set_solver.
      * destruct (IHr Ha) as (n' & q' & k' & ? & ? & ? & ?).
        exists n', q', k'. repeat split; auto. set_solver.
Qed.

Lemma rep_entry_lookup s p t q k :
  rep s p t → (q, k) ∈ entries t → key_at s !! q = Some k.
Proof.
  induction 1 as [|b n q' k' l r Hn Hq Hk Hl IHl Hr IHr]; simpl; intros Hin.
  - by apply elem_of_nil in Hin.
  - apply elem_of_app in Hin as [Hin|Hin]; [auto|].
    apply elem_of_cons in Hin as [Heq|Hin]; [|auto].
    by injection Heq as -> ->.
Qed.

Lemma rep_subtree s p t t' :
  rep s p t → subtree t' t → ∃ p', rep s p' t'.
Proof.
  intros H Hsub; revert p H.
  induction Hsub as [|l a q k r Hsub IH|l a q k r Hsub IH]; intros p H.
  - eauto.
  - inversion H; subst; eauto.
  - inversion H; subst; eauto.
Qed.

Lemma subtree_entries t' t e : subtree t' t → e ∈ entries t' → e ∈ entries t.
Proof. induction 1; simpl; set_solver. Qed.

Lemma subtree_nlocs t' t a : subtree t' t → a ∈ nlocs t' → a ∈ nlocs t.
Proof. induction 1; simpl; set_solver. Qed.

(** In a search tree a key occurs once, so key records and nodes do. *)
Lemma bst_keys_apart l a q k r x :
  bst (Br l a q k r) → x ∈ tkeys l → x ∈ tkeys r → False.
Proof.
  simpl. intros (Hl & Hr & _) Hxl Hxr.
  rewrite Forall_forall in Hl, Hr.
  specialize (Hl x Hxl). specialize (Hr x Hxr). lia.
Qed.

Lemma rep_bst_NoDup_klocs s p t : rep s p t → bst t → NoDup (klocs t).
Proof.
  induction 1 as [|a n q k l r Hn Hq Hk Hl IHl Hr IHr]; intros Hb.
  - constructor.
  - rewrite klocs_Br. pose proof Hb as (Fl & Fr & Bl & Br').
    rewrite Forall_forall in Fl, Fr.
    apply NoDup_app; split; [auto|]. split.
    + intros y Hy Hy'. apply elem_of_klocs in Hy as [ky Hy].
      pose proof (rep_entry_lookup _ _ _ _ _ Hl Hy) as Hky.
      apply elem_of_cons in Hy' as [->|Hy'].
      * rewrite Hk in Hky. injection Hky as <-.
        assert (Compare (K k) (K k) < 0) as Hlt
          by (apply Fl, elem_of_tkeys; eauto).
        by apply Compare_lt_irrefl in Hlt.
      * apply elem_of_klocs in Hy' as [ky' Hy'].
        pose proof (rep_entry_lookup _ _ _ _ _ Hr Hy') as Hky'.
        rewrite Hky in Hky'. injection Hky' as <-.
        eapply (bst_keys_apart l a q k r (K ky)); eauto;
          apply elem_of_tkeys; eauto.
    + apply NoDup_cons; split; [|auto].
      intros Hy. apply elem_of_klocs in Hy as [ky Hy].
      pose proof (rep_entry_lookup _ _ _ _ _ Hr Hy) as Hky.
      rewrite Hk in Hky. injection Hky as <-.
      assert (Compare (K k) (K k) > 0) as Hgt
        by (apply Fr, elem_of_tkeys; eauto).
      rewrite Compare_refl in Hgt. lia.
Qed.

Lemma rep_bst_NoDup_nlocs s p t : rep s p t → bst t → NoDup (nlocs t).
Proof.
  induction 1 as [|a n q k l r Hn Hq Hk Hl IHl Hr IHr]; intros Hb.
  - constructor.
  - simpl. pose proof Hb as (Fl & Fr & Bl & Br').
    rewrite Forall_forall in Fl, Fr.
    assert (∀ t' p' x, rep s p' t' → x ∈ nlocs t' →
              node_at s !! x = Some n → K k ∈ tkeys t') as Hsame.
    { intros t' p' x Hrep Hx Hnx.
      destruct (rep_node_lookup _ _ _ _ Hrep Hx) as (n' & q' & k' & E1 & E2 & E3 & E4).
      rewrite Hnx in E1. injection E1 as <-.
      rewrite Hq in E2. injection E2 as <-.
      rewrite Hk in E3. injection E3 as <-.
      apply elem_of_tkeys; eauto. }
    apply NoDup_app; split; [auto|]. split.
    + intros y Hy Hy'.
      destruct (rep_node_lookup _ _ _ _ Hl Hy) as (ny & qy & ky & E1 & E2 & E3 & E4).
      apply elem_of_cons in Hy' as [->|Hy'].
      * specialize (Hsame _ _ _ Hl Hy Hn). apply Fl in Hsame.
        by apply Compare_lt_irrefl in Hsame.
      * destruct (rep_node_lookup _ _ _ _ Hr Hy') as (ny' & qy' & ky' & F1 & F2 & F3 & F4).
        rewrite E1 in F1. injection F1 as <-.
        rewrite E2 in F2. injection F2 as <-.
        rewrite E3 in F3. injection F3 as <-.
        eapply (bst_keys_apart l a q k r (K ky)); eauto;
          apply elem_of_tkeys; eauto.
    + apply NoDup_cons; split; [|auto].
      intros Hy. specialize (Hsame _ _ _ Hr Hy Hn). apply Fr in Hsame.
      rewrite Compare_refl in Hsame. lia.
Qed.

(** *** The recursion budget covers every tree in memory *)

Lemma height_le_nodes t : (height t ≤ length (nlocs t))%nat.
Proof.
  induction t as [|l IHl a q k r IHr]; simpl; [lia|].
  rewrite length_app. simpl. lia.
Qed.

Lemma rep_nlocs_dom s p t a : rep s p t → a ∈ nlocs t → a ∈ dom (node_at s).
Proof.
  intros H Ha. destruct (rep_node_lookup _ _ _ _ H Ha) as (n & _ & _ & Hn & _).
  apply elem_of_dom. eauto.
Qed.

Lemma rep_budget s p t : rep s p t → NoDup (nlocs t) → (height t < budget s)%nat.
Proof.
  intros H Hnd. unfold budget.
  pose proof (height_le_nodes t).
  assert (length (nlocs t) ≤ size (node_at s))%nat; [|lia].
  rewrite <- size_dom. unfold size, set_size. simpl.
  apply submseteq_length, NoDup_submseteq; [done|].
  intros x Hx. apply elem_of_elements. eapply rep_nlocs_dom; eauto.
Qed.

(** ** Order facts used by the pruning arguments *)

Lemma Compare_lt_le_trans a b c :
  Compare a b < 0 → Compare b c ≤ 0 → Compare a c < 0.
Proof.
  intros H1 H2. destruct (Compare_range b c) as [E|[E|E]]; try lia.
  - eapply Compare_lt_trans; eauto. lia.
  - apply Compare_eq in E. by subst.
Qed.

Lemma Compare_le_lt_trans a b c :
  Compare a b ≤ 0 → Compare b c < 0 → Compare a c < 0.
Proof.
  intros H1 H2. destruct (Compare_range a b) as [E|[E|E]]; try lia.
  - eapply Compare_lt_trans; eauto. lia.
  - apply Compare_eq in E. by subst.
Qed.

Lemma Compare_gt_ge_trans a b c :
  Compare a b > 0 → 0 ≤ Compare b c → 0 < Compare a c.
Proof.
  intros H1 H2. rewrite (Compare_antisym c a).
  assert (Compare c a < 0); [|lia].
  apply Compare_le_lt_trans with b.
  - rewrite (Compare_antisym b c). lia.
  - by apply Compare_gt_lt.
Qed.

Lemma filter_none {A} (P : A → Prop) `{∀ x, Decision (P x)} (l : list A) :
  (∀ x, x ∈ l → ¬ P x) → filter P l = [].
Proof.
  induction l as [|x l IH]; intros Hl; [done|].
  rewrite filter_cons_False by (apply Hl; left).
  apply IH. intros y Hy. apply Hl. by right.
Qed.

Lemma kptrs_app es es' : kptrs (es ++ es') = kptrs es ++ kptrs es'.
Proof. unfold kptrs. apply fmap_app. Qed.

Lemma bst_left_lt l a q k r e :
  bst (Br l a q k r) → e ∈ entries l → Compare (K e.2) (K k) < 0.
Proof.
  simpl. intros (Hl & _) He. rewrite Forall_forall in Hl.
  apply Hl, elem_of_tkeys. destruct e; eauto.
Qed.

Lemma bst_right_gt l a q k r e :
  bst (Br l a q k r) → e ∈ entries r → Compare (K e.2) (K k) > 0.
Proof.
  simpl. intros (_ & Hr & _) He. rewrite Forall_forall in Hr.
  apply Hr, elem_of_tkeys. destruct e; eauto.
Qed.

Lemma bst_left l a q k r : bst (Br l a q k r) → bst l.
Proof. simpl; tauto. Qed.

Lemma bst_right l a q k r : bst (Br l a q k r) → bst r.
Proof. simpl; tauto. Qed.

#[local] Hint Resolve bst_left bst_right : core.

(** One step of a helper at a node that is in memory. *)
Ltac load_node Hn Hq Hk :=
  rewrite bind_run, (loadNode_run _ _ _ Hn), bind_run, Hq, (loadKey_run _ _ _ Hk).

Ltac fuel_pos fuel Hf :=
  destruct fuel as [|fuel]; [simpl in Hf; lia|]; simpl in Hf.

Ltac fuel_succ fuel Hf := fuel_pos fuel Hf; simpl.

(** ** Get *)

Lemma get_found s p t fuel q k :
  rep s p t → bst t → (height t < fuel)%nat → (q, k) ∈ entries t →
  get fuel p (K k) s = Ret (Some q) s.
Proof.
  intros H; revert fuel.
  induction H as [|a n q' k' l r Hn Hq Hk Hl IHl Hr IHr]; intros fuel Hb Hf Hin.
  - by apply elem_of_nil in Hin.
  - fuel_succ fuel Hf. load_node Hn Hq Hk.
    simpl in Hin. apply elem_of_app in Hin as [Hin|Hin].
    + pose proof (bst_left_lt _ _ _ _ _ _ Hb Hin) as Hlt. simpl in Hlt.
      destruct (Z.ltb_spec (Compare (K k) (K k')) 0); [|lia].
      apply IHl; eauto. lia.
    + apply elem_of_cons in Hin as [Heq|Hin].
      * injection Heq as -> ->. rewrite Compare_refl. simpl.
        by rewrite <- Hq.
      * pose proof (bst_right_gt _ _ _ _ _ _ Hb Hin) as Hgt. simpl in Hgt.
        destruct (Z.ltb_spec (Compare (K k) (K k')) 0); [lia|].
        destruct (Z.gtb_spec (Compare (K k) (K k')) 0); [|lia].
        apply IHr; eauto. lia.
Qed.

Lemma get_absent s p t fuel key :
  rep s p t → (height t < fuel)%nat → key ∉ tkeys t →
  get fuel p key s = Ret None s.
Proof.
  intros H; revert fuel.
  induction H as [|a n q' k' l r Hn Hq Hk Hl IHl Hr IHr]; intros fuel Hf Hin.
  - destruct fuel; [simpl in Hf; lia|]. done.
  - fuel_succ fuel Hf. load_node Hn Hq Hk.
    rewrite tkeys_Br in Hin.
    apply not_elem_of_app in Hin as [Hl' Hin].
    apply not_elem_of_cons in Hin as [Hne Hr'].
    destruct (Z.ltb_spec (Compare key (K k')) 0); [apply IHl; auto; lia|].
    destruct (Z.gtb_spec (Compare key (K k')) 0); [apply IHr; auto; lia|].
    destruct Hne. apply Compare_eq. lia.
Qed.

(** [Get] never changes memory and finds nothing but key records of the
    tree. *)
Lemma get_result s p t fuel key :
  rep s p t → (height t < fuel)%nat →
  ∃ r, get fuel p key s = Ret r s ∧
       (∀ q, r = Some q → ∃ k, (q, k) ∈ entries t ∧ K k = key) ∧
       (r = None → bst t → key ∉ tkeys t).
Proof.
  intros H; revert fuel.
  induction H as [|a n q' k' l r Hn Hq Hk Hl IHl Hr IHr]; intros fuel Hf.
  - destruct fuel; [simpl in Hf; lia|]. exists None. simpl.
    split; [done|]. split; [done|]. intros _ _. unfold tkeys. simpl. apply not_elem_of_nil.
  - fuel_succ fuel Hf. load_node Hn Hq Hk.
    destruct (Z.ltb_spec (Compare key (K k')) 0) as [Hlt|Hge].
    { destruct (IHl fuel) as (res & E & Hs & Hnone); [lia|].
      exists res. split; [done|]. split.
      - intros q Hres. destruct (Hs q Hres) as (k & ? & ?). exists k. set_solver.
      - intros Hres Hb. rewrite tkeys_Br.
        intros Hin. apply elem_of_app in Hin as [Hin|Hin]; [by apply (Hnone Hres); [simpl in Hb; tauto|]|].
        apply elem_of_cons in Hin as [->|Hin]; [by apply Compare_lt_irrefl in Hlt|].
        destruct Hb as (_ & Fr & _). rewrite Forall_forall in Fr.
        specialize (Fr _ Hin). lia. }
    destruct (Z.gtb_spec (Compare key (K k')) 0) as [Hgt|Hle].
    { destruct (IHr fuel) as (res & E & Hs & Hnone); [lia|].
      exists res. split; [done|]. split.
      - intros q Hres. destruct (Hs q Hres) as (k & ? & ?). exists k. set_solver.
      - intros Hres Hb. rewrite tkeys_Br.
        intros Hin. apply elem_of_app in Hin as [Hin|Hin].
        + destruct Hb as (Fl & _). rewrite Forall_forall in Fl.
          specialize (Fl _ Hin). lia.
        + apply elem_of_cons in Hin as [->|Hin]; [rewrite Compare_refl in Hgt; lia|].
          by apply (Hnone Hres); [simpl in Hb; tauto|]. }
    exists (Some q'). rewrite <- Hq. split; [done|]. split; [|rewrite Hq; done].
    intros q Heq. rewrite Hq in Heq. injection Heq as <-. exists k'. split; [set_solver|].
    symmetry. apply Compare_eq. lia.
Qed.

(** ** The scans *)

Lemma entries_filter_Br (P : positive * Key → Prop) `{∀ x, Decision (P x)} l a q k r :
  filter P (entries (Br l a q k r)) =
  filter P (entries l) ++ filter P [(q, k)] ++ filter P (entries r).
Proof. simpl. by rewrite filter_app, (filter_app _ [(q, k)] (entries r)). Qed.

Lemma rangeKeys_spec s p t fuel lo hi acc :
  rep s p t → bst t → (height t < fuel)%nat →
  rangeKeys fuel p lo hi acc s =
  Ret (acc ++ kptrs (filter (in_range lo hi) (entries t))) s.
Proof.
  intros H; revert fuel acc.
  induction H as [|a n q k l r Hn Hq Hk Hl IHl Hr IHr]; intros fuel acc Hb Hf.
  - destruct fuel; [simpl in Hf; lia|]. simpl. by rewrite app_nil_r.
  - fuel_pos fuel Hf. cbn [rangeKeys]. load_node Hn Hq Hk.
    rewrite entries_filter_Br, !kptrs_app, !app_assoc.
    rewrite bind_run.
    assert ((if Compare (K k) lo >? 0
             then rangeKeys fuel (Left n) lo hi acc
             else ret acc) s =
            Ret (acc ++ kptrs (filter (in_range lo hi) (entries l))) s) as ->.
    { destruct (Z.gtb_spec (Compare (K k) lo) 0) as [Hgt|Hle].
      - apply IHl; eauto. lia.
      - rewrite filter_none; [by rewrite app_nil_r|].
        intros e He [Hlo _].
        pose proof (bst_left_lt _ _ _ _ _ _ Hb He).
        pose proof (Compare_lt_le_trans _ _ _ H Hle). lia. }
    rewrite bind_run, ret_run.
    assert ((if (Compare (K k) lo >=? 0) && (Compare (K k) hi <=? 0)
             then (acc ++ kptrs (filter (in_range lo hi) (entries l))) ++ [Some q]
             else acc ++ kptrs (filter (in_range lo hi) (entries l))) =
            (acc ++ kptrs (filter (in_range lo hi) (entries l))) ++
            kptrs (filter (in_range lo hi) [(q, k)])) as ->.
    { rewrite filter_cons, filter_nil.
      destruct (Z.geb_spec (Compare (K k) lo) 0), (Z.leb_spec (Compare (K k) hi) 0);
        simpl; case_decide as Hd; unfold in_range in Hd; simpl in Hd;
        try lia; by rewrite ?app_nil_r. }
    destruct (Z.ltb_spec (Compare (K k) hi) 0) as [Hlt|Hge].
    + apply IHr; eauto. lia.
    + rewrite (filter_none _ (entries r)); [by rewrite app_nil_r|].
      intros e He [_ Hhi].
      pose proof (bst_right_gt _ _ _ _ _ _ Hb He).
      assert (0 < Compare (K e.2) hi); [|lia].
      eapply Compare_gt_ge_trans; eauto.
Qed.

Lemma preorder_filter_Br (P : positive * Key → Prop) `{∀ x, Decision (P x)} l a q k r :
  filter P (preorder (Br l a q k r)) =
  filter P [(q, k)] ++ filter P (preorder l) ++ filter P (preorder r).
Proof.
  change (preorder (Br l a q k r)) with ([(q, k)] ++ preorder l ++ preorder r).
  by rewrite !filter_app.
Qed.

Lemma preorder_entries t : preorder t ≡ₚ entries t.
Proof.
  induction t as [|l IHl a q k r IHr]; simpl; [done|].
  rewrite IHl, IHr. by rewrite Permutation_middle.
Qed.

Lemma filter_one_True (P : positive * Key → Prop) `{∀ x, Decision (P x)} e :
  P e → filter P [e] = [e].
Proof. intros. by rewrite filter_cons_True, filter_nil. Qed.

Lemma filter_one_False (P : positive * Key → Prop) `{∀ x, Decision (P x)} e :
  ¬ P e → filter P [e] = [].
Proof. intros. by rewrite filter_cons_False, filter_nil. Qed.

Lemma greaterThan_spec s p t fuel key acc :
  rep s p t → bst t → (height t < fuel)%nat →
  greaterThan fuel p key acc s =
  Ret (acc ++ kptrs (filter (gt_key key) (entries t))) s.
Proof.
  intros H; revert fuel acc.
  induction H as [|a n q k l r Hn Hq Hk Hl IHl Hr IHr]; intros fuel acc Hb Hf.
  - destruct fuel; [simpl in Hf; lia|]. simpl. by rewrite app_nil_r.
  - fuel_pos fuel Hf. cbn [greaterThan]. load_node Hn Hq Hk.
    rewrite entries_filter_Br, !kptrs_app, !app_assoc.
    destruct (Z.gtb_spec (Compare (K k) key) 0) as [Hgt|Hle].
    + rewrite bind_run, IHl by (eauto; lia).
      rewrite bind_run, ret_run, IHr by (eauto; lia).
      by rewrite filter_one_True by (unfold gt_key; simpl; lia).
    + rewrite IHr by (eauto; lia).
      rewrite filter_one_False by (unfold gt_key; simpl; lia).
      rewrite (filter_none _ (entries l)); [by simpl; rewrite !app_nil_r|].
      intros e He Hgt. unfold gt_key in Hgt.
      pose proof (bst_left_lt _ _ _ _ _ _ Hb He) as Hlt.
      pose proof (Compare_lt_le_trans _ _ _ Hlt Hle). lia.
Qed.

Lemma nGet_spec s p t fuel key acc :
  rep s p t → (height t < fuel)%nat →
  nGet fuel p key acc s =
  Ret (acc ++ kptrs (filter (ne_key key) (entries t))) s.
Proof.
  intros H; revert fuel acc.
  induction H as [|a n q k l r Hn Hq Hk Hl IHl Hr IHr]; intros fuel acc Hf.
  - destruct fuel; [simpl in Hf; lia|]. simpl. by rewrite app_nil_r.
  - fuel_pos fuel Hf. cbn [nGet]. load_node Hn Hq Hk.
    rewrite entries_filter_Br, !kptrs_app, !app_assoc.
    rewrite bind_run, IHl by lia.
    rewrite bind_run, ret_run, IHr by lia.
    destruct (Z.eqb_spec (Compare (K k) key) 0) as [Heq|Hne]; simpl.
    + apply Compare_eq in Heq.
      rewrite filter_one_False by (unfold ne_key; simpl; tauto); simpl; by rewrite app_nil_r.
    + rewrite filter_one_True; [done|].
      unfold ne_key; simpl. intros Heq. apply Hne. rewrite Heq. apply Compare_refl.
Qed.

Lemma greaterThanEq_spec s p t fuel key acc :
  rep s p t → bst t → (height t < fuel)%nat →
  greaterThanEq fuel p key acc s =
  Ret (acc ++ kptrs (filter (ge_key key) (preorder t))) s.
Proof.
  intros H; revert fuel acc.
  induction H as [|a n q k l r Hn Hq Hk Hl IHl Hr IHr]; intros fuel acc Hb Hf.
  - destruct fuel; [simpl in Hf; lia|]. simpl. by rewrite app_nil_r.
  - fuel_pos fuel Hf. cbn [greaterThanEq]. load_node Hn Hq Hk.
    rewrite preorder_filter_Br, !kptrs_app, !app_assoc.
    destruct (Z.geb_spec (Compare (K k) key) 0) as [Hge|Hlt].
    + rewrite bind_run, ret_run, bind_run, IHl by (eauto; lia).
      rewrite IHr by (eauto; lia).
      by rewrite filter_one_True by (unfold ge_key; simpl; lia).
    + rewrite IHr by (eauto; lia).
      rewrite filter_one_False by (unfold ge_key; simpl; lia).
      rewrite (filter_none _ (preorder l)); [by simpl; rewrite !app_nil_r|].
      intros e He Hge. unfold ge_key in Hge.
      rewrite preorder_entries in He.
      pose proof (bst_left_lt _ _ _ _ _ _ Hb He) as Hl'.
      pose proof (Compare_lt_trans _ _ _ Hl' Hlt). lia.
Qed.

Lemma lessThan_spec s p t fuel key acc :
  rep s p t → bst t → (height t < fuel)%nat →
  lessThan fuel p key acc s =
  Ret (acc ++ kptrs (filter (lt_key key) (preorder t))) s.
Proof.
  intros H; revert fuel acc.
  induction H as [|a n q k l r Hn Hq Hk Hl IHl Hr IHr]; intros fuel acc Hb Hf.
  - destruct fuel; [simpl in Hf; lia|]. simpl. by rewrite app_nil_r.
  - fuel_pos fuel Hf. cbn [lessThan]. load_node Hn Hq Hk.
    rewrite preorder_filter_Br, !kptrs_app, !app_assoc.
    destruct (Z.ltb_spec (Compare (K k) key) 0) as [Hlt|Hge].
    + rewrite bind_run, ret_run, bind_run, IHl by (eauto; lia).
      rewrite IHr by (eauto; lia).
      by rewrite filter_one_True by (unfold lt_key; simpl; lia).
    + rewrite IHl by (eauto; lia).
      rewrite filter_one_False by (unfold lt_key; simpl; lia).
      rewrite (filter_none _ (preorder r)); [by simpl; rewrite !app_nil_r|].
      intros e He Hlt. unfold lt_key in Hlt.
      rewrite preorder_entries in He.
      pose proof (bst_right_gt _ _ _ _ _ _ Hb He) as Hr'.
      pose proof (Compare_gt_ge_trans _ _ _ Hr' Hge). lia.
Qed.

Lemma lessThanEq_spec s p t fuel key acc :
  rep s p t → bst t → (height t < fuel)%nat →
  lessThanEq fuel p key acc s =
  Ret (acc ++ kptrs (filter (le_key key) (preorder t))) s.
Proof.
  intros H; revert fuel acc.
  induction H as [|a n q k l r Hn Hq Hk Hl IHl Hr IHr]; intros fuel acc Hb Hf.
  - destruct fuel; [simpl in Hf; lia|]. simpl. by rewrite app_nil_r.
  - fuel_pos fuel Hf. cbn [lessThanEq]. load_node Hn Hq Hk.
    rewrite preorder_filter_Br, !kptrs_app, !app_assoc.
    destruct (Z.leb_spec (Compare (K k) key) 0) as [Hle|Hgt].
    + rewrite bind_run, ret_run, bind_run, IHl by (eauto; lia).
      rewrite IHr by (eauto; lia).
      by rewrite filter_one_True by (unfold le_key; simpl; lia).
    + rewrite IHl by (eauto; lia).
      rewrite filter_one_False by (unfold le_key; simpl; lia).
      rewrite (filter_none _ (preorder r)); [by simpl; rewrite !app_nil_r|].
      intros e He Hle. unfold le_key in Hle.
      rewrite preorder_entries in He.
      pose proof (bst_right_gt _ _ _ _ _ _ Hb He) as Hr'.
      assert (0 < Compare (K e.2) key); [|lia].
      eapply Compare_gt_ge_trans; eauto. lia.
Qed.

(** ** Overwriting one key record *)

Lemma rep_store s p t q k' :
  rep s p t →
  rep (mkState (Root s) (node_at s) (<[q := k']> (key_at s))) p (tree_store t q k').
Proof.
  induction 1 as [|a n q0 k l r Hn Hq Hk Hl IHl Hr IHr]; simpl.
  - constructor.
  - econstructor; eauto. simpl.
    rewrite lookup_insert. by repeat case_decide; subst.
Qed.

Lemma rep_root s p t root :
  rep s p t → rep (mkState root (node_at s) (key_at s)) p t.
Proof. intros H. eapply rep_frame; eauto. Qed.

Lemma tkeys_store s p t q k k' :
  rep s p t → key_at s !! q = Some k → K k' = K k →
  tkeys (tree_store t q k') = tkeys t.
Proof.
  intros H Hq HK.
  induction H as [|a n q0 k0 l r Hn Hq0 Hk0 Hl IHl Hr IHr]; [done|].
  simpl tree_store. rewrite !tkeys_Br, IHl, IHr. do 2 f_equal.
  case_decide; [|done]. subst. congruence.
Qed.

Lemma bst_store s p t q k k' :
  rep s p t → key_at s !! q = Some k → K k' = K k →
  bst t → bst (tree_store t q k').
Proof.
  intros H Hq HK.
  induction H as [|a n q0 k0 l r Hn Hq0 Hk0 Hl IHl Hr IHr]; [done|].
  intros (Fl & Fr & Bl & Br').
  assert (K (if decide (q0 = q) then k' else k0) = K k0) as HK0.
  { case_decide; [|done]. subst. congruence. }
  simpl. rewrite HK0.
  rewrite (tkeys_store s _ l q k k'), (tkeys_store s _ r q k k') by done.
  auto.
Qed.

Lemma entries_store t q k' :
  entries (tree_store t q k') =
  (λ e : positive * Key, if decide (e.1 = q) then (e.1, k') else e) <$> entries t.
Proof.
  induction t as [|l IHl a q0 k r IHr]; [done|].
  simpl. rewrite fmap_app, IHl. simpl. rewrite IHr.
  do 2 f_equal. by case_decide.
Qed.

Lemma links_store s p t q k k' :
  rep s p t → key_at s !! q = Some k → K k' = K k →
  links (tree_store t q k') = links t.
Proof.
  intros H Hq HK.
  induction H as [|a n q0 k0 l r Hn Hq0 Hk0 Hl IHl Hr IHr]; [done|].
  simpl. rewrite IHl, IHr. do 3 f_equal.
  case_decide; [|done]. subst. congruence.
Qed.

(** ** Remove *)

(** The loop of [remove] finds the first element equal to [value]. *)
Lemma remove_loop_found pre l1 l2 value :
  value ∉ l1 →
  remove_loop (pre ++ l1 ++ value :: l2) (l1 ++ value :: l2) (length pre) value =
  Some (pre ++ l1 ++ l2).
Proof.
  revert pre. induction l1 as [|x l1 IH]; intros pre Hnot; simpl.
  - rewrite Compare_refl. simpl. f_equal.
    rewrite take_app_length.
    replace (S (length pre)) with (length (pre ++ [value])) by (rewrite length_app; simpl; lia).
    by rewrite (cons_middle value pre l2), app_assoc, drop_app_length.
  - apply not_elem_of_cons in Hnot as [Hne Hnot].
    destruct (Z.eqb_spec (Compare x value) 0) as [Heq|_].
    { apply Compare_eq in Heq. congruence. }
    specialize (IH (pre ++ [x]) Hnot).
    rewrite length_app in IH. simpl in IH.
    replace (length pre + 1)%nat with (S (length pre)) in IH by lia.
    by rewrite <- !app_assoc in IH.
Qed.

Lemma remove_loop_none values rest i value :
  value ∉ rest → remove_loop values rest i value = None.
Proof.
  revert i. induction rest as [|x rest IH]; intros i Hnot; [done|]. simpl.
  apply not_elem_of_cons in Hnot as [Hne Hnot].
  destruct (Z.eqb_spec (Compare x value) 0) as [Heq|_]; [|auto].
  apply Compare_eq in Heq. congruence.
Qed.

Lemma remove_first_found l1 l2 value :
  value ∉ l1 → remove_first value (l1 ++ value :: l2) = l1 ++ l2.
Proof.
  induction l1 as [|x l1 IH]; intros Hnot; simpl.
  - by rewrite decide_True.
  - apply not_elem_of_cons in Hnot as [Hne Hnot].
    rewrite decide_False by congruence. by rewrite IH.
Qed.

Lemma remove_first_none values value :
  value ∉ values → remove_first value values = values.
Proof.
  induction values as [|x l IH]; intros Hnot; [done|]. simpl.
  apply not_elem_of_cons in Hnot as [Hne Hnot].
  rewrite decide_False by congruence. by rewrite IH.
Qed.

(** The loop and the contract agree on every list. *)
Lemma remove_loop_remove_first values value :
  default values (remove_loop values values 0 value) = remove_first value values.
Proof.
  destruct (decide (value ∈ values)) as [Hin|Hnot].
  - apply list_elem_of_split_l in Hin as (l1 & l2 & -> & Hnot).
    pose proof (remove_loop_found [] l1 l2 value Hnot) as E. simpl in E.
    rewrite E. simpl. by rewrite remove_first_found.
  - by rewrite remove_loop_none, remove_first_none.
Qed.

Lemma remove_found s p t fuel q k value :
  rep s p t → bst t → (height t < fuel)%nat → (q, k) ∈ entries t →
  remove fuel p (K k) value s =
  Ret tt match remove_loop (Values k) (Values k) 0 value with
         | Some values =>
             mkState (Root s) (node_at s) (<[q := mkKey (K k) values]> (key_at s))
         | None => s
         end.
Proof.
  intros H; revert fuel.
  induction H as [|a n q' k' l r Hn Hq Hk Hl IHl Hr IHr]; intros fuel Hb Hf Hin.
  - by apply elem_of_nil in Hin.
  - fuel_succ fuel Hf. load_node Hn Hq Hk.
    simpl in Hin. apply elem_of_app in Hin as [Hin|Hin].
    + pose proof (bst_left_lt _ _ _ _ _ _ Hb Hin) as Hlt. simpl in Hlt.
      destruct (Z.ltb_spec (Compare (K k) (K k')) 0); [|lia].
      apply IHl; eauto. lia.
    + apply elem_of_cons in Hin as [Heq|Hin].
      * injection Heq as -> ->. rewrite Compare_refl. simpl.
        destruct (remove_loop _ _ _ _); [|done].
        unfold setValues. by rewrite (storeKey_run _ _ _ _ Hk).
      * pose proof (bst_right_gt _ _ _ _ _ _ Hb Hin) as Hgt. simpl in Hgt.
        destruct (Z.ltb_spec (Compare (K k) (K k')) 0); [lia|].
        destruct (Z.gtb_spec (Compare (K k) (K k')) 0); [|lia].
        apply IHr; eauto. lia.
Qed.

Lemma remove_absent s p t fuel key value :
  rep s p t → (height t < fuel)%nat → key ∉ tkeys t →
  remove fuel p key value s = Ret tt s.
Proof.
  intros H; revert fuel.
  induction H as [|a n q' k' l r Hn Hq Hk Hl IHl Hr IHr]; intros fuel Hf Hin.
  - destruct fuel; [simpl in Hf; lia|]. done.
  - fuel_succ fuel Hf. load_node Hn Hq Hk.
    rewrite tkeys_Br in Hin.
    apply not_elem_of_app in Hin as [Hl' Hin].
    apply not_elem_of_cons in Hin as [Hne Hr'].
    destruct (Z.ltb_spec (Compare key (K k')) 0); [apply IHl; auto; lia|].
    destruct (Z.gtb_spec (Compare key (K k')) 0); [apply IHr; auto; lia|].
    destruct Hne. apply Compare_eq. lia.
Qed.

(** ** put *)

(** The key is already in the tree: [put] follows the search path and
    appends to the values of the key record found; no node is written. *)
Lemma put_present s p t fuel q k a na qa ka v vs :
  rep s p t → bst t → (height t < fuel)%nat → (q, k) ∈ entries t →
  node_at s !! a = Some na → Node_Key na = Some qa →
  key_at s !! qa = Some ka → K ka = K k → Values ka = v :: vs →
  put fuel p (Some a) s =
  Ret true (mkState (Root s) (node_at s)
              (<[q := mkKey (K k) (Values k ++ [v])]> (key_at s))).
Proof.
  intros H; revert fuel.
  induction H as [|b n q' k' l r Hn Hq Hk Hl IHl Hr IHr];
    intros fuel Hb Hf Hin Ha Hqa Hka HK HV.
  - by apply elem_of_nil in Hin.
  - fuel_succ fuel Hf.
    rewrite bind_run, (loadNode_run _ _ _ Hn).
    rewrite bind_run, (loadNode_run _ _ _ Ha).
    rewrite bind_run, Hqa, (loadKey_run _ _ _ Hka).
    rewrite bind_run, Hq, (loadKey_run _ _ _ Hk). rewrite HK.
    simpl in Hin. apply elem_of_app in Hin as [Hin|Hin].
    + pose proof (bst_left_lt _ _ _ _ _ _ Hb Hin) as Hlt. simpl in Hlt.
      destruct (Z.ltb_spec (Compare (K k) (K k')) 0); [|lia].
      inversion Hl as [E|? ? ? ? ? ? ? ? ? ? ? E]; subst.
      { by apply elem_of_nil in Hin. }
      rewrite E. apply IHl; eauto. simpl in *. lia.
    + apply elem_of_cons in Hin as [Heq|Hin].
      * injection Heq as -> ->. rewrite Compare_refl. simpl. rewrite HV.
        unfold setValues. rewrite bind_run, (storeKey_run _ _ _ _ Hk). done.
      * pose proof (bst_right_gt _ _ _ _ _ _ Hb Hin) as Hgt. simpl in Hgt.
        destruct (Z.ltb_spec (Compare (K k) (K k')) 0); [lia|].
        destruct (Z.gtb_spec (Compare (K k) (K k')) 0); [|lia].
        inversion Hr as [E|? ? ? ? ? ? ? ? ? ? ? E]; subst.
        { by apply elem_of_nil in Hin. }
        rewrite E. apply IHr; eauto. simpl in *. lia.
Qed.

Lemma rep_fresh_leaf s a na qa ka :
  node_at s !! a = Some na → Node_Key na = Some qa → key_at s !! qa = Some ka →
  Left na = None → Right na = None →
  rep s (Some a) (Br Leaf a qa ka Leaf).
Proof.
  intros Ha Hqa Hka HL HR. econstructor; eauto.
  - rewrite HL. constructor.
  - rewrite HR. constructor.
Qed.

(** The key is not in the tree: [put] links the new node below the node
    where the search falls off the tree.  Only that node is written. *)
Lemma put_absent t : ∀ s p fuel a na qa key v,
  rep s (Some p) t → NoDup (nlocs t) → (height t < fuel)%nat →
  key ∉ tkeys t →
  node_at s !! a = Some na → Node_Key na = Some qa →
  key_at s !! qa = Some (mkKey key [v]) →
  Left na = None → Right na = None → a ∉ nlocs t →
  ∃ s', put fuel (Some p) (Some a) s = Ret true s' ∧
        rep s' (Some p) (tree_put t a qa key v) ∧
        key_at s' = key_at s ∧ Root s' = Root s ∧
        (∀ x, x ∉ nlocs t → node_at s' !! x = node_at s !! x).
Proof.
  induction t as [|l IHl b q k r IHr];
    intros s p fuel a na qa key v H Hnd Hf Habs Ha Hqa Hka HL HR Hfresh.
  { inversion H. }
  inversion H as [|? n ? ? ? ? Hn Hq Hk Hl Hr]; subst.
  fuel_pos fuel Hf. cbn [put].
  rewrite bind_run, (loadNode_run _ _ _ Hn).
  rewrite bind_run, (loadNode_run _ _ _ Ha).
  rewrite bind_run, Hqa, (loadKey_run _ _ _ Hka).
  rewrite bind_run, Hq, (loadKey_run _ _ _ Hk).
  cbn [K tree_put].
  rewrite tkeys_Br in Habs.
  apply not_elem_of_app in Habs as [Habsl Habs].
  apply not_elem_of_cons in Habs as [Hne Habsr].
  simpl in Hnd. apply NoDup_app in Hnd as (Hndl & Hlr & Hnd).
  apply NoDup_cons in Hnd as (Hbr & Hndr).
  simpl in Hfresh.
  apply not_elem_of_app in Hfresh as [Hfl Hfresh].
  apply not_elem_of_cons in Hfresh as [Hab Hfr].
  assert (b ∉ nlocs l) as Hbl by (intros Hx; apply (Hlr _ Hx); left).
  destruct (Z.ltb_spec (Compare key (K k)) 0) as [Hlt|Hge].
  - destruct (Left n) as [lp|] eqn:EL.
    + destruct (IHl s lp fuel a na qa key v) as (s' & E & Hrep & HK & HRoot & Hfr');
        auto; [lia|].
      exists s'. split; [done|]. split; [|split; [done|split; [done|]]].
      * econstructor.
        -- rewrite Hfr'; eauto.
        -- done.
        -- by rewrite HK.
        -- by rewrite EL.
        -- eapply rep_frame; eauto.
           ++ intros x Hx. apply Hfr'. intros Hx'. apply (Hlr _ Hx'). by right.
           ++ intros y _. by rewrite HK.
      * intros x Hx. apply Hfr'. set_solver.
    + inversion Hl; subst.
      unfold casLeft. rewrite bind_run, bind_run, (loadNode_run _ _ _ Hn), EL.
      rewrite decide_True by done.
      unfold setLeft. rewrite bind_run, (storeNode_run _ _ _ _ Hn).
      eexists. split; [reflexivity|]. simpl.
      split; [|split; [done|split; [done|]]].
      * econstructor.
        -- simpl. apply lookup_insert_eq.
        -- done.
        -- done.
        -- simpl. eapply rep_fresh_leaf; eauto. simpl.
           by rewrite lookup_insert_ne.
        -- simpl. eapply rep_frame; eauto. simpl.
           intros x Hx. rewrite lookup_insert_ne; [done|]. by intros ->.
      * intros x Hx. simpl. rewrite lookup_insert_ne; [done|]. set_solver.
  - destruct (Z.gtb_spec (Compare key (K k)) 0) as [Hgt|Hle].
    2:{ destruct Hne. apply Compare_eq. lia. }
    destruct (Right n) as [rp|] eqn:ER.
    + destruct (IHr s rp fuel a na qa key v) as (s' & E & Hrep & HK & HRoot & Hfr');
        auto; [lia|].
      exists s'. split; [done|]. split; [|split; [done|split; [done|]]].
      * econstructor.
        -- rewrite Hfr'; eauto.
        -- done.
        -- by rewrite HK.
        -- eapply rep_frame; eauto.
           ++ intros x Hx. apply Hfr'. intros Hx'. apply (Hlr _ Hx). by right.
           ++ intros y _. by rewrite HK.
        -- by rewrite ER.
      * intros x Hx. apply Hfr'. set_solver.
    + inversion Hr; subst.
      unfold casRight. rewrite bind_run, bind_run, (loadNode_run _ _ _ Hn), ER.
      rewrite decide_True by done.
      unfold setRight. rewrite bind_run, (storeNode_run _ _ _ _ Hn).
      eexists. split; [reflexivity|]. simpl.
      split; [|split; [done|split; [done|]]].
      * econstructor.
        -- simpl. apply lookup_insert_eq.
        -- done.
        -- done.
        -- simpl. eapply rep_frame; eauto. simpl.
           intros x Hx. rewrite lookup_insert_ne; [done|]. by intros ->.
        -- simpl. eapply rep_fresh_leaf; eauto. simpl.
           by rewrite lookup_insert_ne.
      * intros x Hx. simpl. rewrite lookup_insert_ne; [done|]. set_solver.
Qed.

(** ** The trees of [put] and [delete] are search trees *)

Lemma entries_tree_put t a qa key v :
  key ∉ tkeys t →
  entries (tree_put t a qa key v) ≡ₚ (qa, mkKey key [v]) :: entries t.
Proof.
  induction t as [|l IHl b q k r IHr]; intros Habs; [done|].
  rewrite tkeys_Br in Habs.
  apply not_elem_of_app in Habs as [Habsl Habs].
  apply not_elem_of_cons in Habs as [Hne Habsr].
  simpl.
  destruct (Z.ltb_spec (Compare key (K k)) 0) as [Hlt|Hge].
  - simpl. by rewrite IHl.
  - destruct (Z.gtb_spec (Compare key (K k)) 0) as [Hgt|Hle].
    + simpl. rewrite IHr by done.
      by rewrite (Permutation_middle (entries l) (_ :: entries r)), Permutation_swap,
        <- Permutation_middle.
    + destruct Hne. apply Compare_eq. lia.
Qed.

Lemma tkeys_tree_put t a qa key v :
  key ∉ tkeys t → tkeys (tree_put t a qa key v) ≡ₚ key :: tkeys t.
Proof. intros H. unfold tkeys. by rewrite entries_tree_put. Qed.

Lemma bst_tree_put t a qa key v :
  bst t → key ∉ tkeys t → bst (tree_put t a qa key v).
Proof.
  induction t as [|l IHl b q k r IHr]; intros Hb Habs.
  { simpl. unfold tkeys. simpl. auto. }
  destruct Hb as (Fl & Fr & Bl & Br').
  rewrite tkeys_Br in Habs.
  apply not_elem_of_app in Habs as [Habsl Habs].
  apply not_elem_of_cons in Habs as [Hne Habsr].
  simpl.
  destruct (Z.ltb_spec (Compare key (K k)) 0) as [Hlt|Hge].
  - simpl. rewrite tkeys_tree_put, Forall_cons by done. repeat split; auto.
  - destruct (Z.gtb_spec (Compare key (K k)) 0) as [Hgt|Hle].
    + simpl. rewrite tkeys_tree_put, Forall_cons by done. repeat split; auto. lia.
    + destruct Hne. apply Compare_eq. lia.
Qed.

(** In-order keys of a search tree ascend strictly, and conversely. *)
Lemma ascending_app l1 x l2 :
  ascending (l1 ++ x :: l2) ↔
  ascending l1 ∧ ascending l2 ∧
  Forall (λ y, Compare y x < 0) l1 ∧ Forall (λ y, Compare x y < 0) l2.
Proof.
  induction l1 as [|z l1 IH]; simpl.
  - rewrite Forall_nil. tauto.
  - rewrite IH, Forall_app, !Forall_cons. split.
    + intros ((F1 & Hzx & F2) & A1 & A2 & G1 & G2). tauto.
    + intros ((F1 & A1) & A2 & (Hzx & G1) & G2). repeat split; auto.
      eapply Forall_impl; [exact G2|]. simpl. intros.
      eapply Compare_lt_trans; eauto.
Qed.

Lemma bst_ascending t : bst t → ascending (tkeys t).
Proof.
  induction t as [|l IHl b q k r IHr]; [done|].
  intros (Fl & Fr & Bl & Br'). rewrite tkeys_Br, ascending_app.
  repeat split; auto.
  eapply Forall_impl; [exact Fr|]. simpl. intros x. by rewrite Compare_gt_lt.
Qed.

Lemma ascending_NoDup ks : ascending ks → NoDup ks.
Proof.
  induction ks as [|x ks IH]; simpl; [constructor|].
  intros [F A]. constructor; auto.
  intros Hx. rewrite Forall_forall in F. specialize (F x Hx).
  by apply Compare_lt_irrefl in F.
Qed.

Lemma filter_all {A} (P : A → Prop) `{∀ x, Decision (P x)} (l : list A) :
  (∀ x, x ∈ l → P x) → filter P l = l.
Proof.
  induction l as [|x l IH]; intros Hl; [done|].
  rewrite filter_cons_True by (apply Hl; left).
  f_equal. apply IH. intros y Hy. apply Hl. by right.
Qed.

(** [minValueNode] stops at the node that holds the first key record. *)
Lemma leftmost_entries t :
  t ≠ Leaf →
  ∃ b qm km rest, leftmost t = Some (b, qm, km) ∧ entries t = (qm, km) :: rest ∧
                  b ∈ nlocs t.
Proof.
  induction t as [|l IHl b q k r _]; intros Hne; [done|].
  simpl. destruct l as [|ll lb lq lk lr].
  - exists b, q, k, (entries r). simpl. split; [done|]. split; [done|]. set_solver.
  - destruct IHl as (b' & qm & km & rest & E & Hent & Hin); [done|].
    exists b', qm, km, (rest ++ (q, k) :: entries r).
    split; [done|]. split; [by rewrite Hent|]. set_solver.
Qed.

Lemma nlocs_tree_delete t key a : a ∈ nlocs (tree_delete t key) → a ∈ nlocs t.
Proof.
  revert key. induction t as [|l IHl b q k r IHr]; intros key; [done|].
  simpl.
  destruct (Compare key (K k) <? 0); [simpl; set_solver|].
  destruct (Compare key (K k) >? 0); [simpl; set_solver|].
  destruct l as [|ll lb lq lk lr]; [set_solver|].
  destruct r as [|rl rb rq rk rr]; [set_solver|].
  destruct (leftmost _) as [[[? qm] km]|]; [|done].
  intros Hin. cbn [nlocs] in Hin.
  apply elem_of_app in Hin as [Hin|Hin]; [set_solver|].
  apply elem_of_cons in Hin as [->|Hin]; [set_solver|].
  apply IHr in Hin. set_solver.
Qed.

Lemma bst_head_least t qm km rest :
  bst t → entries t = (qm, km) :: rest →
  ∀ e, e ∈ rest → Compare (K km) (K e.2) < 0.
Proof.
  intros Hb Hent e He. apply bst_ascending in Hb.
  unfold tkeys in Hb. rewrite Hent in Hb. simpl in Hb.
  destruct Hb as [F _]. rewrite Forall_forall in F.
  apply F. apply list_elem_of_fmap. by exists e.
Qed.

(** Under the BST property, [delete] drops exactly the key record whose
    sort key is [key]; the others stay, in order. *)
Lemma entries_tree_delete t key :
  bst t → entries (tree_delete t key) = filter (ne_key key) (entries t).
Proof.
  revert key. induction t as [|l IHl b q k r IHr]; intros key Hb; [done|].
  pose proof Hb as (Fl & Fr & Bl & Br').
  assert (Compare key (K k) ≤ 0 →
            filter (ne_key key) (entries r) = entries r) as Hkeep_r.
  { intros Hx. apply filter_all. intros e He Heq. unfold ne_key in *.
    pose proof (bst_right_gt _ _ _ _ _ _ Hb He) as Hgt. rewrite Heq in Hgt. lia. }
  assert (0 ≤ Compare key (K k) →
            filter (ne_key key) (entries l) = entries l) as Hkeep_l.
  { intros Hx. apply filter_all. intros e He Heq. unfold ne_key in *.
    pose proof (bst_left_lt _ _ _ _ _ _ Hb He) as Hlt. rewrite Heq in Hlt. lia. }
  rewrite entries_filter_Br.
  cbn [tree_delete].
  destruct (Z.ltb_spec (Compare key (K k)) 0) as [Hlt|Hge].
  { cbn [entries]. rewrite IHl, Hkeep_r by (done || lia).
    rewrite filter_one_True; [done|].
    unfold ne_key. simpl. intros Heq. rewrite Heq, Compare_refl in Hlt. lia. }
  destruct (Z.gtb_spec (Compare key (K k)) 0) as [Hgt|Hle].
  { cbn [entries]. rewrite IHr, Hkeep_l by (done || lia).
    rewrite filter_one_True; [done|].
    unfold ne_key. simpl. intros Heq. rewrite Heq, Compare_refl in Hgt. lia. }
  assert (key = K k) as -> by (apply Compare_eq; lia).
  rewrite Hkeep_l, Hkeep_r by lia.
  rewrite filter_one_False by (unfold ne_key; simpl; tauto).
  destruct l as [|ll lb lq lk lr]; [done|].
  destruct r as [|rl rb rq rk rr]; [by rewrite app_nil_r|].
  destruct (leftmost_entries (Br rl rb rq rk rr)) as (bm & qm & km & rest & E & Hent & _);
    [done|].
  rewrite E. cbn [entries]. rewrite IHr by done.
  change (entries rl ++ (rq, rk) :: entries rr) with (entries (Br rl rb rq rk rr)).
  rewrite Hent.
  rewrite filter_cons_False by (unfold ne_key; simpl; tauto).
  rewrite filter_all; [done|].
  intros e He Heq. unfold ne_key in Heq.
  pose proof (bst_head_least _ _ _ _ Br' Hent e He) as Hlt.
  rewrite Heq, Compare_refl in Hlt. lia.
Qed.

Lemma Forall_filter_keep {A} (P Q : A → Prop) `{∀ x, Decision (P x)} (l : list A) :
  Forall Q l → Forall Q (filter P l).
Proof.
  rewrite !Forall_forall. intros HQ x Hx.
  apply list_elem_of_filter in Hx as [_ Hx]. auto.
Qed.

Lemma tkeys_tree_delete t key :
  bst t → tkeys (tree_delete t key) = filter (λ x, x ≠ key) (tkeys t).
Proof.
  intros Hb. unfold tkeys. rewrite entries_tree_delete by done.
  generalize (entries t). intros es.
  induction es as [|e es IH]; [done|].
  rewrite fmap_cons. destruct (decide (K e.2 = key)) as [Heq|Hne].
  - rewrite filter_cons_False by (unfold ne_key; tauto).
    by rewrite filter_cons_False by tauto.
  - rewrite filter_cons_True by done. rewrite filter_cons_True by done.
    by rewrite fmap_cons, IH.
Qed.

Lemma bst_tree_delete t key : bst t → bst (tree_delete t key).
Proof.
  revert key. induction t as [|l IHl b q k r IHr]; intros key Hb; [done|].
  pose proof Hb as (Fl & Fr & Bl & Br').
  cbn [tree_delete].
  destruct (Compare key (K k) <? 0).
  { simpl. rewrite tkeys_tree_delete by done.
    repeat split; auto. by apply Forall_filter_keep. }
  destruct (Compare key (K k) >? 0).
  { simpl. rewrite tkeys_tree_delete by done.
    repeat split; auto. by apply Forall_filter_keep. }
  destruct l as [|ll lb lq lk lr]; [done|].
  destruct r as [|rl rb rq rk rr]; [done|].
  destruct (leftmost_entries (Br rl rb rq rk rr)) as (bm & qm & km & rest & E & Hent & _);
    [done|].
  rewrite E. cbn [bst].
  assert (Compare (K km) (K k) > 0) as Hkm.
  { rewrite Forall_forall in Fr. apply Fr. apply elem_of_tkeys.
    exists qm, km. split; [|done]. rewrite Hent. left. }
  split; [|split; [|split; [done|by apply IHr]]].
  - eapply Forall_impl; [exact Fl|]. simpl. intros x Hx.
    eapply Compare_lt_trans; [exact Hx|]. by apply Compare_gt_lt.
  - rewrite tkeys_tree_delete by done.
    unfold tkeys. rewrite Hent. rewrite fmap_cons.
    rewrite filter_cons_False by (simpl; tauto).
    apply Forall_forall. intros x Hx.
    apply list_elem_of_filter in Hx as [_ Hx].
    apply list_elem_of_fmap in Hx as (e & -> & He).
    apply Compare_gt_lt. eapply bst_head_least; eauto.
Qed.

(** ** minValueNode and delete *)

Lemma leftmost_rep s p t b qm km :
  rep s p t → leftmost t = Some (b, qm, km) →
  ∃ m, node_at s !! b = Some m ∧ Node_Key m = Some qm ∧
       key_at s !! qm = Some km ∧ Left m = None.
Proof.
  induction 1 as [|a n q k l r Hn Hq Hk Hl IHl Hr IHr]; [done|].
  simpl. destruct l as [|ll lb lq lk lr].
  - intros [= -> -> ->]. exists n. inversion Hl. auto.
  - auto.
Qed.

Lemma minValueNode_spec s p t fuel :
  rep s p t → t ≠ Leaf → (height t < fuel)%nat →
  ∃ b qm km, leftmost t = Some (b, qm, km) ∧
             minValueNode fuel p s = Ret (Some b) s.
Proof.
  intros H; revert fuel.
  induction H as [|a n q k l r Hn Hq Hk Hl IHl Hr IHr]; intros fuel Hne Hf; [done|].
  fuel_pos fuel Hf. cbn [minValueNode].
  rewrite bind_run, (loadNode_run _ _ _ Hn).
  destruct (Left n) as [lp|] eqn:EL; inversion Hl; subst.
  - destruct (IHl fuel) as (b & qm & km & Hlm & Hrun); [done|simpl in *; lia|].
    exists b, qm, km. split; [|done]. done.
  - by exists a, q, k.
Qed.

Lemma rep_None s t : rep s None t → t = Leaf.
Proof. by inversion 1. Qed.

Lemma rep_Some s a t : rep s (Some a) t → t ≠ Leaf.
Proof. by inversion 1. Qed.

(** The equations of [tree_delete], case by case. *)
Lemma tree_delete_lt l a q k r key :
  Compare key (K k) < 0 →
  tree_delete (Br l a q k r) key = Br (tree_delete l key) a q k r.
Proof. intros. simpl. by destruct (Z.ltb_spec (Compare key (K k)) 0); [|lia]. Qed.

Lemma tree_delete_gt l a q k r key :
  Compare key (K k) > 0 →
  tree_delete (Br l a q k r) key = Br l a q k (tree_delete r key).
Proof.
  intros. simpl.
  destruct (Z.ltb_spec (Compare key (K k)) 0); [lia|].
  by destruct (Z.gtb_spec (Compare key (K k)) 0); [|lia].
Qed.

Lemma tree_delete_eq l a q k r key :
  0 ≤ Compare key (K k) → Compare key (K k) ≤ 0 →
  tree_delete (Br l a q k r) key =
  match l, r with
  | Leaf, _ => r
  | Br _ _ _ _ _, Leaf => l
  | Br _ _ _ _ _, Br _ _ _ _ _ =>
      match leftmost r with
      | Some (_, qm, km) => Br l a qm km (tree_delete r (K km))
      | None => Br l a q k r
      end
  end.
Proof.
  intros. simpl.
  destruct (Z.ltb_spec (Compare key (K k)) 0); [lia|].
  by destruct (Z.gtb_spec (Compare key (K k)) 0); [lia|].
Qed.

Lemma tree_delete_two l a q k r key b qm km :
  0 ≤ Compare key (K k) → Compare key (K k) ≤ 0 →
  l ≠ Leaf → r ≠ Leaf → leftmost r = Some (b, qm, km) →
  tree_delete (Br l a q k r) key = Br l a qm km (tree_delete r (K km)).
Proof.
  intros H1 H2 Hl Hr Hlm. rewrite tree_delete_eq by done.
  destruct l; [done|]. destruct r; [done|]. by rewrite Hlm.
Qed.

Lemma delete_spec t : ∀ s p fuel key,
  rep s p t → NoDup (nlocs t) → (height t < fuel)%nat →
  ∃ s' p', delete fuel p key s = Ret p' s' ∧
           rep s' p' (tree_delete t key) ∧
           key_at s' = key_at s ∧ Root s' = Root s ∧
           (∀ x, x ∉ nlocs t → node_at s' !! x = node_at s !! x).
Proof.
  induction t as [|l IHl a q k r IHr]; intros s p fuel key H Hnd Hf.
  { inversion H; subst. destruct fuel; [simpl in Hf; lia|].
    exists s, None. simpl. repeat split; auto. }
  inversion H as [|? n ? ? ? ? Hn Hq Hk Hl Hr]; subst.
  fuel_pos fuel Hf. cbn [delete].
  load_node Hn Hq Hk.
  simpl in Hnd. apply NoDup_app in Hnd as (Hndl & Hlr & Hnd).
  apply NoDup_cons in Hnd as (Har & Hndr).
  assert (a ∉ nlocs l) as Hal by (intros Hx; apply (Hlr _ Hx); left).
  assert (∀ x, x ∈ nlocs l → x ∉ nlocs r) as Hdisj
    by (intros x Hx Hx'; apply (Hlr _ Hx); by right).
  destruct (Z.ltb_spec (Compare key (K k)) 0) as [Hlt|Hge].
  { rewrite tree_delete_lt by lia.
    destruct (IHl s (Left n) fuel key) as (s1 & p1 & E & Hrep & HK & HRoot & Hfr);
      auto; [lia|].
    rewrite bind_run, E.
    assert (node_at s1 !! a = Some n) as Hn1 by (rewrite Hfr; auto).
    unfold setLeft. rewrite bind_run, (storeNode_run _ _ _ _ Hn1).
    eexists _, _. split; [reflexivity|]. simpl.
    split; [|split; [done|split; [done|]]].
    - econstructor; simpl.
      + apply lookup_insert_eq.
      + simpl. exact Hq.
      + by rewrite HK.
      + eapply rep_frame; [exact Hrep| |done]. simpl.
        intros x Hx. rewrite lookup_insert_ne; [done|].
        intros ->. by apply nlocs_tree_delete in Hx.
      + eapply rep_frame; [exact Hr| |]; simpl.
        * intros x Hx. rewrite lookup_insert_ne by (by intros ->).
          apply Hfr. intros Hx'. by apply (Hdisj _ Hx').
        * intros y _. by rewrite HK.
    - intros x Hx. rewrite lookup_insert_ne by set_solver.
      apply Hfr. set_solver. }
  destruct (Z.gtb_spec (Compare key (K k)) 0) as [Hgt|Hle].
  { rewrite tree_delete_gt by lia.
    destruct (IHr s (Right n) fuel key) as (s1 & p1 & E & Hrep & HK & HRoot & Hfr);
      auto; [lia|].
    rewrite bind_run, E.
    assert (node_at s1 !! a = Some n) as Hn1 by (rewrite Hfr; auto).
    unfold setRight. rewrite bind_run, (storeNode_run _ _ _ _ Hn1).
    eexists _, _. split; [reflexivity|]. simpl.
    split; [|split; [done|split; [done|]]].
    - econstructor; simpl.
      + apply lookup_insert_eq.
      + simpl. exact Hq.
      + by rewrite HK.
      + eapply rep_frame; [exact Hl| |]; simpl.
        * intros x Hx. rewrite lookup_insert_ne by (by intros ->).
          apply Hfr. by apply Hdisj.
        * intros y _. by rewrite HK.
      + eapply rep_frame; [exact Hrep| |done]. simpl.
        intros x Hx. rewrite lookup_insert_ne; [done|].
        intros ->. by apply nlocs_tree_delete in Hx.
    - intros x Hx. rewrite lookup_insert_ne by set_solver.
      apply Hfr. set_solver. }
  destruct (Left n) as [lp|] eqn:EL.
  2:{ apply rep_None in Hl as ->. rewrite tree_delete_eq by lia.
      exists s, (Right n). repeat split; auto. }
  destruct (Right n) as [rp|] eqn:ER.
  2:{ apply rep_None in Hr as ->. rewrite tree_delete_eq by lia.
      exists s, (Some lp). destruct l; repeat split; auto. }
  pose proof (rep_Some _ _ _ Hl) as Hlne.
  pose proof (rep_Some _ _ _ Hr) as Hrne.
  destruct (minValueNode_spec s (Some rp) r fuel) as (b & qm & km & Hlm & Hmin);
    [done|done|lia|].
  rewrite (tree_delete_two _ _ _ _ _ _ b qm km) by (done || lia).
  destruct (leftmost_rep _ _ _ _ _ _ Hr Hlm) as (m & Hm & Hmq & Hmk & _).
  destruct (leftmost_entries r) as (b' & qm' & km' & rest & Hlm' & Hent & Hb);
    [done|].
  rewrite Hlm in Hlm'. injection Hlm' as <- <- <-.
  assert (a ≠ b) as Hab by (intros ->; done).
  rewrite bind_run, Hmin, bind_run, (loadNode_run _ _ _ Hm).
  unfold setKey. rewrite bind_run, (storeNode_run _ _ _ _ Hn).
  cbn beta. rewrite ?EL, ?ER.
  set (s1 := mkState (Root s)
               (<[a := mkNode (Node_Key m) (Some lp) (Some rp)]> (node_at s)) (key_at s)).
  assert (node_at s1 !! a = Some (mkNode (Node_Key m) (Some lp) (Some rp))) as Hn1
    by apply lookup_insert_eq.
  assert (node_at s1 !! b = Some m) as Hm1
    by (simpl; by rewrite lookup_insert_ne).
  rewrite bind_run, (loadNode_run _ _ _ Hn1).
  rewrite bind_run, (loadNode_run _ _ _ Hm1).
  rewrite bind_run, Hmq, (loadKey_run s1 _ _ Hmk).
  cbn [Right].
  assert (rep s1 (Some rp) r) as Hr1.
  { eapply rep_frame; [exact Hr| |done]. simpl.
    intros x Hx. rewrite lookup_insert_ne; [done|]. by intros ->. }
  destruct (IHr s1 (Some rp) fuel (K km)) as (s2 & p2 & E & Hrep & HK & HRoot & Hfr);
    auto; [lia|].
  rewrite bind_run, E.
  assert (node_at s2 !! a = Some (mkNode (Node_Key m) (Some lp) (Some rp))) as Hn2
    by (rewrite Hfr; auto).
  unfold setRight. rewrite bind_run, (storeNode_run _ _ _ _ Hn2).
  eexists _, _. split; [reflexivity|]. simpl.
  split; [|split; [by rewrite HK|split; [by rewrite HRoot|]]].
  - econstructor; simpl.
    + apply lookup_insert_eq.
    + simpl. exact Hmq.
    + by rewrite HK.
    + eapply rep_frame; [exact Hl| |]; simpl.
      * intros x Hx. rewrite lookup_insert_ne by (by intros ->).
        rewrite Hfr by (by apply Hdisj). simpl.
        rewrite lookup_insert_ne; [done|]. by intros ->.
      * intros y _. by rewrite HK.
    + eapply rep_frame; [exact Hrep| |done]. simpl.
      intros x Hx. rewrite lookup_insert_ne; [done|].
      intros ->. by apply nlocs_tree_delete in Hx.
  - intros x Hx. rewrite lookup_insert_ne by set_solver.
    rewrite Hfr by set_solver. simpl.
    rewrite lookup_insert_ne; [done|]. set_solver.
Qed.

(** ** The exported operations on a memory that holds a search tree *)

Lemma holds_budget s t : holds s t → (height t < budget s)%nat.
Proof.
  intros [H Hb]. eapply rep_budget; eauto. eapply rep_bst_NoDup_nlocs; eauto.
Qed.

Lemma new_node_fresh s : node_at s !! new_node_addr s = None.
Proof. unfold new_node_addr. apply (not_elem_of_dom (D := gset positive)), is_fresh. Qed.

Lemma new_key_fresh s : key_at s !! new_key_addr s = None.
Proof. unfold new_key_addr. apply (not_elem_of_dom (D := gset positive)), is_fresh. Qed.

Lemma rep_with_new_node s p t key value :
  rep s p t → rep (with_new_node key value s) p t.
Proof.
  intros H. eapply rep_frame; [exact H| |]; simpl.
  - intros a Ha. rewrite lookup_insert_ne; [done|]. intros <-.
    destruct (rep_node_lookup _ _ _ _ H Ha) as (n & _ & _ & Hn & _).
    by rewrite new_node_fresh in Hn.
  - intros q Hq. rewrite lookup_insert_ne; [done|]. intros <-.
    apply elem_of_klocs in Hq as [k Hk].
    apply (rep_entry_lookup _ _ _ _ _ H) in Hk.
    by rewrite new_key_fresh in Hk.
Qed.

Lemma new_node_not_in s p t : rep s p t → new_node_addr s ∉ nlocs t.
Proof.
  intros H Ha. destruct (rep_node_lookup _ _ _ _ H Ha) as (n & _ & _ & Hn & _).
  by rewrite new_node_fresh in Hn.
Qed.

Lemma Put_alloc key value s :
  Put key value s =
  Put_loop (budget (with_new_node key value s)) (Some (new_node_addr s))
    (with_new_node key value s).
Proof. reflexivity. Qed.

(** [Put] of a key that the tree has: the value is appended in place.  The
    loop returns in its first iteration, whatever its budget. *)
Lemma Put_loop_present f s t q k value :
  holds s t → (q, k) ∈ entries t →
  Put_loop (S f) (Some (new_node_addr s)) (with_new_node (K k) value s) =
  Ret tt (mkState (Root s)
            (node_at (with_new_node (K k) value s))
            (<[q := mkKey (K k) (Values k ++ [value])]>
               (key_at (with_new_node (K k) value s)))).
Proof.
  intros [H Hb] Hin.
  pose proof (rep_with_new_node _ _ _ (K k) value H) as H2.
  set (s2 := with_new_node (K k) value s) in *.
  assert (holds s2 t) as Hh2 by (split; auto).
  pose proof (holds_budget _ _ Hh2) as Hf.
  unfold budget in *. cbn [Put_loop].
  rewrite bind_run. unfold loadRoot.
  destruct (Root s) as [p|] eqn:ER.
  2:{ apply rep_None in H as ->. by apply elem_of_nil in Hin. }
  change (Root s2) with (Root s). rewrite ER.
  rewrite bind_run. unfold with_budget, budget.
  rewrite (put_present s2 (Some p) t _ q k (new_node_addr s)
             (mkNode (Some (new_key_addr s)) None None) (new_key_addr s)
             (mkKey (K k) [value]) value []); auto.
  - change (Root s2) with (Root s). by rewrite ER.
  - simpl. apply lookup_insert_eq.
  - simpl. apply lookup_insert_eq.
Qed.

Lemma Put_present s t q k value :
  holds s t → (q, k) ∈ entries t →
  Put (K k) value s =
  Ret tt (mkState (Root s)
            (node_at (with_new_node (K k) value s))
            (<[q := mkKey (K k) (Values k ++ [value])]>
               (key_at (with_new_node (K k) value s)))).
Proof. intros. rewrite Put_alloc. by eapply Put_loop_present. Qed.

(** [Put] of a key that the tree lacks: the new node is linked in, and the
    loop returns in its first iteration, whatever its budget. *)
Lemma Put_loop_absent s t key value :
  holds s t → key ∉ tkeys t →
  ∃ s', (∀ f, Put_loop (S f) (Some (new_node_addr s)) (with_new_node key value s)
              = Ret tt s') ∧
        holds s' (tree_put t (new_node_addr s) (new_key_addr s) key value) ∧
        key_at s' = <[new_key_addr s := mkKey key [value]]> (key_at s).
Proof.
  intros [H Hb] Habs.
  pose proof (rep_with_new_node _ _ _ key value H) as H2.
  set (s2 := with_new_node key value s) in *.
  assert (holds s2 t) as Hh2 by (split; auto).
  pose proof (holds_budget _ _ Hh2) as Hf.
  pose proof (rep_bst_NoDup_nlocs _ _ _ H Hb) as Hnd.
  pose proof (new_node_not_in _ _ _ H) as Hfresh.
  unfold budget in *.
  change (Root s2) with (Root s) in *.
  destruct (Root s) as [p|] eqn:ER.
  - destruct (put_absent t s2 p (S (size (node_at s2))) (new_node_addr s)
                (mkNode (Some (new_key_addr s)) None None) (new_key_addr s) key value)
      as (s' & E & Hrep & HK & HRoot & _); auto.
    { simpl. apply lookup_insert_eq. }
    { simpl. apply lookup_insert_eq. }
    exists s'. split; [|split; [|done]].
    + intros f. cbn [Put_loop]. rewrite bind_run. unfold loadRoot.
      change (Root s2) with (Root s). rewrite ER.
      rewrite bind_run. unfold with_budget, budget. by rewrite E.
    + split; [|by apply bst_tree_put].
      rewrite HRoot. change (Root s2) with (Root s). by rewrite ER.
  - apply rep_None in H2 as Ht. subst t.
    exists (mkState (Some (new_node_addr s)) (node_at s2) (key_at s2)).
    split; [|split; [|done]].
    + intros f. cbn [Put_loop]. rewrite bind_run. unfold loadRoot.
      change (Root s2) with (Root s). rewrite ER.
      unfold casRoot. rewrite !bind_run. unfold loadRoot.
      change (Root s2) with (Root s). rewrite ER.
      by rewrite decide_True by done.
    + split; [|by apply (bst_tree_put Leaf)]. simpl.
      eapply rep_fresh_leaf; simpl;
        [apply lookup_insert_eq | done | apply lookup_insert_eq | done | done].
Qed.

Lemma Put_absent s t key value :
  holds s t → key ∉ tkeys t →
  ∃ s', Put key value s = Ret tt s' ∧
        holds s' (tree_put t (new_node_addr s) (new_key_addr s) key value) ∧
        key_at s' = <[new_key_addr s := mkKey key [value]]> (key_at s).
Proof.
  intros Hh Habs.
  destruct (Put_loop_absent s t key value Hh Habs) as (s' & E & ?).
  exists s'. rewrite Put_alloc. unfold budget. by rewrite E.
Qed.

Lemma Get_found s t q k :
  holds s t → (q, k) ∈ entries t → Get (K k) s = Ret (Some q) s.
Proof.
  intros Hh Hin. pose proof (holds_budget _ _ Hh). destruct Hh.
  unfold Get. rewrite bind_run. unfold loadRoot, with_budget.
  eapply get_found; eauto.
Qed.

Lemma Get_absent s t key :
  holds s t → key ∉ tkeys t → Get key s = Ret None s.
Proof.
  intros Hh Hin. pose proof (holds_budget _ _ Hh). destruct Hh.
  unfold Get. rewrite bind_run. unfold loadRoot, with_budget.
  eapply get_absent; eauto.
Qed.

Lemma Remove_found s t q k value :
  holds s t → (q, k) ∈ entries t →
  Remove (K k) value s =
  Ret tt match remove_loop (Values k) (Values k) 0 value with
         | Some values =>
             mkState (Root s) (node_at s) (<[q := mkKey (K k) values]> (key_at s))
         | None => s
         end.
Proof.
  intros Hh Hin. pose proof (holds_budget _ _ Hh). destruct Hh.
  unfold Remove. rewrite bind_run. unfold loadRoot, with_budget.
  eapply remove_found; eauto.
Qed.

Lemma Remove_absent s t key value :
  holds s t → key ∉ tkeys t → Remove key value s = Ret tt s.
Proof.
  intros Hh Hin. pose proof (holds_budget _ _ Hh). destruct Hh.
  unfold Remove. rewrite bind_run. unfold loadRoot, with_budget.
  eapply remove_absent; eauto.
Qed.

Lemma Delete_spec s t key :
  holds s t →
  ∃ s', Delete key s = Ret tt s' ∧ holds s' (tree_delete t key) ∧
        key_at s' = key_at s.
Proof.
  intros Hh. pose proof (holds_budget _ _ Hh) as Hf. destruct Hh as [H Hb].
  pose proof (rep_bst_NoDup_nlocs _ _ _ H Hb) as Hnd.
  destruct (delete_spec t s (Root s) (budget s) key H Hnd Hf)
    as (s' & p' & E & Hrep & HK & _).
  unfold Delete. rewrite bind_run. unfold loadRoot at 1.
  rewrite bind_run. unfold with_budget. rewrite E. unfold storeRoot.
  eexists. split; [reflexivity|]. split; [|done].
  split; [|by apply bst_tree_delete]. simpl. by apply rep_root.
Qed.

(** A search for a key that is not there rewrites every child pointer on
    its path with the value it already has. *)
Lemma delete_absent s p t fuel key :
  rep s p t → (height t < fuel)%nat → key ∉ tkeys t →
  delete fuel p key s = Ret p s.
Proof.
  intros H; revert fuel.
  induction H as [|a n q k l r Hn Hq Hk Hl IHl Hr IHr]; intros fuel Hf Habs.
  - destruct fuel; [simpl in Hf; lia|]. done.
  - fuel_pos fuel Hf. cbn [delete]. load_node Hn Hq Hk.
    rewrite tkeys_Br in Habs.
    apply not_elem_of_app in Habs as [Hl' Habs].
    apply not_elem_of_cons in Habs as [Hne Hr'].
    destruct (Z.ltb_spec (Compare key (K k)) 0).
    { rewrite bind_run, IHl by (done || lia).
      unfold setLeft. rewrite bind_run, (storeNode_run _ _ _ _ Hn).
      rewrite Node_eta, insert_id by done. by rewrite State_eta. }
    destruct (Z.gtb_spec (Compare key (K k)) 0).
    { rewrite bind_run, IHr by (done || lia).
      unfold setRight. rewrite bind_run, (storeNode_run _ _ _ _ Hn).
      rewrite Node_eta, insert_id by done. by rewrite State_eta. }
    destruct Hne. apply Compare_eq. lia.
Qed.

Lemma Delete_absent s t key :
  holds s t → key ∉ tkeys t → Delete key s = Ret tt s.
Proof.
  intros Hh Habs. pose proof (holds_budget _ _ Hh) as Hf. destruct Hh as [H Hb].
  unfold Delete. rewrite bind_run. unfold loadRoot at 1.
  rewrite bind_run. unfold with_budget.
  rewrite (delete_absent _ _ t) by done.
  unfold storeRoot. by rewrite State_eta.
Qed.

Lemma Range_spec s t lo hi :
  holds s t →
  Range lo hi s = Ret (kptrs (filter (in_range lo hi) (entries t))) s.
Proof.
  intros Hh. pose proof (holds_budget _ _ Hh). destruct Hh.
  unfold Range. rewrite bind_run. unfold loadRoot, with_budget.
  by rewrite (rangeKeys_spec _ _ t).
Qed.

Lemma GreaterThan_spec s t x :
  holds s t →
  GreaterThan x s = Ret (kptrs (filter (gt_key x) (entries t))) s.
Proof.
  intros Hh. pose proof (holds_budget _ _ Hh). destruct Hh.
  unfold GreaterThan. rewrite bind_run. unfold loadRoot, with_budget.
  by rewrite (greaterThan_spec _ _ t).
Qed.

Lemma NGet_spec s t x :
  holds s t →
  NGet x s = Ret (kptrs (filter (ne_key x) (entries t))) s.
Proof.
  intros Hh. pose proof (holds_budget _ _ Hh). destruct Hh.
  unfold NGet. rewrite bind_run. unfold loadRoot, with_budget.
  by rewrite (nGet_spec _ _ t).
Qed.

Lemma GreaterThanEq_spec s t x :
  holds s t →
  GreaterThanEq x s = Ret (kptrs (filter (ge_key x) (preorder t))) s.
Proof.
  intros Hh. pose proof (holds_budget _ _ Hh). destruct Hh.
  unfold GreaterThanEq. rewrite bind_run. unfold loadRoot, with_budget.
  by rewrite (greaterThanEq_spec _ _ t).
Qed.

Lemma LessThan_spec s t x :
  holds s t →
  LessThan x s = Ret (kptrs (filter (lt_key x) (preorder t))) s.
Proof.
  intros Hh. pose proof (holds_budget _ _ Hh). destruct Hh.
  unfold LessThan. rewrite bind_run. unfold loadRoot, with_budget.
  by rewrite (lessThan_spec _ _ t).
Qed.

Lemma LessThanEq_spec s t x :
  holds s t →
  LessThanEq x s = Ret (kptrs (filter (le_key x) (preorder t))) s.
Proof.
  intros Hh. pose proof (holds_budget _ _ Hh). destruct Hh.
  unfold LessThanEq. rewrite bind_run. unfold loadRoot, with_budget.
  by rewrite (lessThanEq_spec _ _ t).
Qed.

Lemma kptrs_filter_perm (P : positive * Key → Prop) `{∀ x, Decision (P x)} t :
  kptrs (filter P (preorder t)) ≡ₚ kptrs (filter P (entries t)).
Proof. unfold kptrs. by rewrite preorder_entries. Qed.

(** ** The invariant is kept *)

Lemma holds_New : holds New Leaf.
Proof. split; [constructor|done]. Qed.

Lemma holds_store s t q k k' :
  holds s t → key_at s !! q = Some k → K k' = K k →
  holds (mkState (Root s) (node_at s) (<[q := k']> (key_at s))) (tree_store t q k').
Proof.
  intros [H Hb] Hq HK. split.
  - by apply rep_store.
  - eapply bst_store; eauto.
Qed.

Lemma holds_entry s t q k : holds s t → (q, k) ∈ entries t → key_at s !! q = Some k.
Proof. intros [H _]. by eapply rep_entry_lookup. Qed.

Lemma holds_with_new_node s t key value :
  holds s t → holds (with_new_node key value s) t.
Proof. intros [H Hb]. split; [by apply rep_with_new_node|done]. Qed.

Lemma Put_present_holds s t q k value :
  holds s t → (q, k) ∈ entries t →
  ∃ s', Put (K k) value s = Ret tt s' ∧
        holds s' (tree_store t q (mkKey (K k) (Values k ++ [value]))).
Proof.
  intros Hh Hin. eexists. split; [by eapply Put_present|].
  apply (holds_store (with_new_node (K k) value s) t q k); [|  |done].
  - by apply holds_with_new_node.
  - eapply holds_entry; [|done]. by apply holds_with_new_node.
Qed.

Lemma Put_holds s t key value :
  holds s t → ∃ s' t', Put key value s = Ret tt s' ∧ holds s' t'.
Proof.
  intros Hh. destruct (decide (key ∈ tkeys t)) as [Hin|Habs].
  - apply elem_of_tkeys in Hin as (q & k & Hin & <-).
    destruct (Put_present_holds s t q k value) as (s' & ? & ?); eauto.
  - destruct (Put_absent s t key value) as (s' & ? & ? & _); eauto.
Qed.

Lemma Remove_holds s t key value :
  holds s t → ∃ s' t', Remove key value s = Ret tt s' ∧ holds s' t'.
Proof.
  intros Hh. destruct (decide (key ∈ tkeys t)) as [Hin|Habs].
  - apply elem_of_tkeys in Hin as (q & k & Hin & <-).
    rewrite (Remove_found s t q k) by done.
    destruct (remove_loop _ _ _ _) as [values|]; [|eauto].
    eexists _, _. split; [done|].
    eapply (holds_store s t q k); eauto using holds_entry.
  - rewrite (Remove_absent s t) by done. eauto.
Qed.

Lemma step_holds o s t :
  holds s t → ∃ s' t', step o s = Ret tt s' ∧ holds s' t'.
Proof.
  intros Hh. destruct o as [key value|key|key value]; simpl.
  - by eapply Put_holds.
  - destruct (Delete_spec s t key Hh) as (s' & ? & ? & _). eauto.
  - by eapply Remove_holds.
Qed.

Lemma run_holds ops : ∀ s t,
  holds s t → ∃ s' t', run ops s = Ret tt s' ∧ holds s' t'.
Proof.
  induction ops as [|o ops IH]; intros s t Hh; simpl.
  - eauto.
  - destruct (step_holds o s t Hh) as (s1 & t1 & E & Hh1).
    rewrite bind_run, E. eauto.
Qed.

Lemma values_of_found s t q k :
  holds s t → (q, k) ∈ entries t → values_of (K k) s = Some (Values k).
Proof.
  intros Hh Hin. unfold values_of.
  rewrite (Get_found s t q k) by done.
  by rewrite (holds_entry s t q k).
Qed.

Lemma values_of_absent s t key :
  holds s t → key ∉ tkeys t → values_of key s = None.
Proof. intros Hh Hin. unfold values_of. by rewrite (Get_absent s t). Qed.

Lemma nlocs_store t q k' : nlocs (tree_store t q k') = nlocs t.
Proof. induction t as [|l IHl a q0 k r IHr]; simpl; congruence. Qed.

Lemma holds_NoDup_entries s t : holds s t → NoDup (entries t).
Proof.
  intros [H Hb]. pose proof (rep_bst_NoDup_klocs _ _ _ H Hb) as Hnd.
  unfold klocs in Hnd. by apply NoDup_fmap_1 in Hnd.
Qed.

(** ** Deleting a node that has two children *)

(** Deleting the key of the leftmost node unlinks exactly that node. *)
Lemma leftmost_nlocs_delete r b qm km :
  bst r → leftmost r = Some (b, qm, km) →
  nlocs r = b :: nlocs (tree_delete r (K km)).
Proof.
  induction r as [|l IHl a q k r' _]; [done|].
  intros Hb Hlm. simpl in Hlm. destruct l as [|ll lb lq lk lr].
  - injection Hlm as -> -> ->.
    rewrite tree_delete_eq by (rewrite Compare_refl; lia). done.
  - destruct (leftmost_entries (Br ll lb lq lk lr)) as (b' & qm' & km' & rest & E & Hent & _);
      [done|].
    rewrite Hlm in E. injection E as <- <- <-.
    assert (Compare (K km) (K k) < 0) as Hlt.
    { apply (bst_left_lt _ _ _ _ _ (qm, km) Hb). rewrite Hent. left. }
    rewrite tree_delete_lt by done.
    cbn [nlocs]. rewrite (IHl (bst_left _ _ _ _ _ Hb) Hlm) at 1. done.
Qed.

Lemma subtree_bst t' t : subtree t' t → bst t → bst t'.
Proof. induction 1; simpl; tauto. Qed.

Lemma subtree_bst_right t l a q k r :
  subtree (Br l a q k r) t → bst t → bst r.
Proof. intros Hsub Hb. apply (subtree_bst _ _ Hsub) in Hb. simpl in Hb. tauto. Qed.

Lemma two_child_delete t l a q k r b qm km :
  NoDup (nlocs t) → bst t →
  subtree (Br l a q k r) t → l ≠ Leaf → r ≠ Leaf →
  leftmost r = Some (b, qm, km) →
  subtree (Br l a qm km (tree_delete r (K km))) (tree_delete t (K k)) ∧
  b ∉ nlocs (tree_delete t (K k)).
Proof.
  intros Hnd Hb Hsub Hl Hr Hlm.
  remember (Br l a q k r) as t0 eqn:Et0.
  induction Hsub as [|l0 a0 q0 k0 r0 Hsub IH|l0 a0 q0 k0 r0 Hsub IH].
  - subst t0.
    rewrite (tree_delete_two _ _ _ _ _ _ b qm km) by (rewrite ?Compare_refl; done || lia).
    split; [constructor|].
    simpl in Hnd. rewrite (leftmost_nlocs_delete r b qm km) in Hnd by eauto.
    cbn [nlocs]. apply NoDup_app in Hnd as (_ & Hlr & Hnd).
    apply NoDup_cons in Hnd as (Har & Hnd). apply NoDup_cons in Hnd as (Hbr & _).
    intros Hin. apply elem_of_app in Hin as [Hin|Hin].
    + apply (Hlr _ Hin). right. left.
    + apply elem_of_cons in Hin as [->|Hin]; [|done].
      apply Har. left.
  - assert ((q, k) ∈ entries l0) as Hin.
    { eapply subtree_entries; [exact Hsub|]. subst t0. simpl. set_solver. }
    pose proof (bst_left_lt _ _ _ _ _ _ Hb Hin) as Hlt. simpl in Hlt.
    rewrite tree_delete_lt by done.
    simpl in Hnd. apply NoDup_app in Hnd as (Hndl & Hlr & Hnd).
    apply NoDup_cons in Hnd as (Har & Hndr).
    destruct IH as [IH1 IH2]; eauto.
    split; [by constructor|].
    assert (b ∈ nlocs l0) as Hbl.
    { eapply subtree_nlocs; [exact Hsub|]. subst t0. simpl.
      rewrite (leftmost_nlocs_delete r b qm km); [set_solver| |done].
      apply (subtree_bst_right l0 l a q k r Hsub); eauto. }
    cbn [nlocs]. intros Hx. apply elem_of_app in Hx as [Hx|Hx]; [done|].
    by apply (Hlr _ Hbl).
  - assert ((q, k) ∈ entries r0) as Hin.
    { eapply subtree_entries; [exact Hsub|]. subst t0. simpl. set_solver. }
    pose proof (bst_right_gt _ _ _ _ _ _ Hb Hin) as Hgt. simpl in Hgt.
    rewrite tree_delete_gt by done.
    simpl in Hnd. apply NoDup_app in Hnd as (Hndl & Hlr & Hnd).
    apply NoDup_cons in Hnd as (Har & Hndr).
    destruct IH as [IH1 IH2]; eauto.
    split; [by constructor|].
    assert (b ∈ nlocs r0) as Hbr.
    { eapply subtree_nlocs; [exact Hsub|]. subst t0. simpl.
      rewrite (leftmost_nlocs_delete r b qm km); [set_solver| |done].
      apply (subtree_bst_right r0 l a q k r Hsub); eauto. }
    cbn [nlocs]. intros Hx. apply elem_of_app in Hx as [Hx|Hx].
    + apply (Hlr _ Hx). by right.
    + apply elem_of_cons in Hx as [->|Hx]; done.
Qed.

(** ** The example memories hold the example trees *)

Ltac rep_example :=
  match goal with
  | |- rep ?s (Root ?s) ?t =>
      let r := eval vm_compute in (Root s) in
      let t' := eval hnf in t in
      change (rep s r t')
  end;
  repeat match goal with
         | |- rep _ None Leaf => constructor
         | |- rep _ (Some _) (Br _ _ _ _ _) =>
             eapply rep_node;
             [vm_compute; reflexivity | reflexivity | vm_compute; reflexivity
             | cbn [Left Right] | cbn [Left Right]]
         end.

Ltac bst_example :=
  simpl; unfold tkeys; simpl;
  repeat match goal with
         | |- _ ∧ _ => split
         | |- Forall _ [] => constructor
         | |- Forall _ (_ :: _) => constructor
         | |- True => exact I
         | |- _ < _ => reflexivity
         | |- _ > _ => reflexivity
         end.

Lemma mem_ba_run : run ops_ba New = Ret tt mem_ba.
Proof. vm_compute. reflexivity. Qed.

Lemma mem_ba_holds : holds mem_ba tree_ba.
Proof. split; [rep_example | bst_example]. Qed.

Lemma mem_badc_run : run ops_badc New = Ret tt mem_badc.
Proof. vm_compute. reflexivity. Qed.

Lemma mem_badc_holds : holds mem_badc tree_badc.
Proof. split; [rep_example | bst_example]. Qed.

(** ** Order of the scan results *)

Lemma scan_keys_kptrs s t es :
  holds s t → (∀ e, e ∈ es → e ∈ entries t) →
  scan_keys (Ret (kptrs es) s) = (λ e : positive * Key, K e.2) <$> es.
Proof.
  intros Hh. unfold scan_keys, kptrs.
  induction es as [|[q k] es IH]; intros Hsub; [done|].
  simpl. rewrite (holds_entry s t q k) by (done || apply Hsub; left). simpl.
  f_equal. apply IH. intros e He. apply Hsub. by right.
Qed.

Lemma ascending_filter (P : positive * Key → Prop) `{∀ x, Decision (P x)} es :
  ascending ((λ e : positive * Key, K e.2) <$> es) →
  ascending ((λ e : positive * Key, K e.2) <$> filter P es).
Proof.
  induction es as [|e es IH]; [done|].
  simpl. intros [F A]. rewrite filter_cons. destruct (decide (P e)); [|auto].
  simpl. split; [|auto].
  rewrite Forall_fmap in *. by apply Forall_filter_keep.
Qed.

(** [Range], [GreaterThan] and [NGet] visit left, self, right: their
    results ascend strictly. *)
Lemma inorder_scans_ascending s t lo hi x :
  holds s t →
  ascending (scan_keys (Range lo hi s)) ∧
  ascending (scan_keys (GreaterThan x s)) ∧
  ascending (scan_keys (NGet x s)).
Proof.
  intros Hh. pose proof (bst_ascending t (proj2 Hh)) as Hasc. unfold tkeys in Hasc.
  rewrite (Range_spec s t), (GreaterThan_spec s t), (NGet_spec s t) by done.
  rewrite !(scan_keys_kptrs s t) by
    (done || intros e He; by apply list_elem_of_filter in He as [_ He]).
  repeat split; by apply ascending_filter.
Qed.

(** * The claims *)

(** C1 (the code departs from it). [greaterThanEq], [lessThan] and
    [lessThanEq] append the key of a node before they descend into its left
    subtree, so they emit in pre-order. On the tree that [Put "b"] then
    [Put "a"] builds (root "b", left child "a") the three scans return "b"
    before "a": the result is not in ascending order. *)
Theorem preorder_scans_not_ascending :
  run ops_ba New = Ret tt mem_ba ∧
  scan_keys (GreaterThanEq (bytes_of "a") mem_ba) = [bytes_of "b"; bytes_of "a"] ∧
  scan_keys (LessThan (bytes_of "c") mem_ba) = [bytes_of "b"; bytes_of "a"] ∧
  scan_keys (LessThanEq (bytes_of "b") mem_ba) = [bytes_of "b"; bytes_of "a"] ∧
  ¬ ascending [bytes_of "b"; bytes_of "a"].
Proof.
  split; [exact mem_ba_run|].
  repeat split; try (vm_compute; reflexivity).
  simpl. intros [F _]. apply Forall_cons in F as [F _]. vm_compute in F. discriminate.
Qed.

(** C2. Whatever sequence of [Put], [Delete] and [Remove] calls is run on a
    new tree, every call returns and the memory then holds a tree with the
    BST property: at every node the keys of the left subtree compare less
    and the keys of the right subtree compare greater; the in-order keys
    ascend strictly, so no key occurs twice, and no node is shared. *)
Theorem bst_invariant_preserved (ops : list op) :
  ∃ s t, run ops New = Ret tt s ∧ rep s (Root s) t ∧ bst t ∧
         ascending (tkeys t) ∧ NoDup (tkeys t) ∧ NoDup (nlocs t).
Proof.
  destruct (run_holds ops New Leaf holds_New) as (s & t & E & H & Hb).
  exists s, t. repeat split; auto.
  - by apply bst_ascending.
  - by apply ascending_NoDup, bst_ascending.
  - eapply rep_bst_NoDup_nlocs; eauto.
Qed.

(** C7. On a memory that holds a search tree, [Get] returns the pointer to
    the key record whose sort key equals the argument when the tree has such
    a record, and nil when it has none; in both cases it returns normally and
    leaves the memory as it was.  On the empty tree it returns nil. *)
Theorem Get_found_or_nil s t (H : holds s t) :
  (∀ q k, (q, k) ∈ entries t →
          Get (K k) s = Ret (Some q) s ∧ key_at s !! q = Some k) ∧
  (∀ key, key ∉ tkeys t → Get key s = Ret None s) ∧
  (∀ key, Get key New = Ret None New).
Proof.
  split; [|split].
  - intros q k Hin. split; [by eapply Get_found|by eapply holds_entry].
  - intros key Habs. by eapply Get_absent.
  - intros key. apply (Get_absent New Leaf key holds_New). apply not_elem_of_nil.
Qed.

Lemma Get_found_or_nil_witness :
  (∀ q k, (q, k) ∈ entries tree_ba →
          Get (K k) mem_ba = Ret (Some q) mem_ba ∧ key_at mem_ba !! q = Some k) ∧
  (∀ key, key ∉ tkeys tree_ba → Get key mem_ba = Ret None mem_ba) ∧
  (∀ key, Get key New = Ret None New).
Proof. apply (Get_found_or_nil mem_ba tree_ba). exact mem_ba_holds. Defined.

(** C5. On a memory that holds a search tree every scan returns exactly the
    key records that satisfy its predicate, each once.  [Range lo hi]: the
    records with [lo <= k <= hi], both bounds included, and the empty slice
    when no key lies in the range; [GreaterThan x]: those with [k > x];
    [NGet x]: all but [x]; these three in in-order.  [GreaterThanEq x],
    [LessThan x] and [LessThanEq x]: those with [k >= x], [k < x], [k <= x],
    as a rearrangement of the in-order list. *)
Theorem scans_return_exact_keys s t (H : holds s t) lo hi x :
  Range lo hi s = Ret (kptrs (filter (in_range lo hi) (entries t))) s ∧
  ((∀ e, e ∈ entries t → ¬ in_range lo hi e) → Range lo hi s = Ret [] s) ∧
  GreaterThan x s = Ret (kptrs (filter (gt_key x) (entries t))) s ∧
  NGet x s = Ret (kptrs (filter (ne_key x) (entries t))) s ∧
  (∃ ks, GreaterThanEq x s = Ret ks s ∧
         ks ≡ₚ kptrs (filter (ge_key x) (entries t))) ∧
  (∃ ks, LessThan x s = Ret ks s ∧
         ks ≡ₚ kptrs (filter (lt_key x) (entries t))) ∧
  (∃ ks, LessThanEq x s = Ret ks s ∧
         ks ≡ₚ kptrs (filter (le_key x) (entries t))) ∧
  NoDup (entries t).
Proof.
  split; [by apply Range_spec|].
  split; [intros Hnone; rewrite (Range_spec s t) by done; by rewrite filter_none|].
  split; [by apply GreaterThan_spec|].
  split; [by apply NGet_spec|].
  split; [eexists; split; [by apply GreaterThanEq_spec|apply kptrs_filter_perm]|].
  split; [eexists; split; [by apply LessThan_spec|apply kptrs_filter_perm]|].
  split; [eexists; split; [by apply LessThanEq_spec|apply kptrs_filter_perm]|].
  by eapply holds_NoDup_entries.
Qed.

Lemma scans_return_exact_keys_witness :
  let lo := bytes_of "a" in
  let hi := bytes_of "b" in
  let x := bytes_of "a" in
  Range lo hi mem_ba = Ret (kptrs (filter (in_range lo hi) (entries tree_ba))) mem_ba ∧
  ((∀ e, e ∈ entries tree_ba → ¬ in_range lo hi e) → Range lo hi mem_ba = Ret [] mem_ba) ∧
  GreaterThan x mem_ba = Ret (kptrs (filter (gt_key x) (entries tree_ba))) mem_ba ∧
  NGet x mem_ba = Ret (kptrs (filter (ne_key x) (entries tree_ba))) mem_ba ∧
  (∃ ks, GreaterThanEq x mem_ba = Ret ks mem_ba ∧
         ks ≡ₚ kptrs (filter (ge_key x) (entries tree_ba))) ∧
  (∃ ks, LessThan x mem_ba = Ret ks mem_ba ∧
         ks ≡ₚ kptrs (filter (lt_key x) (entries tree_ba))) ∧
  (∃ ks, LessThanEq x mem_ba = Ret ks mem_ba ∧
         ks ≡ₚ kptrs (filter (le_key x) (entries tree_ba))) ∧
  NoDup (entries tree_ba).
Proof. apply (scans_return_exact_keys mem_ba tree_ba). exact mem_ba_holds. Defined.

Lemma Put_values s t key v :
  holds s t →
  ∃ s' t' q, Put key v s = Ret tt s' ∧ holds s' t' ∧
             Get key s' = Ret (Some q) s' ∧
             key_at s' !! q = Some (mkKey key (default [] (values_of key s) ++ [v])).
Proof.
  intros Hh. destruct (decide (key ∈ tkeys t)) as [Hin|Habs].
  - apply elem_of_tkeys in Hin as (q & k & Hin & <-).
    destruct (Put_present_holds s t q k v Hh Hin) as (s' & E & Hh').
    set (k' := mkKey (K k) (Values k ++ [v])) in *.
    assert ((q, k') ∈ entries (tree_store t q k')) as Hin'.
    { rewrite entries_store. apply list_elem_of_fmap. exists (q, k).
      simpl. by rewrite decide_True. }
    exists s', (tree_store t q k'), q.
    split; [done|]. split; [done|]. split.
    + by apply (Get_found s' (tree_store t q k') q k').
    + rewrite (values_of_found s t q k) by done. simpl.
      by apply (holds_entry s' (tree_store t q k') q k').
  - destruct (Put_absent s t key v Hh Habs) as (s' & E & Hh' & HK).
    set (k' := mkKey key [v]) in *.
    assert ((new_key_addr s, k') ∈ entries (tree_put t (new_node_addr s) (new_key_addr s) key v))
      as Hin'.
    { rewrite entries_tree_put by done. left. }
    eexists s', _, (new_key_addr s).
    split; [done|]. split; [exact Hh'|]. split.
    + by apply (Get_found s' _ _ k' Hh').
    + rewrite (values_of_absent s t) by done. simpl.
      by apply (holds_entry s' _ _ k' Hh').
Qed.

(** C3, as amended. On a memory that holds a search tree, [Put key v1]
    returns normally (it neither panics nor runs forever); afterwards
    [Get key] finds a key record whose sort key is [key] and whose values are
    the values [key] had before (none when it was absent) followed by [v1].
    A second [Put key v2] appends [v2] behind [v1]: [Get key] then yields
    the old values followed by [v1; v2], which is exactly [[v1; v2]] when
    [key] was absent at the start. *)
Theorem Put_appends_value s t key v1 v2 (H : holds s t) :
  ∃ s1 s2 q k1,
    Put key v1 s = Ret tt s1 ∧
    Get key s1 = Ret (Some q) s1 ∧ key_at s1 !! q = Some k1 ∧
    K k1 = key ∧ Values k1 = default [] (values_of key s) ++ [v1] ∧
    Put key v2 s1 = Ret tt s2 ∧
    values_of key s2 = Some (default [] (values_of key s) ++ [v1; v2]) ∧
    (values_of key s = None → values_of key s2 = Some [v1; v2]).
Proof.
  destruct (Put_values s t key v1 H) as (s1 & t1 & q & E1 & H1 & G1 & K1).
  destruct (Put_values s1 t1 key v2 H1) as (s2 & t2 & q2 & E2 & H2 & G2 & K2).
  assert (values_of key s1 = Some (default [] (values_of key s) ++ [v1])) as V1.
  { unfold values_of. by rewrite G1, K1. }
  assert (values_of key s2 = Some (default [] (values_of key s) ++ [v1; v2])) as V2.
  { unfold values_of at 1. rewrite G2, K2, V1. simpl. by rewrite <- app_assoc. }
  exists s1, s2, q, (mkKey key (default [] (values_of key s) ++ [v1])).
  repeat split; try done.
  intros Hnone. by rewrite V2, Hnone.
Qed.

Lemma Put_appends_value_witness :
  ∃ s1 s2 q k1,
    Put (bytes_of "k") (bytes_of "v1") mem_ba = Ret tt s1 ∧
    Get (bytes_of "k") s1 = Ret (Some q) s1 ∧ key_at s1 !! q = Some k1 ∧
    K k1 = bytes_of "k" ∧
    Values k1 = default [] (values_of (bytes_of "k") mem_ba) ++ [bytes_of "v1"] ∧
    Put (bytes_of "k") (bytes_of "v2") s1 = Ret tt s2 ∧
    values_of (bytes_of "k") s2 =
      Some (default [] (values_of (bytes_of "k") mem_ba) ++ [bytes_of "v1"; bytes_of "v2"]) ∧
    (values_of (bytes_of "k") mem_ba = None →
     values_of (bytes_of "k") s2 = Some [bytes_of "v1"; bytes_of "v2"]).
Proof. apply (Put_appends_value mem_ba tree_ba). exact mem_ba_holds. Defined.

(** C3, the instance as it is written fails when the key is already there:
    after [Put "k" "a"], the calls [Put "k" "v1"] and [Put "k" "v2"] leave
    the values ["a"; "v1"; "v2"], not ["v1"; "v2"]. *)
Lemma Put_twice_keeps_older_values :
  run ops_k New = Ret tt mem_k ∧
  ∃ s1 s2,
    Put (bytes_of "k") (bytes_of "v1") mem_k = Ret tt s1 ∧
    Put (bytes_of "k") (bytes_of "v2") s1 = Ret tt s2 ∧
    values_of (bytes_of "k") s2 = Some [bytes_of "a"; bytes_of "v1"; bytes_of "v2"] ∧
    values_of (bytes_of "k") s2 ≠ Some [bytes_of "v1"; bytes_of "v2"].
Proof.
  split; [vm_compute; reflexivity|].
  eexists _, _. split; [vm_compute; reflexivity|].
  split; [vm_compute; reflexivity|].
  split; [vm_compute; reflexivity|].
  vm_compute. discriminate.
Qed.

(** ** Remove *)

(** C6. On a memory that holds a search tree with a key record [k],
    [Remove (K k) value] writes back the values of [k] without the first
    element that equals [value]: for [Values k = l1 ++ value :: l2] with
    [value] not in [l1] the new values are [l1 ++ l2], so the order of the
    others is kept and later copies of [value] stay.  Nothing else changes.
    When [value] does not occur, and when the key is not in the tree, the
    memory is left as it was. *)
Theorem Remove_first_occurrence s t value (H : holds s t) :
  (∀ q k, (q, k) ∈ entries t →
     ∃ s', Remove (K k) value s = Ret tt s' ∧
           Root s' = Root s ∧ node_at s' = node_at s ∧
           key_at s' = <[q := mkKey (K k) (remove_first value (Values k))]> (key_at s) ∧
           values_of (K k) s' = Some (remove_first value (Values k)) ∧
           (∀ l1 l2, Values k = l1 ++ value :: l2 → value ∉ l1 →
                     remove_first value (Values k) = l1 ++ l2) ∧
           (value ∉ Values k → s' = s)) ∧
  (∀ key, key ∉ tkeys t → Remove key value s = Ret tt s).
Proof.
  split; [|intros key Habs; by apply (Remove_absent s t)].
  intros q k Hin.
  pose proof (holds_entry s t q k H Hin) as Hq.
  rewrite (Remove_found s t q k value H Hin).
  pose proof (remove_loop_remove_first (Values k) value) as Hloop.
  assert (∀ l1 l2, Values k = l1 ++ value :: l2 → value ∉ l1 →
                   remove_first value (Values k) = l1 ++ l2) as Hsplit.
  { intros l1 l2 -> Hnot. by apply remove_first_found. }
  destruct (remove_loop _ _ _ _) as [values|] eqn:E; simpl in Hloop.
  - subst values. eexists. split; [done|]. simpl.
    repeat split; try done.
    + set (k' := mkKey (K k) (remove_first value (Values k))).
      pose proof (holds_store s t q k k' H Hq eq_refl) as Hh'.
      apply (values_of_found _ _ q k' Hh').
      rewrite entries_store. apply list_elem_of_fmap. exists (q, k).
      simpl. by rewrite decide_True.
    + intros Hnot. by rewrite remove_loop_none in E.
  - exists s. split; [done|]. split; [done|]. split; [done|].
    split; [by rewrite <- Hloop, Key_eta, insert_id|].
    split; [|done].
    rewrite <- Hloop. by apply (values_of_found s t q k).
Qed.

Lemma Remove_first_occurrence_witness :
  (∀ q k, (q, k) ∈ entries tree_ba →
     ∃ s', Remove (K k) (bytes_of "1") mem_ba = Ret tt s' ∧
           Root s' = Root mem_ba ∧ node_at s' = node_at mem_ba ∧
           key_at s' =
             <[q := mkKey (K k) (remove_first (bytes_of "1") (Values k))]> (key_at mem_ba) ∧
           values_of (K k) s' = Some (remove_first (bytes_of "1") (Values k)) ∧
           (∀ l1 l2, Values k = l1 ++ bytes_of "1" :: l2 → bytes_of "1" ∉ l1 →
                     remove_first (bytes_of "1") (Values k) = l1 ++ l2) ∧
           (bytes_of "1" ∉ Values k → s' = mem_ba)) ∧
  (∀ key, key ∉ tkeys tree_ba → Remove key (bytes_of "1") mem_ba = Ret tt mem_ba).
Proof. apply (Remove_first_occurrence mem_ba tree_ba). exact mem_ba_holds. Defined.

(** C8. On a memory that holds a search tree, [Delete] of a key that is not
    in the tree, [Remove] of a key that is not in the tree and [Remove] of a
    value that the key does not have all return with the memory exactly as it
    was: the same root, nodes, links, key records and values, hence the same
    answer from every [Get] and every scan. *)
Theorem absent_Delete_Remove_noop s t (H : holds s t) :
  (∀ key, key ∉ tkeys t → Delete key s = Ret tt s) ∧
  (∀ key value, key ∉ tkeys t → Remove key value s = Ret tt s) ∧
  (∀ q k value, (q, k) ∈ entries t → value ∉ Values k →
                Remove (K k) value s = Ret tt s).
Proof.
  split; [|split].
  - intros key Habs. by apply (Delete_absent s t).
  - intros key value Habs. by apply (Remove_absent s t).
  - intros q k value Hin Hnot.
    rewrite (Remove_found s t q k value H Hin).
    by rewrite remove_loop_none.
Qed.

Lemma absent_Delete_Remove_noop_witness :
  (∀ key, key ∉ tkeys tree_ba → Delete key mem_ba = Ret tt mem_ba) ∧
  (∀ key value, key ∉ tkeys tree_ba → Remove key value mem_ba = Ret tt mem_ba) ∧
  (∀ q k value, (q, k) ∈ entries tree_ba → value ∉ Values k →
                Remove (K k) value mem_ba = Ret tt mem_ba).
Proof. apply (absent_Delete_Remove_noop mem_ba tree_ba). exact mem_ba_holds. Defined.

(** ** Delete *)

Lemma leftmost_entries_delete r b qm km :
  bst r → leftmost r = Some (b, qm, km) →
  entries r = (qm, km) :: entries (tree_delete r (K km)).
Proof.
  intros Hb Hlm.
  destruct (leftmost_entries r) as (b' & qm' & km' & rest & E & Hent & _).
  { by destruct r. }
  rewrite Hlm in E. injection E as <- <- <-.
  rewrite entries_tree_delete, Hent by done.
  rewrite filter_cons_False by (unfold ne_key; simpl; tauto).
  rewrite filter_all; [done|].
  intros e He Heq. unfold ne_key in Heq.
  pose proof (bst_head_least _ _ _ _ Hb Hent e He) as Hlt.
  rewrite Heq, Compare_refl in Hlt. lia.
Qed.

Lemma rep_root_of s p t : rep s p t → p = root_of t.
Proof. by inversion 1. Qed.

Lemma subtree_height t' t : subtree t' t → (height t' ≤ height t)%nat.
Proof. induction 1; simpl; lia. Qed.

(** C4. On a memory that holds a search tree, [Delete key] returns with a
    memory that again holds a search tree, whose key records are those of
    before without the one for [key], in the same order.  Afterwards
    [Get key] returns nil, and every other key is found at the same key
    record with the same contents; no key record is written.  When [key] was
    not in the tree the memory is unchanged.  When the node [a] that holds
    [key] has two children, [minValueNode] finds the leftmost node [b] of
    its right subtree; afterwards [a] is still in its place with the same
    left subtree, its [Key] field is the pointer [b] had (the successor's
    key record itself, not a copy), and the right subtree is the old one
    without the node [b], which is no longer in the tree. *)
Theorem Delete_removes_key s t key (H : holds s t) :
  ∃ s' t',
    Delete key s = Ret tt s' ∧ holds s' t' ∧
    Get key s' = Ret None s' ∧
    key_at s' = key_at s ∧
    (∀ q k, (q, k) ∈ entries t → K k ≠ key →
            Get (K k) s' = Ret (Some q) s' ∧ key_at s' !! q = Some k) ∧
    entries t' = filter (ne_key key) (entries t) ∧
    (key ∉ tkeys t → s' = s) ∧
    (∀ l a q k r,
       subtree (Br l a q k r) t → K k = key → l ≠ Leaf → r ≠ Leaf →
       ∃ n b m qm km n',
         node_at s !! a = Some n ∧
         minValueNode (budget s) (Right n) s = Ret (Some b) s ∧
         node_at s !! b = Some m ∧ Node_Key m = Some qm ∧
         leftmost r = Some (b, qm, km) ∧
         entries r = (qm, km) :: entries (tree_delete r (K km)) ∧
         nlocs r = b :: nlocs (tree_delete r (K km)) ∧
         subtree (Br l a qm km (tree_delete r (K km))) t' ∧
         node_at s' !! a = Some n' ∧ Node_Key n' = Node_Key m ∧
         Left n' = Left n ∧
         b ∉ nlocs t').
Proof.
  destruct (Delete_spec s t key H) as (s' & E & Hh' & HK).
  pose proof H as [Hrep Hb].
  pose proof (rep_bst_NoDup_nlocs _ _ _ Hrep Hb) as Hnd.
  exists s', (tree_delete t key).
  split; [done|]. split; [done|].
  split.
  { apply (Get_absent s' (tree_delete t key) key Hh').
    rewrite tkeys_tree_delete by done.
    intros Hin. by apply list_elem_of_filter in Hin as [Hne _]. }
  split; [done|].
  split.
  { intros q k Hin Hne.
    assert ((q, k) ∈ entries (tree_delete t key)) as Hin'.
    { rewrite entries_tree_delete by done. by apply list_elem_of_filter. }
    split; [by apply (Get_found s' (tree_delete t key))|].
    rewrite HK. by apply (holds_entry s t). }
  split; [by apply entries_tree_delete|].
  split.
  { intros Habs. rewrite (Delete_absent s t key H Habs) in E. by injection E. }
  intros l a q k r Hsub HKk Hl Hr. subst key.
  destruct (rep_subtree _ _ _ _ Hrep Hsub) as (p0 & Hrep0).
  inversion Hrep0 as [|? n ? ? ? ? Hn Hq Hkq Hrl Hrr]; subst.
  destruct (minValueNode_spec s (Right n) r (budget s) Hrr Hr)
    as (b & qm & km & Hlm & Hmin).
  { pose proof (subtree_height _ _ Hsub) as Hle. simpl in Hle.
    pose proof (holds_budget s t H). lia. }
  destruct (leftmost_rep _ _ _ _ _ _ Hrr Hlm) as (m & Hm & Hmq & Hmk & _).
  pose proof (subtree_bst_right _ _ _ _ _ _ Hsub Hb) as Hbr.
  destruct (two_child_delete t l a q k r b qm km Hnd Hb Hsub Hl Hr Hlm)
    as [Hsub' Hbnot].
  destruct Hh' as [Hrep' Hb'].
  destruct (rep_subtree _ _ _ _ Hrep' Hsub') as (p1 & Hrep1).
  inversion Hrep1 as [|? n' ? ? ? ? Hn' Hq' Hkq' Hrl' Hrr']; subst.
  exists n, b, m, qm, km, n'.
  split; [done|]. split; [done|]. split; [done|]. split; [done|].
  split; [done|].
  split; [by apply (leftmost_entries_delete r b qm km)|].
  split; [by apply (leftmost_nlocs_delete r b qm km)|].
  split; [done|]. split; [done|].
  split; [by rewrite Hq', Hmq|].
  split; [|done].
  by rewrite (rep_root_of _ _ _ Hrl), (rep_root_of _ _ _ Hrl').
Qed.

Lemma Delete_removes_key_witness :
  ∃ s' t',
    Delete (bytes_of "b") mem_badc = Ret tt s' ∧ holds s' t' ∧
    Get (bytes_of "b") s' = Ret None s' ∧
    key_at s' = key_at mem_badc ∧
    (∀ q k, (q, k) ∈ entries tree_badc → K k ≠ bytes_of "b" →
            Get (K k) s' = Ret (Some q) s' ∧ key_at s' !! q = Some k) ∧
    entries t' = filter (ne_key (bytes_of "b")) (entries tree_badc) ∧
    (bytes_of "b" ∉ tkeys tree_badc → s' = mem_badc) ∧
    (∀ l a q k r,
       subtree (Br l a q k r) tree_badc → K k = bytes_of "b" → l ≠ Leaf → r ≠ Leaf →
       ∃ n b m qm km n',
         node_at mem_badc !! a = Some n ∧
         minValueNode (budget mem_badc) (Right n) mem_badc = Ret (Some b) mem_badc ∧
         node_at mem_badc !! b = Some m ∧ Node_Key m = Some qm ∧
         leftmost r = Some (b, qm, km) ∧
         entries r = (qm, km) :: entries (tree_delete r (K km)) ∧
         nlocs r = b :: nlocs (tree_delete r (K km)) ∧
         subtree (Br l a qm km (tree_delete r (K km))) t' ∧
         node_at s' !! a = Some n' ∧ Node_Key n' = Node_Key m ∧
         Left n' = Left n ∧
         b ∉ nlocs t').
Proof. apply (Delete_removes_key mem_badc tree_badc). exact mem_badc_holds. Defined.

(** What [Delete "b"] leaves of the example with a two-child root: the root
    node 1 now points to the key record 4 of "c", and node 4 is unlinked. *)
Example Delete_two_children_example :
  ∃ s', Delete (bytes_of "b") mem_badc = Ret tt s' ∧
        Root s' = Some 1%positive ∧
        node_at s' !! 1%positive = Some (mkNode (Some 4%positive) (Some 2%positive) (Some 3%positive)) ∧
        node_at s' !! 3%positive = Some (mkNode (Some 3%positive) None None) ∧
        scan_keys (NGet [] s') = [bytes_of "a"; bytes_of "c"; bytes_of "d"].
Proof. eexists. split; [vm_compute; reflexivity|]. repeat split. Qed.

(** ** Termination *)

Lemma remove_returns s p t fuel key value :
  rep s p t → bst t → (height t < fuel)%nat →
  ∃ s', remove fuel p key value s = Ret tt s'.
Proof.
  intros H Hb Hf. destruct (decide (key ∈ tkeys t)) as [Hin|Habs].
  - apply elem_of_tkeys in Hin as (q & k & Hin & <-).
    rewrite (remove_found s p t fuel q k value) by done. eauto.
  - rewrite (remove_absent s p t) by done. eauto.
Qed.

(** C9. On a memory that holds a search tree (a finite, acyclic linked
    structure) every operation returns: none runs out of its recursion
    budget and none panics.  The loop of [Put] returns in its first
    iteration, since the compare-and-swap of a slot that was just read as
    nil succeeds (with a budget of one iteration it already returns what
    [Put] returns).  The recursive helpers return for every budget above the
    height of the tree: [get], [remove], [delete] (with its nested call on
    the right subtree) and the scans from the root, [minValueNode] on a
    non-empty tree. *)
Theorem operations_terminate s t key value lo hi (H : holds s t) :
  (∃ s', Put key value s = Ret tt s' ∧
         Put_loop 1 (Some (new_node_addr s)) (with_new_node key value s) = Ret tt s') ∧
  (∃ r, Get key s = Ret r s) ∧
  (∃ s', Remove key value s = Ret tt s') ∧
  (∃ s', Delete key s = Ret tt s') ∧
  (∃ r, Range lo hi s = Ret r s) ∧
  (∃ r, GreaterThan key s = Ret r s) ∧
  (∃ r, GreaterThanEq key s = Ret r s) ∧
  (∃ r, LessThan key s = Ret r s) ∧
  (∃ r, LessThanEq key s = Ret r s) ∧
  (∃ r, NGet key s = Ret r s) ∧
  (∀ fuel, (height t < fuel)%nat →
     (∃ r, get fuel (Root s) key s = Ret r s) ∧
     (∃ s', remove fuel (Root s) key value s = Ret tt s') ∧
     (∃ p' s', delete fuel (Root s) key s = Ret p' s') ∧
     (t ≠ Leaf → ∃ b, minValueNode fuel (Root s) s = Ret (Some b) s) ∧
     (∀ acc, ∃ r, rangeKeys fuel (Root s) lo hi acc s = Ret r s) ∧
     (∀ acc, ∃ r, greaterThan fuel (Root s) key acc s = Ret r s) ∧
     (∀ acc, ∃ r, greaterThanEq fuel (Root s) key acc s = Ret r s) ∧
     (∀ acc, ∃ r, lessThan fuel (Root s) key acc s = Ret r s) ∧
     (∀ acc, ∃ r, lessThanEq fuel (Root s) key acc s = Ret r s) ∧
     (∀ acc, ∃ r, nGet fuel (Root s) key acc s = Ret r s)).
Proof.
  pose proof H as [Hrep Hb].
  pose proof (rep_bst_NoDup_nlocs _ _ _ Hrep Hb) as Hnd.
  split.
  { destruct (decide (key ∈ tkeys t)) as [Hin|Habs].
    - apply elem_of_tkeys in Hin as (q & k & Hin & <-).
      eexists. split; [by apply (Put_present s t q k)|].
      by apply (Put_loop_present 0 s t q k).
    - destruct (Put_loop_absent s t key value H Habs) as (s' & E & _).
      exists s'. split; [|apply E]. rewrite Put_alloc. apply E. }
  split.
  { destruct (get_result s (Root s) t (budget s) key Hrep (holds_budget s t H))
      as (r & E & _). by exists r. }
  split; [destruct (Remove_holds s t key value H) as (s' & _ & E & _); eauto|].
  split; [destruct (Delete_spec s t key H) as (s' & E & _); eauto|].
  split; [rewrite (Range_spec s t) by done; eauto|].
  split; [rewrite (GreaterThan_spec s t) by done; eauto|].
  split; [rewrite (GreaterThanEq_spec s t) by done; eauto|].
  split; [rewrite (LessThan_spec s t) by done; eauto|].
  split; [rewrite (LessThanEq_spec s t) by done; eauto|].
  split; [rewrite (NGet_spec s t) by done; eauto|].
  intros fuel Hf.
  split.
  { destruct (get_result s (Root s) t fuel key Hrep Hf) as (r & E & _). by exists r. }
  split; [by apply (remove_returns s (Root s) t)|].
  split.
  { destruct (delete_spec t s (Root s) fuel key Hrep Hnd Hf) as (s' & p' & E & _). eauto. }
  split.
  { intros Hne.
    destruct (minValueNode_spec s (Root s) t fuel Hrep Hne Hf) as (b & _ & _ & _ & E).
    eauto. }
  split; [intros acc; rewrite (rangeKeys_spec s (Root s) t) by done; eauto|].
  split; [intros acc; rewrite (greaterThan_spec s (Root s) t) by done; eauto|].
  split; [intros acc; rewrite (greaterThanEq_spec s (Root s) t) by done; eauto|].
  split; [intros acc; rewrite (lessThan_spec s (Root s) t) by done; eauto|].
  split; [intros acc; rewrite (lessThanEq_spec s (Root s) t) by done; eauto|].
  intros acc. rewrite (nGet_spec s (Root s) t) by done. eauto.
Qed.

Lemma operations_terminate_witness :
  let s := mem_badc in
  let t := tree_badc in
  let key := bytes_of "b" in
  let value := bytes_of "1" in
  let lo := bytes_of "a" in
  let hi := bytes_of "c" in
  (∃ s', Put key value s = Ret tt s' ∧
         Put_loop 1 (Some (new_node_addr s)) (with_new_node key value s) = Ret tt s') ∧
  (∃ r, Get key s = Ret r s) ∧
  (∃ s', Remove key value s = Ret tt s') ∧
  (∃ s', Delete key s = Ret tt s') ∧
  (∃ r, Range lo hi s = Ret r s) ∧
  (∃ r, GreaterThan key s = Ret r s) ∧
  (∃ r, GreaterThanEq key s = Ret r s) ∧
  (∃ r, LessThan key s = Ret r s) ∧
  (∃ r, LessThanEq key s = Ret r s) ∧
  (∃ r, NGet key s = Ret r s) ∧
  (∀ fuel, (height t < fuel)%nat →
     (∃ r, get fuel (Root s) key s = Ret r s) ∧
     (∃ s', remove fuel (Root s) key value s = Ret tt s') ∧
     (∃ p' s', delete fuel (Root s) key s = Ret p' s') ∧
     (t ≠ Leaf → ∃ b, minValueNode fuel (Root s) s = Ret (Some b) s) ∧
     (∀ acc, ∃ r, rangeKeys fuel (Root s) lo hi acc s = Ret r s) ∧
     (∀ acc, ∃ r, greaterThan fuel (Root s) key acc s = Ret r s) ∧
     (∀ acc, ∃ r, greaterThanEq fuel (Root s) key acc s = Ret r s) ∧
     (∀ acc, ∃ r, lessThan fuel (Root s) key acc s = Ret r s) ∧
     (∀ acc, ∃ r, lessThanEq fuel (Root s) key acc s = Ret r s) ∧
     (∀ acc, ∃ r, nGet fuel (Root s) key acc s = Ret r s)).
Proof. intros s t key value lo hi. apply (operations_terminate s t). exact mem_badc_holds. Defined.

(** ** Put on a key that is there *)

(** C10. On a memory that holds a search tree with a key record [k] at
    address [q], [Put (K k) value] returns with the root pointer as it was
    and every node that existed before unchanged in all its fields ([Key],
    [Left], [Right]); the tree has the same shape, the same nodes at the same
    places and the same key records.  (The node that [Put] allocates before
    it searches stays unlinked.)  The only record of the tree that differs is
    [q]: its values are the old ones followed by [value]. *)
Theorem Put_existing_key_frame s t q k value
    (H : holds s t) (Hin : (q, k) ∈ entries t) :
  ∃ s' t',
    Put (K k) value s = Ret tt s' ∧ holds s' t' ∧
    Root s' = Root s ∧
    (∀ a, a ∈ dom (node_at s) → node_at s' !! a = node_at s !! a) ∧
    (new_node_addr s ∉ nlocs t') ∧
    nlocs t' = nlocs t ∧ links t' = links t ∧
    key_at s' !! q = Some (mkKey (K k) (Values k ++ [value])) ∧
    (∀ q', q' ∈ dom (key_at s) → q' ≠ q → key_at s' !! q' = key_at s !! q').
Proof.
  destruct (Put_present_holds s t q k value H Hin) as (s' & E & Hh').
  pose proof (holds_entry s t q k H Hin) as Hq.
  pose proof (holds_entry _ _ q k (holds_with_new_node s t (K k) value H) Hin) as Hq2.
  exists s', (tree_store t q (mkKey (K k) (Values k ++ [value]))).
  rewrite (Put_present s t q k value H Hin) in E. injection E as <-.
  split; [by apply (Put_present s t q k)|]. split; [done|]. split; [done|].
  split.
  { intros a Ha. simpl. rewrite lookup_insert_ne; [done|].
    intros <-. apply elem_of_dom in Ha as [n Hn]. by rewrite new_node_fresh in Hn. }
  split.
  { rewrite nlocs_store. destruct H as [Hrep _]. by apply (new_node_not_in s (Root s)). }
  split; [by apply nlocs_store|].
  split.
  { destruct (holds_with_new_node s t (K k) value H) as [Hrep2 _].
    by apply (links_store _ _ _ _ _ _ Hrep2 Hq2). }
  split; [simpl; apply lookup_insert_eq|].
  intros q' Hq' Hne. simpl. rewrite lookup_insert_ne by done.
  rewrite lookup_insert_ne; [done|].
  intros <-. apply elem_of_dom in Hq' as [k0 Hk0]. by rewrite new_key_fresh in Hk0.
Qed.

Lemma Put_existing_key_frame_witness :
  let s := mem_ba in
  let t := tree_ba in
  let q := 2%positive in
  let k := mkKey (bytes_of "a") [bytes_of "2"] in
  let value := bytes_of "3" in
  ∃ s' t',
    Put (K k) value s = Ret tt s' ∧ holds s' t' ∧
    Root s' = Root s ∧
    (∀ a, a ∈ dom (node_at s) → node_at s' !! a = node_at s !! a) ∧
    (new_node_addr s ∉ nlocs t') ∧
    nlocs t' = nlocs t ∧ links t' = links t ∧
    key_at s' !! q = Some (mkKey (K k) (Values k ++ [value])) ∧
    (∀ q', q' ∈ dom (key_at s) → q' ≠ q → key_at s' !! q' = key_at s !! q').
Proof.
  intros s t q k value. apply (Put_existing_key_frame s t q k value).
  - exact mem_ba_holds.
  - simpl. set_solver.
Defined.

(** * Further properties of the package *)

(** ** Put and the other keys *)

Lemma entries_store_other t q k' q0 k0 :
  (q0, k0) ∈ entries t → q0 ≠ q → (q0, k0) ∈ entries (tree_store t q k').
Proof.
  intros Hin Hne. rewrite entries_store. apply list_elem_of_fmap.
  exists (q0, k0). simpl. by rewrite decide_False.
Qed.

Lemma entries_store_same t q k k' :
  (q, k) ∈ entries t → (q, k') ∈ entries (tree_store t q k').
Proof.
  intros Hin. rewrite entries_store. apply list_elem_of_fmap.
  exists (q, k). simpl. by rewrite decide_True.
Qed.

(** X1. [Put key v] moves no key record: every key that was in the tree is
    found afterwards at the same [*Key] pointer, [key] itself included when
    it was there, and the records of the other keys have the contents they
    had. *)
Theorem Put_keeps_other_keys s t key v (H : holds s t) :
  ∃ s', Put key v s = Ret tt s' ∧
        ∀ q k, (q, k) ∈ entries t →
               Get (K k) s' = Ret (Some q) s' ∧
               (K k ≠ key → key_at s' !! q = Some k).
Proof.
  destruct (decide (key ∈ tkeys t)) as [Hin|Habs].
  - apply elem_of_tkeys in Hin as (q & k & Hin & <-).
    destruct (Put_present_holds s t q k v H Hin) as (s' & E & Hh').
    set (k' := mkKey (K k) (Values k ++ [v])) in *.
    exists s'. split; [done|]. intros q0 k0 Hin0.
    destruct (decide (q0 = q)) as [->|Hne].
    + assert (k0 = k) as ->.
      { pose proof (holds_entry s t q k0 H Hin0) as E0.
        rewrite (holds_entry s t q k H Hin) in E0. congruence. }
      split; [|done].
      apply (Get_found s' _ q k' Hh'). by apply (entries_store_same t q k).
    + pose proof (entries_store_other t q k' q0 k0 Hin0 Hne) as Hin'.
      split; [by apply (Get_found s' _ q0 k0 Hh')|].
      intros _. by apply (holds_entry s' _ q0 k0 Hh').
  - destruct (Put_absent s t key v H Habs) as (s' & E & Hh' & HK).
    exists s'. split; [done|]. intros q0 k0 Hin0.
    assert ((q0, k0) ∈ entries (tree_put t (new_node_addr s) (new_key_addr s) key v))
      as Hin' by (rewrite entries_tree_put by done; by right).
    split; [by apply (Get_found s' _ q0 k0 Hh')|].
    intros _. by apply (holds_entry s' _ q0 k0 Hh').
Qed.

Lemma Put_keeps_other_keys_witness :
  ∃ s', Put (bytes_of "c") (bytes_of "3") mem_ba = Ret tt s' ∧
        ∀ q k, (q, k) ∈ entries tree_ba →
               Get (K k) s' = Ret (Some q) s' ∧
               (K k ≠ bytes_of "c" → key_at s' !! q = Some k).
Proof. apply (Put_keeps_other_keys mem_ba tree_ba). exact mem_ba_holds. Defined.

(** X2. [Put key v] changes the set of keys by [key] alone: afterwards a key
    is in the tree exactly when it is [key] or was in the tree before.  [Get]
    shows it: it returns nil afterwards exactly for the keys other than
    [key] for which it returned nil before. *)
Theorem Put_adds_only_its_key s t key v (H : holds s t) :
  ∃ s' t', Put key v s = Ret tt s' ∧ holds s' t' ∧
           (∀ x, x ∈ tkeys t' ↔ x = key ∨ x ∈ tkeys t) ∧
           (∀ x, Get x s' = Ret None s' ↔ x ≠ key ∧ Get x s = Ret None s).
Proof.
  assert (∀ s0 t0 x, holds s0 t0 → Get x s0 = Ret None s0 ↔ x ∉ tkeys t0) as Hnil.
  { intros s0 t0 x Hh0. split.
    - intros E Hx. apply elem_of_tkeys in Hx as (q & k & Hin & <-).
      rewrite (Get_found s0 t0 q k Hh0 Hin) in E. discriminate.
    - by apply Get_absent. }
  assert (∃ s' t', Put key v s = Ret tt s' ∧ holds s' t' ∧
                   ∀ x, x ∈ tkeys t' ↔ x = key ∨ x ∈ tkeys t)
    as (s' & t' & E & Hh' & Hkeys).
  { destruct (decide (key ∈ tkeys t)) as [Hin|Habs].
    - pose proof Hin as Hin0.
      apply elem_of_tkeys in Hin as (q & k & Hin & <-).
      destruct (Put_present_holds s t q k v H Hin) as (s' & E & Hh').
      exists s', (tree_store t q (mkKey (K k) (Values k ++ [v]))).
      split; [done|]. split; [done|]. intros x.
      rewrite (tkeys_store s (Root s) t q k) by (done || apply H || by eapply holds_entry).
      split; [auto|]. by intros [->|?].
    - destruct (Put_absent s t key v H Habs) as (s' & E & Hh' & _).
      eexists s', _. split; [done|]. split; [done|]. intros x.
      rewrite tkeys_tree_put by done. by rewrite elem_of_cons. }
  exists s', t'. split; [done|]. split; [done|]. split; [done|].
  intros x. rewrite (Hnil s' t' x Hh'), (Hnil s t x H), Hkeys. tauto.
Qed.

Lemma Put_adds_only_its_key_witness :
  ∃ s' t', Put (bytes_of "c") (bytes_of "3") mem_ba = Ret tt s' ∧ holds s' t' ∧
           (∀ x, x ∈ tkeys t' ↔ x = bytes_of "c" ∨ x ∈ tkeys tree_ba) ∧
           (∀ x, Get x s' = Ret None s' ↔
                 x ≠ bytes_of "c" ∧ Get x mem_ba = Ret None mem_ba).
Proof. apply (Put_adds_only_its_key mem_ba tree_ba). exact mem_ba_holds. Defined.

(** ** Put, Delete and their composition *)

(** A tree in memory fixes every field of its nodes and every key record. *)
Lemma rep_same s s' p p' t :
  rep s p t → rep s' p' t →
  (∀ a, a ∈ nlocs t → node_at s' !! a = node_at s !! a) ∧
  (∀ q, q ∈ klocs t → key_at s' !! q = key_at s !! q).
Proof.
  intros H; revert p'.
  induction H as [|a n q k l r Hn Hq Hk Hl IHl Hr IHr]; intros p' H'.
  - split; intros x Hx; by apply elem_of_nil in Hx.
  - inversion H' as [|? n' ? ? ? ? Hn' Hq' Hk' Hl' Hr']; subst.
    destruct (IHl _ Hl') as [IHl1 IHl2]. destruct (IHr _ Hr') as [IHr1 IHr2].
    assert (n' = n) as ->.
    { destruct n as [nk nl nr], n' as [nk' nl' nr']. simpl in *.
      rewrite (rep_root_of _ _ _ Hl), (rep_root_of _ _ _ Hr).
      rewrite (rep_root_of _ _ _ Hl'), (rep_root_of _ _ _ Hr'). congruence. }
    split.
    + intros x Hx. simpl in Hx. apply elem_of_app in Hx as [Hx|Hx]; [auto|].
      apply elem_of_cons in Hx as [->|Hx]; [congruence|auto].
    + intros x Hx. rewrite klocs_Br in Hx. apply elem_of_app in Hx as [Hx|Hx]; [auto|].
      apply elem_of_cons in Hx as [->|Hx]; [congruence|auto].
Qed.

Lemma tree_delete_tree_put t a q key v :
  key ∉ tkeys t → tree_delete (tree_put t a q key v) key = t.
Proof.
  induction t as [|l IHl b qb k r IHr]; intros Habs.
  - simpl. by rewrite Compare_refl.
  - rewrite tkeys_Br in Habs.
    apply not_elem_of_app in Habs as [Habsl Habs].
    apply not_elem_of_cons in Habs as [Hne Habsr].
    cbn [tree_put].
    destruct (Z.ltb_spec (Compare key (K k)) 0) as [Hlt|Hge].
    { rewrite tree_delete_lt by done. by rewrite IHl. }
    destruct (Z.gtb_spec (Compare key (K k)) 0) as [Hgt|Hle].
    { rewrite tree_delete_gt by lia. by rewrite IHr. }
    destruct Hne. apply Compare_eq. lia.
Qed.

(** X3. [Put] of a key that is not in the tree followed by [Delete] of that
    key gives the tree back as it was: the same root pointer, the same nodes
    with the same [Key], [Left] and [Right] fields, the same key records. *)
Theorem Put_then_Delete_restores s t key v
    (H : holds s t) (Habs : key ∉ tkeys t) :
  ∃ s1 s2, Put key v s = Ret tt s1 ∧ Delete key s1 = Ret tt s2 ∧
           holds s2 t ∧ Root s2 = Root s ∧
           (∀ a, a ∈ nlocs t → node_at s2 !! a = node_at s !! a) ∧
           (∀ q, q ∈ klocs t → key_at s2 !! q = key_at s !! q) ∧
           Get key s2 = Ret None s2.
Proof.
  destruct (Put_absent s t key v H Habs) as (s1 & E1 & Hh1 & _).
  destruct (Delete_spec s1 _ key Hh1) as (s2 & E2 & Hh2 & _).
  rewrite tree_delete_tree_put in Hh2 by done.
  exists s1, s2. split; [done|]. split; [done|]. split; [done|].
  destruct H as [Hrep Hb]. pose proof Hh2 as [Hrep2 _].
  split; [by rewrite (rep_root_of _ _ _ Hrep), (rep_root_of _ _ _ Hrep2)|].
  destruct (rep_same _ _ _ _ _ Hrep Hrep2) as [HN HK].
  split; [done|]. split; [done|]. by apply (Get_absent s2 t).
Qed.

Lemma Put_then_Delete_restores_witness :
  ∃ s1 s2, Put (bytes_of "c") (bytes_of "3") mem_ba = Ret tt s1 ∧
           Delete (bytes_of "c") s1 = Ret tt s2 ∧
           holds s2 tree_ba ∧ Root s2 = Root mem_ba ∧
           (∀ a, a ∈ nlocs tree_ba → node_at s2 !! a = node_at mem_ba !! a) ∧
           (∀ q, q ∈ klocs tree_ba → key_at s2 !! q = key_at mem_ba !! q) ∧
           Get (bytes_of "c") s2 = Ret None s2.
Proof.
  apply (Put_then_Delete_restores mem_ba tree_ba).
  - exact mem_ba_holds.
  - vm_compute. intros Hin. repeat (apply elem_of_cons in Hin as [Hin|Hin]; [discriminate|]).
    by apply elem_of_nil in Hin.
Defined.

(** X4. [Delete] is idempotent: a second [Delete] of the same key returns
    with the memory exactly as the first one left it. *)
Theorem Delete_twice_is_Delete_once s t key (H : holds s t) :
  ∃ s1, Delete key s = Ret tt s1 ∧ Delete key s1 = Ret tt s1.
Proof.
  destruct (Delete_spec s t key H) as (s1 & E1 & Hh1 & _).
  exists s1. split; [done|]. apply (Delete_absent s1 _ key Hh1).
  rewrite tkeys_tree_delete by apply H.
  intros Hin. by apply list_elem_of_filter in Hin as [Hne _].
Qed.

Lemma Delete_twice_is_Delete_once_witness :
  ∃ s1, Delete (bytes_of "b") mem_badc = Ret tt s1 ∧
        Delete (bytes_of "b") s1 = Ret tt s1.
Proof. apply (Delete_twice_is_Delete_once mem_badc tree_badc). exact mem_badc_holds. Defined.

Lemma run_deletes ks : ∀ s t,
  holds s t →
  ∃ s' t', run (deletes ks) s = Ret tt s' ∧ holds s' t' ∧
           entries t' = filter (λ e : positive * Key, K e.2 ∉ ks) (entries t) ∧
           key_at s' = key_at s.
Proof.
  induction ks as [|k ks IH]; intros s t H.
  - exists s, t. split; [done|]. split; [done|]. split; [|done].
    symmetry. apply filter_all. intros e _. apply not_elem_of_nil.
  - destruct (Delete_spec s t k H) as (s1 & E1 & Hh1 & HK1).
    destruct (IH s1 _ Hh1) as (s' & t' & E & Hh' & Hent & HK).
    exists s', t'. split; [|split; [done|split; [|congruence]]].
    + simpl. by rewrite bind_run, E1.
    + rewrite Hent, entries_tree_delete by apply H.
      rewrite list_filter_filter. apply list_filter_iff.
      intros e. unfold ne_key. rewrite not_elem_of_cons. tauto.
Qed.

(** X5. After any sequence of [Delete] calls the tree holds exactly the key
    records whose key was not deleted, in their old order and with their old
    contents; no key record is written.  When every key of the tree is among
    the deleted ones the root is nil again and [Get] returns nil for every
    key. *)
Theorem Deletes_leave_the_other_keys s t ks (H : holds s t) :
  ∃ s' t', run (deletes ks) s = Ret tt s' ∧ holds s' t' ∧
           entries t' = filter (λ e : positive * Key, K e.2 ∉ ks) (entries t) ∧
           key_at s' = key_at s ∧
           ((∀ x, x ∈ tkeys t → x ∈ ks) →
            Root s' = None ∧ ∀ x, Get x s' = Ret None s').
Proof.
  destruct (run_deletes ks s t H) as (s' & t' & E & Hh' & Hent & HK).
  exists s', t'. split; [done|]. split; [done|]. split; [done|]. split; [done|].
  intros Hall.
  assert (t' = Leaf) as ->.
  { rewrite filter_none in Hent.
    - destruct t' as [|l a q k r]; [done|]. simpl in Hent.
      by destruct (entries l).
    - intros [q k] Hin Hnot. apply Hnot, Hall. apply elem_of_tkeys. eauto. }
  destruct Hh' as [Hrep' Hb']. split; [by apply rep_root_of in Hrep'|].
  intros x. apply (Get_absent s' Leaf); [by split|]. apply not_elem_of_nil.
Qed.

Lemma Deletes_leave_the_other_keys_witness :
  let ks := [bytes_of "a"; bytes_of "b"] in
  ∃ s' t', run (deletes ks) mem_ba = Ret tt s' ∧ holds s' t' ∧
           entries t' = filter (λ e : positive * Key, K e.2 ∉ ks) (entries tree_ba) ∧
           key_at s' = key_at mem_ba ∧
           ((∀ x, x ∈ tkeys tree_ba → x ∈ ks) →
            Root s' = None ∧ ∀ x, Get x s' = Ret None s').
Proof. intros ks. apply (Deletes_leave_the_other_keys mem_ba tree_ba). exact mem_ba_holds. Defined.

(** ** Writing values changes no answer *)

Lemma preorder_store t q k' :
  preorder (tree_store t q k') =
  (λ e : positive * Key, if decide (e.1 = q) then (e.1, k') else e) <$> preorder t.
Proof.
  induction t as [|l IHl a q0 k r IHr]; [done|].
  simpl. rewrite fmap_app, IHl, IHr. f_equal. by case_decide.
Qed.

(** A scan looks at the sort key only: rewriting the values of a record
    does not change which records it selects. *)
Lemma kptrs_filter_restore (P : positive * Key → Prop) `{∀ e, Decision (P e)}
    (q : positive) (k k' : Key) (es : list (positive * Key)) :
  (∀ q0 k1 k2, K k1 = K k2 → P (q0, k1) ↔ P (q0, k2)) →
  K k' = K k → (∀ e, e ∈ es → e.1 = q → e.2 = k) →
  kptrs (filter P
           ((λ e : positive * Key, if decide (e.1 = q) then (e.1, k') else e) <$> es)) =
  kptrs (filter P es).
Proof.
  intros HP HK. induction es as [|[q0 k0] es IH]; intros Hes; [done|].
  assert (kptrs (filter P
            ((λ e : positive * Key, if decide (e.1 = q) then (e.1, k') else e) <$> es)) =
          kptrs (filter P es)) as IH'.
  { apply IH. intros e He. apply Hes. by right. }
  rewrite fmap_cons. cbn [fst].
  destruct (decide (q0 = q)) as [->|Hd].
  - assert (k0 = k) as -> by (apply (Hes (q, k0)); [left|done]).
    rewrite !filter_cons.
    pose proof (HP q k' k HK) as Hiff.
    destruct (decide (P (q, k'))), (decide (P (q, k))); try tauto.
    unfold kptrs in *. rewrite !fmap_cons. cbn [fst]. by f_equal.
  - rewrite !filter_cons.
    destruct (decide (P (q0, k0))); [|done].
    unfold kptrs in *. rewrite !fmap_cons. cbn [fst]. by f_equal.
Qed.

Lemma tree_store_store t q k1 k2 :
  tree_store (tree_store t q k1) q k2 = tree_store t q k2.
Proof.
  induction t as [|l IHl a q0 k r IHr]; [done|].
  simpl. rewrite IHl, IHr. f_equal. by repeat case_decide.
Qed.

Lemma tree_store_id s p t q k :
  rep s p t → key_at s !! q = Some k → tree_store t q k = t.
Proof.
  intros H Hq.
  induction H as [|a n q0 k0 l r Hn Hq0 Hk0 Hl IHl Hr IHr]; [done|].
  simpl. rewrite IHl, IHr. f_equal.
  case_decide; [|done]. subst. congruence.
Qed.

Lemma holds_store_same_answers s t q k k' :
  holds s t → key_at s !! q = Some k → K k' = K k →
  same_answers s (mkState (Root s) (node_at s) (<[q := k']> (key_at s))).
Proof.
  intros H Hq HK.
  pose proof (holds_store s t q k k' H Hq HK) as H'.
  set (s' := mkState (Root s) (node_at s) (<[q := k']> (key_at s))) in *.
  assert (∀ e, e ∈ entries t → e.1 = q → e.2 = k) as Hent.
  { intros [q0 k0] Hin Heq. simpl in *. subst q0.
    pose proof (holds_entry s t q k0 H Hin) as E. congruence. }
  assert (∀ e, e ∈ preorder t → e.1 = q → e.2 = k) as Hpre.
  { intros e Hin. apply Hent. by rewrite <- preorder_entries. }
  split; [|split; [|split; [|split; [|split; [|split]]]]].
  - intros x. destruct (decide (x ∈ tkeys t)) as [Hin|Habs].
    + apply elem_of_tkeys in Hin as (q0 & k0 & Hin & <-).
      rewrite (Get_found s t q0 k0 H Hin).
      destruct (decide (q0 = q)) as [->|Hne].
      * assert (k0 = k) as -> by (apply (Hent (q, k0) Hin eq_refl)).
        rewrite <- HK.
        by rewrite (Get_found s' _ q k' H' (entries_store_same t q k k' Hin)).
      * by rewrite (Get_found s' _ q0 k0 H' (entries_store_other t q k' q0 k0 Hin Hne)).
    + rewrite (Get_absent s t x H Habs).
      rewrite (Get_absent s' _ x H'); [done|].
      by rewrite (tkeys_store s (Root s) t q k k') by (done || apply H).
  - intros lo hi. rewrite (Range_spec s' _ lo hi H'), (Range_spec s t lo hi H).
    simpl. f_equal. rewrite entries_store.
    apply (kptrs_filter_restore _ q k k'); [|done|done];
      intros q0 k1 k2 E; unfold in_range, gt_key, ge_key, lt_key, le_key, ne_key; simpl; by rewrite E.
  - intros x. rewrite (GreaterThan_spec s' _ x H'), (GreaterThan_spec s t x H).
    simpl. f_equal. rewrite entries_store.
    apply (kptrs_filter_restore _ q k k'); [|done|done];
      intros q0 k1 k2 E; unfold in_range, gt_key, ge_key, lt_key, le_key, ne_key; simpl; by rewrite E.
  - intros x. rewrite (GreaterThanEq_spec s' _ x H'), (GreaterThanEq_spec s t x H).
    simpl. f_equal. rewrite preorder_store.
    apply (kptrs_filter_restore _ q k k'); [|done|done];
      intros q0 k1 k2 E; unfold in_range, gt_key, ge_key, lt_key, le_key, ne_key; simpl; by rewrite E.
  - intros x. rewrite (LessThan_spec s' _ x H'), (LessThan_spec s t x H).
    simpl. f_equal. rewrite preorder_store.
    apply (kptrs_filter_restore _ q k k'); [|done|done];
      intros q0 k1 k2 E; unfold in_range, gt_key, ge_key, lt_key, le_key, ne_key; simpl; by rewrite E.
  - intros x. rewrite (LessThanEq_spec s' _ x H'), (LessThanEq_spec s t x H).
    simpl. f_equal. rewrite preorder_store.
    apply (kptrs_filter_restore _ q k k'); [|done|done];
      intros q0 k1 k2 E; unfold in_range, gt_key, ge_key, lt_key, le_key, ne_key; simpl; by rewrite E.
  - intros x. rewrite (NGet_spec s' _ x H'), (NGet_spec s t x H).
    simpl. f_equal. rewrite entries_store.
    apply (kptrs_filter_restore _ q k k'); [|done|done];
      intros q0 k1 k2 E; unfold in_range, gt_key, ge_key, lt_key, le_key, ne_key; simpl; by rewrite E.
Qed.

(** The node and key record that [Put] allocates first are not linked:
    no answer depends on them. *)
Lemma with_new_node_same_answers s t key v :
  holds s t → same_answers s (with_new_node key v s).
Proof.
  intros H. pose proof (holds_with_new_node s t key v H) as H'.
  split; [|split; [|split; [|split; [|split; [|split]]]]].
  - intros x. destruct (decide (x ∈ tkeys t)) as [Hin|Habs].
    + apply elem_of_tkeys in Hin as (q0 & k0 & Hin & <-).
      by rewrite (Get_found s t q0 k0 H Hin), (Get_found _ t q0 k0 H' Hin).
    + by rewrite (Get_absent s t x H Habs), (Get_absent _ t x H' Habs).
  - intros lo hi. by rewrite (Range_spec _ t lo hi H'), (Range_spec s t lo hi H).
  - intros x. by rewrite (GreaterThan_spec _ t x H'), (GreaterThan_spec s t x H).
  - intros x. by rewrite (GreaterThanEq_spec _ t x H'), (GreaterThanEq_spec s t x H).
  - intros x. by rewrite (LessThan_spec _ t x H'), (LessThan_spec s t x H).
  - intros x. by rewrite (LessThanEq_spec _ t x H'), (LessThanEq_spec s t x H).
  - intros x. by rewrite (NGet_spec _ t x H'), (NGet_spec s t x H).
Qed.

Lemma same_answers_trans s1 s2 s3 :
  same_answers s1 s2 → same_answers s2 s3 → same_answers s1 s3.
Proof.
  intros (A1 & A2 & A3 & A4 & A5 & A6 & A7) (B1 & B2 & B3 & B4 & B5 & B6 & B7).
  repeat split; intros; etrans; eauto.
Qed.

Lemma same_answers_refl s : same_answers s s.
Proof. by repeat split. Qed.

(** X6. [Remove] takes a value away, never the key: whatever it removes,
    even the last value of a key, [Get] of every key and every scan return
    the same [*Key] pointers as before. *)
Theorem Remove_changes_no_answer s t key value (H : holds s t) :
  ∃ s', Remove key value s = Ret tt s' ∧ same_answers s s'.
Proof.
  destruct (decide (key ∈ tkeys t)) as [Hin|Habs].
  - apply elem_of_tkeys in Hin as (q & k & Hin & <-).
    rewrite (Remove_found s t q k value H Hin).
    destruct (remove_loop _ _ _ _) as [values|].
    + eexists. split; [done|].
      apply (holds_store_same_answers s t q k); [done| |done].
      by apply (holds_entry s t).
    + exists s. split; [done|]. apply same_answers_refl.
  - rewrite (Remove_absent s t key value H Habs).
    exists s. split; [done|]. apply same_answers_refl.
Qed.

Lemma Remove_changes_no_answer_witness :
  ∃ s', Remove (bytes_of "b") (bytes_of "1") mem_ba = Ret tt s' ∧
        same_answers mem_ba s'.
Proof. apply (Remove_changes_no_answer mem_ba tree_ba). exact mem_ba_holds. Defined.

(** X7. [Put] of a key that is already in the tree only appends the value:
    [Get] of every key and every scan return the same [*Key] pointers as
    before. *)
Theorem Put_existing_changes_no_answer s t q k value
    (H : holds s t) (Hin : (q, k) ∈ entries t) :
  ∃ s', Put (K k) value s = Ret tt s' ∧ same_answers s s'.
Proof.
  rewrite (Put_present s t q k value H Hin).
  eexists. split; [done|].
  eapply same_answers_trans; [by apply (with_new_node_same_answers s t (K k) value)|].
  pose proof (holds_with_new_node s t (K k) value H) as H2.
  change (Root s) with (Root (with_new_node (K k) value s)).
  apply (holds_store_same_answers _ t q k); [done| |done].
  by apply (holds_entry _ t).
Qed.

Lemma Put_existing_changes_no_answer_witness :
  ∃ s', Put (K (mkKey (bytes_of "a") [bytes_of "2"])) (bytes_of "3") mem_ba = Ret tt s' ∧
        same_answers mem_ba s'.
Proof.
  apply (Put_existing_changes_no_answer mem_ba tree_ba 2%positive).
  - exact mem_ba_holds.
  - simpl. set_solver.
Defined.

(** X8. [Put key v] followed by [Remove key v] on a key that is in the tree
    and does not have the value [v] gives the key record its old contents
    back, and the tree is the one it was. *)
Theorem Put_then_Remove_restores s t q k v
    (H : holds s t) (Hin : (q, k) ∈ entries t) (Hv : v ∉ Values k) :
  ∃ s1 s2, Put (K k) v s = Ret tt s1 ∧ Remove (K k) v s1 = Ret tt s2 ∧
           key_at s2 !! q = Some k ∧ holds s2 t ∧ values_of (K k) s2 = Some (Values k).
Proof.
  destruct (Put_present_holds s t q k v H Hin) as (s1 & E1 & Hh1).
  set (k1 := mkKey (K k) (Values k ++ [v])) in *.
  pose proof (entries_store_same t q k k1 Hin) as Hin1.
  exists s1. eexists. split; [done|].
  split; [apply (Remove_found s1 _ q k1 v Hh1 Hin1)|].
  change (Values k1) with (Values k ++ [v]).
  pose proof (remove_loop_found [] (Values k) [] v Hv) as Hloop.
  simpl in Hloop. rewrite Hloop. rewrite app_nil_r. change (K k1) with (K k).
  rewrite Key_eta.
  assert (holds (mkState (Root s1) (node_at s1) (<[q := k]> (key_at s1))) t) as Hh2.
  { pose proof (holds_store s1 _ q k1 k Hh1 (holds_entry s1 _ q k1 Hh1 Hin1) eq_refl) as Hs.
    rewrite tree_store_store in Hs.
    destruct H as [Hrep _].
    by rewrite (tree_store_id s _ t q k Hrep (rep_entry_lookup _ _ _ _ _ Hrep Hin)) in Hs. }
  split; [simpl; apply lookup_insert_eq|]. split; [done|].
  by apply (values_of_found _ t q k).
Qed.

Lemma Put_then_Remove_restores_witness :
  let k := mkKey (bytes_of "b") [bytes_of "1"] in
  let v := bytes_of "9" in
  ∃ s1 s2, Put (K k) v mem_ba = Ret tt s1 ∧ Remove (K k) v s1 = Ret tt s2 ∧
           key_at s2 !! 1%positive = Some k ∧ holds s2 tree_ba ∧
           values_of (K k) s2 = Some (Values k).
Proof.
  intros k v. apply (Put_then_Remove_restores mem_ba tree_ba 1%positive k v).
  - exact mem_ba_holds.
  - simpl. set_solver.
  - vm_compute. intros Hin. apply elem_of_cons in Hin as [Hin|Hin]; [discriminate|].
    by apply elem_of_nil in Hin.
Defined.

(** ** How the scans relate to each other and to Get *)

Lemma filter_split {A} (P Q R : A → Prop)
    `{∀ x, Decision (P x), ∀ x, Decision (Q x), ∀ x, Decision (R x)} (l : list A) :
  (∀ x, P x ↔ Q x ∨ R x) → (∀ x, Q x → R x → False) →
  filter P l ≡ₚ filter Q l ++ filter R l.
Proof.
  intros HP Hex. induction l as [|x l IH]; [done|].
  rewrite !filter_cons.
  pose proof (HP x) as Hx. pose proof (Hex x) as Hx'.
  destruct (decide (P x)), (decide (Q x)), (decide (R x)); try tauto.
  - simpl. by rewrite IH.
  - rewrite IH. apply Permutation_middle.
Qed.

(** The records with a given sort key in a search tree: at most one. *)
Lemma filter_key_found s t q k :
  holds s t → (q, k) ∈ entries t →
  filter (in_range (K k) (K k)) (entries t) = [(q, k)].
Proof.
  intros H Hin. pose proof (bst_ascending t (proj2 H)) as Hasc.
  unfold tkeys in Hasc.
  apply list_elem_of_split in Hin as (l1 & l2 & Hent). rewrite Hent in *.
  rewrite fmap_app, fmap_cons in Hasc. simpl in Hasc.
  apply ascending_app in Hasc as (_ & _ & F1 & F2).
  rewrite Forall_fmap in F1, F2. rewrite Forall_forall in F1, F2.
  rewrite filter_app, filter_cons_True by (unfold in_range; simpl; rewrite Compare_refl; lia).
  rewrite !filter_none; [done| |].
  - intros e He [_ Hhi]. specialize (F2 e He). unfold compose in F2. simpl in F2.
    rewrite (Compare_antisym (K k) (K e.2)) in Hhi. lia.
  - intros e He [Hlo _]. specialize (F1 e He). unfold compose in F1. simpl in F1. lia.
Qed.

Lemma filter_key_absent t key :
  key ∉ tkeys t → filter (in_range key key) (entries t) = [].
Proof.
  intros Habs. apply filter_none. intros [q k] Hin [Hlo Hhi]. simpl in *.
  apply Habs. apply elem_of_tkeys. exists q, k. split; [done|].
  apply Compare_eq. lia.
Qed.

(** X9. [Range key key] is [Get key] as a slice: the one pointer [Get]
    returns when the key is in the tree, the empty slice when [Get] returns
    nil. *)
Theorem Range_of_one_key_is_Get s t key (H : holds s t) :
  ∃ r, Get key s = Ret r s ∧
       Range key key s = Ret (match r with Some q => [Some q] | None => [] end) s.
Proof.
  rewrite (Range_spec s t key key H).
  destruct (decide (key ∈ tkeys t)) as [Hin|Habs].
  - apply elem_of_tkeys in Hin as (q & k & Hin & <-).
    exists (Some q). split; [by apply (Get_found s t)|].
    by rewrite (filter_key_found s t q k).
  - exists None. split; [by apply (Get_absent s t)|].
    by rewrite filter_key_absent.
Qed.

Lemma Range_of_one_key_is_Get_witness :
  ∃ r, Get (bytes_of "a") mem_ba = Ret r mem_ba ∧
       Range (bytes_of "a") (bytes_of "a") mem_ba =
       Ret (match r with Some q => [Some q] | None => [] end) mem_ba.
Proof. apply (Range_of_one_key_is_Get mem_ba tree_ba). exact mem_ba_holds. Defined.

(** X10. [Range start end] with [start] greater than [end] returns the
    empty slice, whatever the tree holds. *)
Theorem Range_with_swapped_bounds_is_empty s t lo hi
    (H : holds s t) (Hlohi : Compare lo hi > 0) :
  Range lo hi s = Ret [] s.
Proof.
  rewrite (Range_spec s t lo hi H), filter_none; [done|].
  intros e _ [Hlo Hhi].
  assert (Compare lo hi ≤ 0); [|lia].
  destruct (Compare_range (K e.2) lo) as [E|[E|E]]; [lia| |].
  - apply Compare_eq in E. by rewrite <- E.
  - assert (Compare lo (K e.2) < 0) as Hlt by (rewrite (Compare_antisym (K e.2) lo); lia).
    pose proof (Compare_lt_le_trans _ _ _ Hlt Hhi). lia.
Qed.

Lemma Range_with_swapped_bounds_is_empty_witness :
  Range (bytes_of "b") (bytes_of "a") mem_ba = Ret [] mem_ba.
Proof.
  apply (Range_with_swapped_bounds_is_empty mem_ba tree_ba).
  - exact mem_ba_holds.
  - reflexivity.
Defined.

(** X11. The scans for one argument [x] fit together: [NGet x] returns the
    records of [LessThan x] and of [GreaterThan x]; [LessThanEq x] those of
    [LessThan x] and of [Range x x]; [GreaterThanEq x] those of [Range x x]
    and of [GreaterThan x]; no record is in two of [LessThan x],
    [Range x x], [GreaterThan x]. *)
Theorem scans_partition_the_keys s t x (H : holds s t) :
  ∃ lt pt gt le ge ne,
    LessThan x s = Ret lt s ∧ Range x x s = Ret pt s ∧ GreaterThan x s = Ret gt s ∧
    LessThanEq x s = Ret le s ∧ GreaterThanEq x s = Ret ge s ∧ NGet x s = Ret ne s ∧
    ne ≡ₚ lt ++ gt ∧ le ≡ₚ lt ++ pt ∧ ge ≡ₚ pt ++ gt ∧
    lt ++ pt ++ gt ≡ₚ kptrs (entries t) ∧ NoDup (lt ++ pt ++ gt).
Proof.
  eexists _, _, _, _, _, _.
  split; [by apply (LessThan_spec s t)|]. split; [by apply (Range_spec s t)|].
  split; [by apply (GreaterThan_spec s t)|]. split; [by apply (LessThanEq_spec s t)|].
  split; [by apply (GreaterThanEq_spec s t)|]. split; [by apply (NGet_spec s t)|].
  rewrite !kptrs_filter_perm. rewrite <- !kptrs_app.
  assert (∀ a b : bytes, Compare a b = 0 ↔ a = b) as Hz
    by (intros; split; [apply Compare_eq|intros ->; apply Compare_refl]).
  assert (filter (ne_key x) (entries t) ≡ₚ
          filter (lt_key x) (entries t) ++ filter (gt_key x) (entries t)) as E1.
  { apply filter_split; unfold ne_key, lt_key, gt_key; intros e; [|lia].
    rewrite <- Hz. lia. }
  assert (filter (le_key x) (entries t) ≡ₚ
          filter (lt_key x) (entries t) ++ filter (in_range x x) (entries t)) as E2.
  { apply filter_split; unfold le_key, lt_key, in_range; intros e; lia. }
  assert (filter (ge_key x) (entries t) ≡ₚ
          filter (in_range x x) (entries t) ++ filter (gt_key x) (entries t)) as E3.
  { apply filter_split; unfold ge_key, gt_key, in_range; intros e; lia. }
  assert (filter (lt_key x) (entries t) ++ filter (in_range x x) (entries t) ++
            filter (gt_key x) (entries t) ≡ₚ entries t) as E4.
  { rewrite <- E3.
    rewrite (list_filter_iff (ge_key x) (λ e, ¬ lt_key x e))
      by (intros e; unfold ge_key, lt_key; lia).
    apply filter_app_complement. }
  split; [unfold kptrs; by rewrite E1|]. split; [unfold kptrs; by rewrite E2|].
  split; [unfold kptrs; by rewrite E3|].
  split; [unfold kptrs; by rewrite E4|].
  unfold kptrs. rewrite E4.
  apply NoDup_fmap_2_strong; [|by apply (holds_NoDup_entries s t)].
  intros [q1 k1] [q2 k2] Hin1 Hin2 [= ->].
  pose proof (holds_entry s t q2 k1 H Hin1) as Eq1.
  rewrite (holds_entry s t q2 k2 H Hin2) in Eq1. congruence.
Qed.

Lemma scans_partition_the_keys_witness :
  let x := bytes_of "a" in
  ∃ lt pt gt le ge ne,
    LessThan x mem_ba = Ret lt mem_ba ∧ Range x x mem_ba = Ret pt mem_ba ∧
    GreaterThan x mem_ba = Ret gt mem_ba ∧
    LessThanEq x mem_ba = Ret le mem_ba ∧ GreaterThanEq x mem_ba = Ret ge mem_ba ∧
    NGet x mem_ba = Ret ne mem_ba ∧
    ne ≡ₚ lt ++ gt ∧ le ≡ₚ lt ++ pt ∧ ge ≡ₚ pt ++ gt ∧
    lt ++ pt ++ gt ≡ₚ kptrs (entries tree_ba) ∧ NoDup (lt ++ pt ++ gt).
Proof. intros x. apply (scans_partition_the_keys mem_ba tree_ba). exact mem_ba_holds. Defined.

(** ** Print *)

Lemma print_tags_length t tag : length (print_tags t tag) = length (tkeys t).
Proof.
  revert tag. induction t as [|l IHl a q k r IHr]; intros tag; [done|].
  rewrite tkeys_Br. simpl. rewrite !length_app. simpl. by rewrite IHl, IHr.
Qed.

Lemma print_spec s p t fuel pos tag out :
  rep s p t → (height t < fuel)%nat →
  (pos = Pos_Left ∧ tag = bytes_of "L: ") ∨
  (pos = Pos_Right ∧ tag = bytes_of "R: ") ∨
  (pos = Pos_Root ∧ tag = bytes_of "ROOT: ") →
  print fuel p pos out s =
  Ret (out ++ zip_with println (print_tags t tag) (tkeys t)) s.
Proof.
  intros H; revert fuel pos tag out.
  induction H as [|a n q k l r Hn Hq Hk Hl IHl Hr IHr]; intros fuel pos tag out Hf Hpos.
  - destruct fuel; [simpl in Hf; lia|]. simpl. by rewrite app_nil_r.
  - fuel_pos fuel Hf. cbn [print].
    rewrite bind_run, (loadNode_run _ _ _ Hn).
    rewrite bind_run, (IHl fuel Pos_Left (bytes_of "L: ")) by (lia || auto).
    rewrite tkeys_Br. cbn [print_tags].
    rewrite zip_with_app by apply print_tags_length.
    cbn [zip_with]. rewrite bind_run.
    assert ((if pos =? Pos_Left
             then loadKey (Node_Key n) ≫= λ k0,
                    ret ((out ++ zip_with println (print_tags l (bytes_of "L: ")) (tkeys l))
                         ++ [println (bytes_of "L: ") (K k0)])
             else if pos =? Pos_Right
             then loadKey (Node_Key n) ≫= λ k0,
                    ret ((out ++ zip_with println (print_tags l (bytes_of "L: ")) (tkeys l))
                         ++ [println (bytes_of "R: ") (K k0)])
             else if pos =? Pos_Root
             then loadKey (Node_Key n) ≫= λ k0,
                    ret ((out ++ zip_with println (print_tags l (bytes_of "L: ")) (tkeys l))
                         ++ [println (bytes_of "ROOT: ") (K k0)])
             else ret (out ++ zip_with println (print_tags l (bytes_of "L: ")) (tkeys l))) s =
            Ret ((out ++ zip_with println (print_tags l (bytes_of "L: ")) (tkeys l))
                 ++ [println tag (K k)]) s) as ->.
    { destruct Hpos as [[-> ->]|[[-> ->]|[-> ->]]];
        repeat match goal with
               | |- context [?a =? ?b] =>
                   let c := eval vm_compute in (a =? b) in change (a =? b) with c
               end;
        cbv iota; by rewrite bind_run, Hq, (loadKey_run _ _ _ Hk). }
    rewrite (IHr fuel Pos_Right (bytes_of "R: ")) by (lia || auto).
    by rewrite <- !app_assoc.
Qed.

Lemma print_tags_known t tag :
  tag ∈ [bytes_of "L: "; bytes_of "R: "; bytes_of "ROOT: "] →
  Forall (λ x, x ∈ [bytes_of "L: "; bytes_of "R: "; bytes_of "ROOT: "]) (print_tags t tag).
Proof.
  revert tag. induction t as [|l IHl a q k r IHr]; intros tag Htag; [constructor|].
  simpl. apply Forall_app. split; [apply IHl; set_solver|].
  constructor; [done|]. apply IHr. set_solver.
Qed.

Lemma print_tags_below t tag :
  tag ≠ bytes_of "ROOT: " → bytes_of "ROOT: " ∉ print_tags t tag.
Proof.
  revert tag. induction t as [|l IHl a q k r IHr]; intros tag Htag; [apply not_elem_of_nil|].
  simpl. rewrite elem_of_app, elem_of_cons.
  intros [Hin|[Heq|Hin]]; [|done|].
  - by apply (IHl (bytes_of "L: ")).
  - by apply (IHr (bytes_of "R: ")).
Qed.

Lemma Print_spec s t :
  holds s t →
  Print s = Ret (zip_with println (print_tags t (bytes_of "ROOT: ")) (tkeys t)) s.
Proof.
  intros H. unfold Print. rewrite bind_run. unfold loadRoot, with_budget.
  rewrite (print_spec s (Root s) t (budget s) Pos_Root (bytes_of "ROOT: ") []);
    [done|apply H|by apply holds_budget|auto].
Qed.

(** X12. [Print] writes one line per key of the tree and leaves the memory
    as it is.  The lines come in ascending key order; each is a tag, a
    space, the key and a newline.  The line of the root node is tagged
    "ROOT: " and stands between the lines of its left and of its right
    subtree; every other line is tagged "L: " or "R: ", by the slot its node
    hangs in. *)
Theorem Print_dumps_in_key_order s t (H : holds s t) :
  ∃ tags,
    Print s = Ret (zip_with println tags (tkeys t)) s ∧
    length tags = length (tkeys t) ∧ ascending (tkeys t) ∧
    tags = print_tags t (bytes_of "ROOT: ") ∧
    Forall (λ x, x ∈ [bytes_of "L: "; bytes_of "R: "; bytes_of "ROOT: "]) tags ∧
    (∀ l a q k r, t = Br l a q k r →
       ∃ tl tr, tags = tl ++ bytes_of "ROOT: " :: tr ∧
                length tl = length (tkeys l) ∧ length tr = length (tkeys r) ∧
                (bytes_of "ROOT: " ∉ tl) ∧ (bytes_of "ROOT: " ∉ tr)).
Proof.
  exists (print_tags t (bytes_of "ROOT: ")).
  split; [by apply Print_spec|].
  split; [apply print_tags_length|].
  split; [apply bst_ascending, H|]. split; [done|].
  split; [apply print_tags_known; set_solver|].
  intros l a q k r ->. simpl. eexists _, _. split; [done|].
  split; [apply print_tags_length|]. split; [apply print_tags_length|].
  split; by apply print_tags_below.
Qed.

Lemma Print_dumps_in_key_order_witness :
  ∃ tags,
    Print mem_ba = Ret (zip_with println tags (tkeys tree_ba)) mem_ba ∧
    length tags = length (tkeys tree_ba) ∧ ascending (tkeys tree_ba) ∧
    tags = print_tags tree_ba (bytes_of "ROOT: ") ∧
    Forall (λ x, x ∈ [bytes_of "L: "; bytes_of "R: "; bytes_of "ROOT: "]) tags ∧
    (∀ l a q k r, tree_ba = Br l a q k r →
       ∃ tl tr, tags = tl ++ bytes_of "ROOT: " :: tr ∧
                length tl = length (tkeys l) ∧ length tr = length (tkeys r) ∧
                (bytes_of "ROOT: " ∉ tl) ∧ (bytes_of "ROOT: " ∉ tr)).
Proof. apply (Print_dumps_in_key_order mem_ba tree_ba). exact mem_ba_holds. Defined.

(** The dump of the example tree, byte for byte. *)
Example Print_example :
  Print mem_ba = Ret [bytes_of "L:  a
"; bytes_of "ROOT:  b
"] mem_ba.
Proof. vm_compute. reflexivity. Qed.

(** ** The empty tree *)

(** X13. When the root is nil every read returns nothing and every write
    but [Put] does nothing: [Get] returns nil, the scans return the empty
    slice, [Print] writes no line, [Delete] and [Remove] leave the memory
    as it is. *)
Theorem nil_root_operations s (Hroot : Root s = None) :
  (∀ x, Get x s = Ret None s) ∧
  (∀ lo hi, Range lo hi s = Ret [] s) ∧
  (∀ x, GreaterThan x s = Ret [] s) ∧ (∀ x, GreaterThanEq x s = Ret [] s) ∧
  (∀ x, LessThan x s = Ret [] s) ∧ (∀ x, LessThanEq x s = Ret [] s) ∧
  (∀ x, NGet x s = Ret [] s) ∧
  Print s = Ret [] s ∧
  (∀ x, Delete x s = Ret tt s) ∧ (∀ x v, Remove x v s = Ret tt s).
Proof.
  assert (holds s Leaf) as H by (split; [rewrite Hroot; constructor|done]).
  assert (∀ x : bytes, x ∉ tkeys Leaf) as Hno by (intros x; apply not_elem_of_nil).
  split; [intros x; by apply (Get_absent s Leaf)|].
  split; [intros lo hi; by rewrite (Range_spec s Leaf)|].
  split; [intros x; by rewrite (GreaterThan_spec s Leaf)|].
  split; [intros x; by rewrite (GreaterThanEq_spec s Leaf)|].
  split; [intros x; by rewrite (LessThan_spec s Leaf)|].
  split; [intros x; by rewrite (LessThanEq_spec s Leaf)|].
  split; [intros x; by rewrite (NGet_spec s Leaf)|].
  split; [by rewrite (Print_spec s Leaf)|].
  split; [intros x; by apply (Delete_absent s Leaf)|].
  intros x v; by apply (Remove_absent s Leaf).
Qed.

Lemma nil_root_operations_witness :
  (∀ x, Get x New = Ret None New) ∧
  (∀ lo hi, Range lo hi New = Ret [] New) ∧
  (∀ x, GreaterThan x New = Ret [] New) ∧ (∀ x, GreaterThanEq x New = Ret [] New) ∧
  (∀ x, LessThan x New = Ret [] New) ∧ (∀ x, LessThanEq x New = Ret [] New) ∧
  (∀ x, NGet x New = Ret [] New) ∧
  Print New = Ret [] New ∧
  (∀ x, Delete x New = Ret tt New) ∧ (∀ x v, Remove x v New = Ret tt New).
Proof. apply (nil_root_operations New). reflexivity. Defined.

(** ** minValueNode *)

(** X14. On a tree that is not empty [minValueNode], called on the root,
    returns the node with the least key: the node has no left child, every
    key of the tree is greater than or equal to its key, and [Get] of its
    key returns its key record.  The memory is left as it is. *)
Theorem minValueNode_finds_least_key s t (H : holds s t) (Hroot : Root s ≠ None) :
  ∃ b m q k,
    minValueNode (budget s) (Root s) s = Ret (Some b) s ∧
    node_at s !! b = Some m ∧ Left m = None ∧ Node_Key m = Some q ∧
    key_at s !! q = Some k ∧ Get (K k) s = Ret (Some q) s ∧
    ∀ x, x ∈ tkeys t → Compare (K k) x ≤ 0.
Proof.
  pose proof H as [Hrep Hb].
  assert (t ≠ Leaf) as Hne.
  { intros ->. apply rep_root_of in Hrep. by rewrite Hrep in Hroot. }
  destruct (minValueNode_spec s (Root s) t (budget s) Hrep Hne (holds_budget s t H))
    as (b & q & k & Hlm & Hmin).
  destruct (leftmost_rep _ _ _ _ _ _ Hrep Hlm) as (m & Hm & Hmq & Hmk & HmL).
  destruct (leftmost_entries t Hne) as (b' & q' & k' & rest & Hlm' & Hent & _).
  rewrite Hlm in Hlm'. injection Hlm' as <- <- <-.
  exists b, m, q, k. split; [done|]. split; [done|]. split; [done|].
  split; [done|]. split; [done|].
  assert ((q, k) ∈ entries t) as Hin by (rewrite Hent; left).
  split; [by apply (Get_found s t)|].
  intros x Hx. apply elem_of_tkeys in Hx as (q0 & k0 & Hin0 & <-).
  rewrite Hent in Hin0. apply elem_of_cons in Hin0 as [[= -> ->]|Hin0].
  - rewrite Compare_refl. lia.
  - pose proof (bst_head_least t q k rest Hb Hent (q0, k0) Hin0). simpl in *. lia.
Qed.

Lemma minValueNode_finds_least_key_witness :
  ∃ b m q k,
    minValueNode (budget mem_badc) (Root mem_badc) mem_badc = Ret (Some b) mem_badc ∧
    node_at mem_badc !! b = Some m ∧ Left m = None ∧ Node_Key m = Some q ∧
    key_at mem_badc !! q = Some k ∧ Get (K k) mem_badc = Ret (Some q) mem_badc ∧
    ∀ x, x ∈ tkeys tree_badc → Compare (K k) x ≤ 0.
Proof.
  apply (minValueNode_finds_least_key mem_badc tree_badc).
  - exact mem_badc_holds.
  - vm_compute. discriminate.
Defined.

(** ** Keys put in ascending order *)

Lemma tree_put_right_spine t a q key v :
  right_spine t → Forall (λ x, Compare x key < 0) (tkeys t) →
  right_spine (tree_put t a q key v) ∧
  height (tree_put t a q key v) = S (height t) ∧
  entries (tree_put t a q key v) = entries t ++ [(q, mkKey key [v])].
Proof.
  induction t as [|l _ b qb k r IHr]; intros Hsp Hlt; [done|].
  destruct Hsp as [-> Hsp]. rewrite tkeys_Br in Hlt. simpl in Hlt.
  apply Forall_cons in Hlt as [Hk Hlt].
  cbn [tree_put].
  rewrite (Compare_antisym (K k) key).
  destruct (Z.ltb_spec (- Compare (K k) key) 0) as [?|_]; [lia|].
  destruct (Z.gtb_spec (- Compare (K k) key) 0) as [_|?]; [|lia].
  destruct (IHr Hsp Hlt) as (IH1 & IH2 & IH3).
  simpl. rewrite IH2, IH3. done.
Qed.

Lemma right_spine_preorder t : right_spine t → preorder t = entries t.
Proof.
  induction t as [|l _ b qb k r IHr]; [done|].
  intros [-> Hsp]. simpl. by rewrite IHr.
Qed.

Lemma puts_ascending kvs : ∀ s t,
  holds s t → right_spine t →
  ascending (tkeys t ++ kvs.*1) →
  ∃ s' t', run (puts kvs) s = Ret tt s' ∧ holds s' t' ∧ right_spine t' ∧
           height t' = (height t + length kvs)%nat ∧
           tkeys t' = tkeys t ++ kvs.*1.
Proof.
  induction kvs as [|[key v] kvs IH]; intros s t H Hsp Hasc.
  - exists s, t. simpl. rewrite app_nil_r. repeat split; auto; try apply H.
  - simpl in Hasc.
    pose proof Hasc as Hasc'. apply ascending_app in Hasc' as (_ & _ & Hlt & _).
    assert (key ∉ tkeys t) as Habs.
    { intros Hin. rewrite Forall_forall in Hlt.
      by apply Hlt, Compare_lt_irrefl in Hin. }
    destruct (Put_absent s t key v H Habs) as (s1 & E1 & Hh1 & _).
    destruct (tree_put_right_spine t (new_node_addr s) (new_key_addr s) key v Hsp Hlt)
      as (Hsp1 & Hh & Hent).
    set (t1 := tree_put t (new_node_addr s) (new_key_addr s) key v) in *.
    assert (tkeys t1 = tkeys t ++ [key]) as Hk1.
    { unfold tkeys. by rewrite Hent, fmap_app. }
    destruct (IH s1 t1 Hh1 Hsp1) as (s' & t' & E & Hh' & Hsp' & Hht & Hk').
    { rewrite Hk1, <- app_assoc. exact Hasc. }
    exists s', t'. split; [|split; [done|split; [done|split]]].
    + simpl. by rewrite bind_run, E1.
    + rewrite Hht, Hh. simpl. lia.
    + rewrite Hk', Hk1, <- app_assoc. done.
Qed.

(** X15. Keys put into a new tree in strictly ascending order form a list
    that hangs to the right: no node has a left child, the in-order keys are
    the keys in the order they were put, and the height of the tree is the
    number of keys (the package never rebalances). *)
Theorem ascending_puts_build_a_list kvs (Hasc : ascending kvs.*1) :
  ∃ s t, run (puts kvs) New = Ret tt s ∧ holds s t ∧
         right_spine t ∧ height t = length kvs ∧ tkeys t = kvs.*1.
Proof.
  destruct (puts_ascending kvs New Leaf holds_New I Hasc)
    as (s & t & E & H & Hsp & Hh & Hk).
  exists s, t. repeat split; auto; apply H.
Qed.

Lemma ascending_puts_build_a_list_witness :
  let kvs := [(bytes_of "a", bytes_of "1"); (bytes_of "b", bytes_of "2");
              (bytes_of "c", bytes_of "3")] in
  ∃ s t, run (puts kvs) New = Ret tt s ∧ holds s t ∧
         right_spine t ∧ height t = length kvs ∧ tkeys t = kvs.*1.
Proof.
  intros kvs. apply (ascending_puts_build_a_list kvs).
  simpl. repeat split; repeat constructor.
Defined.

(** X16. On a tree where no node has a left child (as after ascending
    puts) [GreaterThanEq], [LessThan] and [LessThanEq] return the selected
    records in in-order, and so in ascending key order. *)
Theorem preorder_scans_ascend_on_a_list s t x
    (H : holds s t) (Hsp : right_spine t) :
  GreaterThanEq x s = Ret (kptrs (filter (ge_key x) (entries t))) s ∧
  LessThan x s = Ret (kptrs (filter (lt_key x) (entries t))) s ∧
  LessThanEq x s = Ret (kptrs (filter (le_key x) (entries t))) s ∧
  ascending (scan_keys (GreaterThanEq x s)) ∧
  ascending (scan_keys (LessThan x s)) ∧
  ascending (scan_keys (LessThanEq x s)).
Proof.
  pose proof (bst_ascending t (proj2 H)) as Hasc. unfold tkeys in Hasc.
  rewrite (GreaterThanEq_spec s t), (LessThan_spec s t), (LessThanEq_spec s t) by done.
  rewrite (right_spine_preorder t Hsp).
  split; [done|]. split; [done|]. split; [done|].
  rewrite !(scan_keys_kptrs s t) by
    (done || intros e He; by apply list_elem_of_filter in He as [_ He]).
  repeat split; by apply ascending_filter.
Qed.

Lemma mem_abc_holds : holds mem_abc tree_abc.
Proof. split; [rep_example | bst_example]. Qed.

Lemma preorder_scans_ascend_on_a_list_witness :
  let x := bytes_of "b" in
  GreaterThanEq x mem_abc = Ret (kptrs (filter (ge_key x) (entries tree_abc))) mem_abc ∧
  LessThan x mem_abc = Ret (kptrs (filter (lt_key x) (entries tree_abc))) mem_abc ∧
  LessThanEq x mem_abc = Ret (kptrs (filter (le_key x) (entries tree_abc))) mem_abc ∧
  ascending (scan_keys (GreaterThanEq x mem_abc)) ∧
  ascending (scan_keys (LessThan x mem_abc)) ∧
  ascending (scan_keys (LessThanEq x mem_abc)).
Proof.
  intros x. apply (preorder_scans_ascend_on_a_list mem_abc tree_abc).
  - exact mem_abc_holds.
  - simpl. auto.
Defined.

(** ** Values accumulate, Delete forgets them *)

Lemma puts_same_key vs : ∀ s t key old,
  holds s t → values_of key s = Some old →
  ∃ s' t', run (puts ((λ v, (key, v)) <$> vs)) s = Ret tt s' ∧ holds s' t' ∧
           values_of key s' = Some (old ++ vs).
Proof.
  induction vs as [|v vs IH]; intros s t key old H Hold.
  - exists s, t. simpl. by rewrite app_nil_r.
  - destruct (Put_values s t key v H) as (s1 & t1 & q & E1 & H1 & G1 & K1).
    rewrite Hold in K1. simpl in K1.
    assert (values_of key s1 = Some (old ++ [v])) as V1.
    { unfold values_of. by rewrite G1, K1. }
    destruct (IH s1 t1 key (old ++ [v]) H1 V1) as (s' & t' & E & H' & V').
    exists s', t'. split; [|split; [done|]].
    + simpl. by rewrite bind_run, E1.
    + by rewrite V', <- app_assoc.
Qed.

(** X17. The values of a key are the values put for it, in the order of the
    [Put] calls: after [Put key v] and then [Put key] of each value of [vs],
    [Get key] yields the values the key had before, then [v], then [vs]. *)
Theorem Puts_accumulate_in_order s t key v vs (H : holds s t) :
  ∃ s', run (puts ((λ v, (key, v)) <$> (v :: vs))) s = Ret tt s' ∧
        values_of key s' = Some (default [] (values_of key s) ++ v :: vs).
Proof.
  destruct (Put_values s t key v H) as (s1 & t1 & q & E1 & H1 & G1 & K1).
  assert (values_of key s1 = Some (default [] (values_of key s) ++ [v])) as V1.
  { unfold values_of. by rewrite G1, K1. }
  destruct (puts_same_key vs s1 t1 key _ H1 V1) as (s' & t' & E & H' & V').
  exists s'. split.
  - simpl. rewrite bind_run, E1. exact E.
  - by rewrite V', <- app_assoc.
Qed.

Lemma Puts_accumulate_in_order_witness :
  let key := bytes_of "a" in
  let v := bytes_of "x" in
  let vs := [bytes_of "y"; bytes_of "x"] in
  ∃ s', run (puts ((λ v, (key, v)) <$> (v :: vs))) mem_ba = Ret tt s' ∧
        values_of key s' = Some (default [] (values_of key mem_ba) ++ v :: vs).
Proof. intros key v vs. apply (Puts_accumulate_in_order mem_ba tree_ba). exact mem_ba_holds. Defined.

(** X18. [Delete] forgets the values of the key: after [Delete key] and
    [Put key v] the key has the single value [v], whatever values it had
    before, and its key record is a new one. *)
Theorem Delete_then_Put_starts_afresh s t key v (H : holds s t) :
  ∃ s1 s2 q, Delete key s = Ret tt s1 ∧ Put key v s1 = Ret tt s2 ∧
             Get key s2 = Ret (Some q) s2 ∧
             key_at s2 !! q = Some (mkKey key [v]) ∧
             key_at s !! q = None.
Proof.
  destruct (Delete_spec s t key H) as (s1 & E1 & H1 & HK1).
  assert (key ∉ tkeys (tree_delete t key)) as Habs.
  { rewrite tkeys_tree_delete by apply H.
    intros Hin. by apply list_elem_of_filter in Hin as [Hne _]. }
  destruct (Put_absent s1 _ key v H1 Habs) as (s2 & E2 & H2 & HK2).
  exists s1, s2, (new_key_addr s1). split; [done|]. split; [done|].
  assert ((new_key_addr s1, mkKey key [v]) ∈
          entries (tree_put (tree_delete t key) (new_node_addr s1) (new_key_addr s1) key v))
    as Hin by (rewrite entries_tree_put by done; left).
  split; [by apply (Get_found s2 _ _ (mkKey key [v]) H2)|].
  split; [by apply (holds_entry s2 _ _ _ H2)|].
  rewrite <- HK1. apply new_key_fresh.
Qed.

Lemma Delete_then_Put_starts_afresh_witness :
  let key := bytes_of "b" in
  let v := bytes_of "9" in
  ∃ s1 s2 q, Delete key mem_badc = Ret tt s1 ∧ Put key v s1 = Ret tt s2 ∧
             Get key s2 = Ret (Some q) s2 ∧
             key_at s2 !! q = Some (mkKey key [v]) ∧
             key_at mem_badc !! q = None.
Proof. intros key v. apply (Delete_then_Put_starts_afresh mem_badc tree_badc). exact mem_badc_holds. Defined.
